(** * QoS subsystem of the border router: classifier and packet queues

    A shallow embedding of the Go package [go/border/qos/queues]:
    the rule index ([RulesToMap]), the two classifiers
    ([RegularClassRule], [CachelessClassRule]), the rule cache
    ([ClassRuleCache]) and the two packet queues ([ChannelPacketQueue],
    [PacketBufQueue]), followed by the properties of the design document
    stated and settled against these definitions.

    Conventions of the embedding.
    - Go's fixed-width integers are [Z]; every conversion that can wrap
      ([uint8(x)], [uint64(x)]) is written out with [Z.modulo].
    - A slice is a [list]; a [nil] slice and an empty slice are both [[]]
      (the code only ever takes [len] of them or compares them with [nil]
      to skip a loop that an empty slice skips as well).
    - A Go [map] is a [gmap]; reading a missing key yields the zero value
      of the element type.
    - A run-time panic (index out of range, nil dereference) is the
      [Panic] outcome of the [result] monad.
    - [float64] is Rocq's primitive binary64 float. *)

From Stdlib Require Import ZArith Floats.
From stdpp Require Import gmap strings list fin_maps.

Open Scope Z_scope.

(** ** Outcomes of Go code that may panic *)

Inductive panic : Set :=
  | IndexOutOfRange
  | NilDereference.

Inductive result (A : Type) : Type :=
  | Ok (a : A)
  | Panic (why : panic).

Arguments Ok {A} a.
Arguments Panic {A} why.

Global Instance result_ret : MRet result := λ A a, Ok a.

Global Instance result_bind : MBind result := λ A B f m,
  match m with
  | Ok a => f a
  | Panic w => Panic w
  end.

(** ** Collaborators of the classifier *)

(** [addr.IA]: an ISD ([uint16]) and an AS ([uint64]). *)
Module addr.

Record IA : Set := mkIA {
  I : Z;
  A : Z;
}.

Global Instance IA_eq_dec : EqDecision IA.
Proof. solve_decision. Defined.

Global Instance IA_countable : Countable IA :=
  inj_countable' (λ ia, (I ia, A ia)) (λ p, mkIA p.1 p.2)
    (λ ia, match ia with mkIA _ _ => eq_refl end).

(** The zero value [addr.IA{}]. *)
Definition zero : IA := mkIA 0 0.

End addr.

(** [common.ExtnType]: the class and the type of an extension header. *)
Module common.

Record ExtnType : Set := {
  Class_ : Z;
  Type_ : Z;
}.

(** The zero value, as [make([]common.ExtnType, n)] fills a slice. *)
Definition zeroExtn : ExtnType := {| Class_ := 0; Type_ := 0 |}.

End common.

(** What the classifier reads of a router packet [rpkt.RtrPkt]: the results
    of [SrcIA()] and [DstIA()], [Ingress.IfID], [L4Type], and for each
    hop-by-hop and end-to-end extension the value of [GetExtn().Type()]. *)
Module rpkt.

Record RtrPkt : Set := {
  SrcIA : addr.IA;
  DstIA : addr.IA;
  IfID : Z;
  L4Type : Z;
  HBHExt : list common.ExtnType;
  E2EExt : list common.ExtnType;
}.

End rpkt.

(** Modelled from the spec: the declaration of [conf.ExternalClassRule] is
    not part of the sources at hand.  The fields are those that
    [ConvClassRuleToInternal] reads; the design document describes them as
    string-typed [sourceAs] and [destinationAs], integer match-mode codes, a
    [queueNumber], a [priority] and a list of [(baseProtocol, extension)]
    pairs. *)
Module conf.

Record L4Match : Set := {
  BaseProtocol : Z;
  Extension : Z;
}.

Record ExternalClassRule : Set := {
  Name : string;
  Priority : Z;
  SourceAs : string;
  SourceMatchMode : Z;
  DestinationAs : string;
  DestinationMatchMode : Z;
  L4Type : list L4Match;
  QueueNumber : Z;
}.

End conf.

(** ** The classifier *)

Module Rules.

(** Conversions between Go's integer types. *)
Definition uint8 (x : Z) : Z := x mod 2 ^ 8.
Definition uint16 (x : Z) : Z := x mod 2 ^ 16.
Definition uint64 (x : Z) : Z := x mod 2 ^ 64.

Record ProtocolMatchType : Set := {
  baseProtocol : Z;
  extension : Z;
}.

(** The six declared values of [matchMode], in the order of their codes
    0 to 5. *)
Inductive matchMode : Set :=
  | EXACT
  | ISDONLY
  | ASONLY
  | RANGE
  | ANY
  | INTF.

Global Instance matchMode_eq_dec : EqDecision matchMode.
Proof. solve_decision. Defined.

Record matchRule : Set := {
  IA : addr.IA;
  lowLim : addr.IA;
  upLim : addr.IA;
  intf : Z;
  matchMode_ : matchMode;
}.

Record InternalClassRule : Set := {
  Name : string;
  Priority : Z;
  SourceAs : matchRule;
  DestinationAs : matchRule;
  L4Type : list ProtocolMatchType;
  QueueNumber : Z;
}.

(** The zero value [matchRule{}]. *)
Definition zeroMatchRule : matchRule :=
  {| IA := addr.zero; lowLim := addr.zero; upLim := addr.zero;
     intf := 0; matchMode_ := EXACT |}.

(** *** Pointers to rules

    Rules are never written after the index is built, so a non-nil
    [*InternalClassRule] is the address it holds together with the rule
    stored there.  The addresses in use are the one of the package variable
    behind [emptyRule] and [&crs[k]] for the elements of the rule slice.
    Go's [==] on two such pointers compares the addresses. *)
Inductive address : Set :=
  | emptyRuleAddr
  | elemAddr (k : nat).

Global Instance address_eq_dec : EqDecision address.
Proof. solve_decision. Defined.

Inductive RulePtr : Set :=
  | nilPtr
  | ptrTo (a : address) (r : InternalClassRule).

Definition ptr_eqb (p q : RulePtr) : bool :=
  match p, q with
  | nilPtr, nilPtr => true
  | ptrTo a _, ptrTo b _ => bool_decide (a = b)
  | _, _ => false
  end.

Definition emptyRule : RulePtr :=
  ptrTo emptyRuleAddr
    {| Name := "default"; Priority := 0;
       SourceAs := zeroMatchRule; DestinationAs := zeroMatchRule;
       L4Type := []; QueueNumber := 0 |}.

(** *** The rule index *)

(** Modelled from the spec: the declaration of [MapRules] is not part of
    the sources at hand; the fields are those of the composite literal that
    ends [RulesToMap], which agree with the tables of the design document's
    RuleIndex.  Its further field [CrCache], the one mutable part, is kept
    apart as the [ClassRuleCache] below. *)
Record MapRules : Type := mkMapRules {
  RulesList : list InternalClassRule;
  SourceRules : gmap addr.IA (list RulePtr);
  DestinationRules : gmap addr.IA (list RulePtr);
  SourceAnyDestinationRules : gmap addr.IA (list RulePtr);
  DestinationAnySourceRules : gmap addr.IA (list RulePtr);
  ASOnlySourceRules : gmap Z (list RulePtr);
  ASOnlyDestRules : gmap Z (list RulePtr);
  ISDOnlySourceRules : gmap Z (list RulePtr);
  ISDOnlyDestRules : gmap Z (list RulePtr);
  L4OnlyRules : list RulePtr;
  InterfaceIncomingRules : gmap Z (list RulePtr);
}.

(** Assignment to one table of the index under construction; the other
    tables are kept. *)
Definition set_SourceRules (v : gmap addr.IA (list RulePtr)) (mp : MapRules)
  : MapRules :=
  mkMapRules (RulesList mp) v (DestinationRules mp)
    (SourceAnyDestinationRules mp) (DestinationAnySourceRules mp)
    (ASOnlySourceRules mp) (ASOnlyDestRules mp) (ISDOnlySourceRules mp)
    (ISDOnlyDestRules mp) (L4OnlyRules mp) (InterfaceIncomingRules mp).

Definition set_DestinationRules (v : gmap addr.IA (list RulePtr)) (mp : MapRules)
  : MapRules :=
  mkMapRules (RulesList mp) (SourceRules mp) v (SourceAnyDestinationRules mp)
    (DestinationAnySourceRules mp) (ASOnlySourceRules mp) (ASOnlyDestRules mp)
    (ISDOnlySourceRules mp) (ISDOnlyDestRules mp) (L4OnlyRules mp)
    (InterfaceIncomingRules mp).

Definition set_SourceAnyDestinationRules (v : gmap addr.IA (list RulePtr)) (mp : MapRules)
  : MapRules :=
  mkMapRules (RulesList mp) (SourceRules mp) (DestinationRules mp) v
    (DestinationAnySourceRules mp) (ASOnlySourceRules mp) (ASOnlyDestRules mp)
    (ISDOnlySourceRules mp) (ISDOnlyDestRules mp) (L4OnlyRules mp)
    (InterfaceIncomingRules mp).

Definition set_DestinationAnySourceRules (v : gmap addr.IA (list RulePtr)) (mp : MapRules)
  : MapRules :=
  mkMapRules (RulesList mp) (SourceRules mp) (DestinationRules mp)
    (SourceAnyDestinationRules mp) v (ASOnlySourceRules mp)
    (ASOnlyDestRules mp) (ISDOnlySourceRules mp) (ISDOnlyDestRules mp)
    (L4OnlyRules mp) (InterfaceIncomingRules mp).

Definition set_ASOnlySourceRules (v : gmap Z (list RulePtr)) (mp : MapRules)
  : MapRules :=
  mkMapRules (RulesList mp) (SourceRules mp) (DestinationRules mp)
    (SourceAnyDestinationRules mp) (DestinationAnySourceRules mp) v
    (ASOnlyDestRules mp) (ISDOnlySourceRules mp) (ISDOnlyDestRules mp)
    (L4OnlyRules mp) (InterfaceIncomingRules mp).

Definition set_ASOnlyDestRules (v : gmap Z (list RulePtr)) (mp : MapRules)
  : MapRules :=
  mkMapRules (RulesList mp) (SourceRules mp) (DestinationRules mp)
    (SourceAnyDestinationRules mp) (DestinationAnySourceRules mp)
    (ASOnlySourceRules mp) v (ISDOnlySourceRules mp) (ISDOnlyDestRules mp)
    (L4OnlyRules mp) (InterfaceIncomingRules mp).

Definition set_ISDOnlySourceRules (v : gmap Z (list RulePtr)) (mp : MapRules)
  : MapRules :=
  mkMapRules (RulesList mp) (SourceRules mp) (DestinationRules mp)
    (SourceAnyDestinationRules mp) (DestinationAnySourceRules mp)
    (ASOnlySourceRules mp) (ASOnlyDestRules mp) v (ISDOnlyDestRules mp)
    (L4OnlyRules mp) (InterfaceIncomingRules mp).

Definition set_ISDOnlyDestRules (v : gmap Z (list RulePtr)) (mp : MapRules)
  : MapRules :=
  mkMapRules (RulesList mp) (SourceRules mp) (DestinationRules mp)
    (SourceAnyDestinationRules mp) (DestinationAnySourceRules mp)
    (ASOnlySourceRules mp) (ASOnlyDestRules mp) (ISDOnlySourceRules mp) v
    (L4OnlyRules mp) (InterfaceIncomingRules mp).

Definition set_L4OnlyRules (v : list RulePtr) (mp : MapRules)
  : MapRules :=
  mkMapRules (RulesList mp) (SourceRules mp) (DestinationRules mp)
    (SourceAnyDestinationRules mp) (DestinationAnySourceRules mp)
    (ASOnlySourceRules mp) (ASOnlyDestRules mp) (ISDOnlySourceRules mp)
    (ISDOnlyDestRules mp) v (InterfaceIncomingRules mp).

Definition set_InterfaceIncomingRules (v : gmap Z (list RulePtr)) (mp : MapRules)
  : MapRules :=
  mkMapRules (RulesList mp) (SourceRules mp) (DestinationRules mp)
    (SourceAnyDestinationRules mp) (DestinationAnySourceRules mp)
    (ASOnlySourceRules mp) (ASOnlyDestRules mp) (ISDOnlySourceRules mp)
    (ISDOnlyDestRules mp) (L4OnlyRules mp) v.

(** [m[key]] for a map of rule slices: the empty slice for a missing key. *)
Definition at_key `{Countable K} (m : gmap K (list RulePtr)) (key : K)
  : list RulePtr :=
  default [] (m !! key).

(** [m[key] = append(m[key], p)] *)
Definition append_at `{Countable K} (m : gmap K (list RulePtr)) (key : K)
    (p : RulePtr) : gmap K (list RulePtr) :=
  <[key := at_key m key ++ [p]]> m.

(** The cells visited by the two nested loops of the [RANGE] case,
    [for i := lowLimI; i <= upLimI; i++ { for j := lowLimA; j <= upLimA; j++ ],
    in the order they are visited.  [i] is a [uint16] and [j] a [uint64]:
    when a loop that is entered has the greatest value of its type as upper
    limit, the increment wraps around and the loop never ends ([None]). *)
Definition rangeCells (low up : addr.IA) : option (list addr.IA) :=
  let lowLimI := uint16 (addr.I low) in
  let upLimI := uint16 (addr.I up) in
  let lowLimA := uint64 (addr.A low) in
  let upLimA := uint64 (addr.A up) in
  if upLimI <? lowLimI then Some []
  else if upLimI =? 2 ^ 16 - 1 then None
  else if upLimA <? lowLimA then Some []
  else if upLimA =? 2 ^ 64 - 1 then None
  else Some (i ← seqZ lowLimI (upLimI - lowLimI + 1);
             j ← seqZ lowLimA (upLimA - lowLimA + 1);
             [addr.mkIA i j]).

(** [switch cr.SourceAs.matchMode] for the rule [cr] at index [k]. *)
Definition indexSource (k : nat) (cr : InternalClassRule) (mp : MapRules)
  : option MapRules :=
  let p := ptrTo (elemAddr k) cr in
  match matchMode_ (SourceAs cr) with
  | EXACT =>
      Some (set_SourceRules
              (append_at (SourceRules mp) (IA (SourceAs cr)) p) mp)
  | RANGE =>
      cells ← rangeCells (lowLim (SourceAs cr)) (upLim (SourceAs cr));
      Some (set_SourceRules
              (foldl (λ m c, append_at m c p) (SourceRules mp) cells) mp)
  | ASONLY =>
      Some (set_ASOnlySourceRules
              (append_at (ASOnlySourceRules mp) (addr.A (IA (SourceAs cr))) p) mp)
  | ISDONLY =>
      Some (set_ISDOnlySourceRules
              (append_at (ISDOnlySourceRules mp) (addr.I (IA (SourceAs cr))) p) mp)
  | ANY =>
      if decide (matchMode_ (DestinationAs cr) ≠ ANY) then
        Some (set_DestinationAnySourceRules
              (append_at (DestinationAnySourceRules mp) (IA (DestinationAs cr)) p) mp)
      else Some (set_L4OnlyRules
              (L4OnlyRules mp ++ [p]) mp)
  | INTF =>
      Some (set_InterfaceIncomingRules
              (append_at (InterfaceIncomingRules mp) (intf (SourceAs cr)) p) mp)
  end.

(** [switch cr.DestinationAs.matchMode] for the rule [cr] at index [k]. *)
Definition indexDestination (k : nat) (cr : InternalClassRule) (mp : MapRules)
  : option MapRules :=
  let p := ptrTo (elemAddr k) cr in
  match matchMode_ (DestinationAs cr) with
  | EXACT =>
      Some (set_DestinationRules
              (append_at (DestinationRules mp) (IA (DestinationAs cr)) p) mp)
  | RANGE =>
      cells ← rangeCells (lowLim (DestinationAs cr)) (upLim (DestinationAs cr));
      Some (set_DestinationRules
              (foldl (λ m c, append_at m c p) (DestinationRules mp) cells) mp)
  | ASONLY =>
      Some (set_ASOnlyDestRules
              (append_at (ASOnlyDestRules mp) (addr.A (IA (DestinationAs cr))) p) mp)
  | ISDONLY =>
      Some (set_ISDOnlyDestRules
              (append_at (ISDOnlyDestRules mp) (addr.I (IA (DestinationAs cr))) p) mp)
  | ANY =>
      if decide (matchMode_ (SourceAs cr) ≠ ANY) then
        Some (set_SourceAnyDestinationRules
              (append_at (SourceAnyDestinationRules mp) (IA (SourceAs cr)) p) mp)
      else Some mp
  | INTF => Some mp
  end.

(** The body of [for k, cr := range crs], from index [k] on. *)
Fixpoint indexRules (k : nat) (crs : list InternalClassRule) (mp : MapRules)
  : option MapRules :=
  match crs with
  | [] => Some mp
  | cr :: rest =>
      mp1 ← indexSource k cr mp;
      mp2 ← indexDestination k cr mp1;
      indexRules (S k) rest mp2
  end.

(** [RulesToMap]; [None] when a [RANGE] loop does not end. *)
Definition RulesToMap (crs : list InternalClassRule) : option MapRules :=
  indexRules 0 crs
    {| RulesList := crs;
       SourceRules := ∅; DestinationRules := ∅;
       SourceAnyDestinationRules := ∅; DestinationAnySourceRules := ∅;
       ASOnlySourceRules := ∅; ASOnlyDestRules := ∅;
       ISDOnlySourceRules := ∅; ISDOnlyDestRules := ∅;
       L4OnlyRules := []; InterfaceIncomingRules := ∅ |}.

(** *** L4 and extension matching *)

(** The inner loop of [matchRuleL4ExtensionType] for the entry [pm] of the
    rule: [for k := 0; k < len(extensions); k++]. *)
Fixpoint matchExtension (pm : ProtocolMatchType)
    (extensions : list common.ExtnType) : bool :=
  match extensions with
  | [] => false
  | e :: rest =>
      if (uint8 (extension pm) =? common.Type_ e)
         && (baseProtocol pm =? common.Class_ e)
      then true
      else matchExtension pm rest
  end.

(** The outer loop of [matchRuleL4ExtensionType]:
    [for i := 0; i < len(rule.L4Type); i++]. *)
Fixpoint matchAnyEntry (l4 : list ProtocolMatchType)
    (extensions : list common.ExtnType) : bool :=
  match l4 with
  | [] => false
  | pm :: rest =>
      if extension pm =? -1 then true
      else if matchExtension pm extensions then true
      else matchAnyEntry rest extensions
  end.

Definition matchRuleL4ExtensionType (rule : InternalClassRule)
    (extensions : list common.ExtnType) : bool :=
  matchAnyEntry (L4Type rule) extensions.

(** The loop over [j] in [matchL4Type] for the rule [rule], from the entries
    [l4] of its [L4Type] on: whether [mask[i] = true] is executed. *)
Fixpoint matchBaseProtocol (rule : InternalClassRule)
    (l4 : list ProtocolMatchType) (l4t : Z)
    (extensions : list common.ExtnType) : bool :=
  match l4 with
  | [] => false
  | pm :: rest =>
      if baseProtocol pm =? l4t then
        if matchRuleL4ExtensionType rule extensions then true
        else matchBaseProtocol rule rest l4t extensions
      else matchBaseProtocol rule rest l4t extensions
  end.

Definition acceptsL4 (rule : InternalClassRule) (l4t : Z)
    (extensions : list common.ExtnType) : bool :=
  matchBaseProtocol rule (L4Type rule) l4t extensions.

(** The loop over [i] in [matchL4Type], from position [i] on, [lst] being
    the rest of the slice from there. *)
Fixpoint matchL4Type_from (mask : list bool) (i : nat) (lst : list RulePtr)
    (l4t : Z) (extensions : list common.ExtnType) : result (list bool) :=
  match lst with
  | [] => Ok mask
  | nilPtr :: _ => Ok mask
  | ptrTo _ rule :: rest =>
      if acceptsL4 rule l4t extensions then
        if decide (i < length mask)%nat then
          matchL4Type_from (<[i := true]> mask) (S i) rest l4t extensions
        else Panic IndexOutOfRange
      else matchL4Type_from mask (S i) rest l4t extensions
  end.

(** [matchL4Type]: the mask is cleared, then set at the positions of the
    rules of [list] that match.  The result is the mask as the call leaves
    it. *)
Definition matchL4Type (mask : list bool) (lst : list RulePtr) (l4t : Z)
    (extensions : list common.ExtnType) : result (list bool) :=
  matchL4Type_from (replicate (length mask) false) 0 lst l4t extensions.

(** *** Selection by priority *)

(** The loop of [getRuleWithPrevMax] from position [i] on. *)
Fixpoint getRuleWithPrevMax_from (returnRule : RulePtr) (mask : list bool)
    (i : nat) (lst : list RulePtr) (prevMax : Z) : result (Z * RulePtr) :=
  match lst with
  | [] => Ok (prevMax, returnRule)
  | p :: rest =>
      match mask !! i with
      | None => Panic IndexOutOfRange
      | Some false => Ok (prevMax, returnRule)
      | Some true =>
          match p with
          | nilPtr => Panic NilDereference
          | ptrTo _ r =>
              if prevMax <? Priority r then
                getRuleWithPrevMax_from p mask (S i) rest (Priority r)
              else getRuleWithPrevMax_from returnRule mask (S i) rest prevMax
          end
      end
  end.

(** [getRuleWithPrevMax]; the early return for [list == nil] is the loop
    over no element. *)
Definition getRuleWithPrevMax (returnRule : RulePtr) (mask : list bool)
    (lst : list RulePtr) (prevMax : Z) : result (Z * RulePtr) :=
  getRuleWithPrevMax_from returnRule mask 0 lst prevMax.

(** *** Intersection of the source and destination candidates *)

(** A loop whose body may panic, over the elements of a slice. *)
Fixpoint forEach {S X : Type} (xs : list X) (body : S → X → result S) (s : S)
  : result S :=
  match xs with
  | [] => Ok s
  | x :: rest => s' ← body s x; forEach rest body s'
  end.

(** The innermost statement of [intersectListsRules] on the state
    [(matches, k)]:
    [if a[l][i] == b[m][j] { matches[k] = a[l][i]; k++ }].
    The two tests [a[l] == nil] and [b[m] == nil] before it never fire:
    the statement is inside loops bounded by [len(a[l])] and [len(b[m])]. *)
Definition intersectStep (st : list RulePtr * nat) (ai bj : RulePtr)
  : result (list RulePtr * nat) :=
  let '(matches, k) := st in
  if ptr_eqb ai bj then
    if decide (k < length matches)%nat then Ok (<[k := ai]> matches, S k)
    else Panic IndexOutOfRange
  else Ok (matches, k).

(** [intersectListsRules]; the arrays [a] and [b] of three slices are
    triples. *)
Definition intersectListsRules
    (a b : list RulePtr * list RulePtr * list RulePtr)
  : result (list RulePtr) :=
  let '(a0, a1, a2) := a in
  let '(b0, b1, b2) := b in
  st ← forEach [a0; a1; a2] (λ st al,
         forEach [b0; b1; b2] (λ st bm,
           forEach al (λ st ai,
             forEach bm (λ st bj, intersectStep st ai bj) st) st) st)
       (replicate 10 nilPtr, 0%nat);
  Ok st.1.

(** *** The rule cache *)

Record cacheEntry : Set := {
  srcAddress : addr.IA;
  dstAddress : addr.IA;
  l4type : Z;
  intf_ : Z;
}.

Global Instance cacheEntry_eq_dec : EqDecision cacheEntry.
Proof. solve_decision. Defined.

Global Instance cacheEntry_countable : Countable cacheEntry :=
  inj_countable'
    (λ e, (srcAddress e, dstAddress e, l4type e, intf_ e))
    (λ t, {| srcAddress := t.1.1.1; dstAddress := t.1.1.2;
             l4type := t.1.2; intf_ := t.2 |})
    (λ e, match e with Build_cacheEntry _ _ _ _ => eq_refl end).

(** [ClassRuleCache]: the content of its [sync.Map], for one thread of
    control. *)
Module ClassRuleCache.

Abbreviation t := (gmap cacheEntry RulePtr).

Definition Init : t := ∅.

Definition Get (crCache : t) (entry : cacheEntry) : RulePtr :=
  match crCache !! entry with
  | None => nilPtr
  | Some r => r
  end.

Definition Put (crCache : t) (entry : cacheEntry) (rule : RulePtr) : t :=
  <[entry := rule]> crCache.

End ClassRuleCache.

(** *** The two classifiers *)

(** [RegularClassRule] and [CachelessClassRule] declare the same fields. *)
Record ClassRule : Set := {
  maskMatched : list bool;
  maskSad : list bool;
  maskDas : list bool;
  maskLf : list bool;
  maskIntf : list bool;
  extensions : list common.ExtnType;
}.

(** [Init], the same text in both classifiers. *)
Definition Init (noRules : nat) : ClassRule :=
  {| extensions := replicate 255 common.zeroExtn;
     maskMatched := replicate noRules false;
     maskSad := replicate noRules false;
     maskDas := replicate noRules false;
     maskLf := replicate noRules false;
     maskIntf := replicate noRules false |}.

(** The two loops that open [GetRuleForPacket] in both classifiers:
    the types of the hop-by-hop extensions, then those of the end-to-end
    extensions, are appended to [rc.extensions]. *)
Definition appendExtensions (rc : ClassRule) (rp : rpkt.RtrPkt) : ClassRule :=
  {| extensions := extensions rc ++ rpkt.HBHExt rp ++ rpkt.E2EExt rp;
     maskMatched := maskMatched rc;
     maskSad := maskSad rc;
     maskDas := maskDas rc;
     maskLf := maskLf rc;
     maskIntf := maskIntf rc |}.

(** The candidate slices read from the index. *)
Record candidates : Set := {
  sources : list RulePtr * list RulePtr * list RulePtr;
  destinations : list RulePtr * list RulePtr * list RulePtr;
  sourceAnyDestinationMatches : list RulePtr;
  destinationAnySourceRules : list RulePtr;
  interfaceIncomingRules : list RulePtr;
  l4OnlyRules : list RulePtr;
}.

(** The lookups of [GetRuleForPacket], the same text in both classifiers,
    from [exactAndRangeSourceMatches = config.Rules.SourceRules[srcAddr]]
    to [destinations[2] = isdOnlyDestinationRules]. *)
Definition lookupCandidates (mp : MapRules) (rp : rpkt.RtrPkt) : candidates :=
  let srcAddr := rpkt.SrcIA rp in
  let dstAddr := rpkt.DstIA rp in
  let intf := uint64 (rpkt.IfID rp) in
  {| sources := (at_key (SourceRules mp) srcAddr,
                 at_key (ASOnlySourceRules mp) (addr.A srcAddr),
                 at_key (ISDOnlySourceRules mp) (addr.I srcAddr));
     destinations := (at_key (DestinationRules mp) dstAddr,
                      at_key (ASOnlyDestRules mp) (addr.A dstAddr),
                      at_key (ISDOnlyDestRules mp) (addr.I dstAddr));
     sourceAnyDestinationMatches := at_key (SourceAnyDestinationRules mp) srcAddr;
     destinationAnySourceRules := at_key (DestinationAnySourceRules mp) dstAddr;
     interfaceIncomingRules := at_key (InterfaceIncomingRules mp) intf;
     l4OnlyRules := L4OnlyRules mp |}.

(** The rest of [GetRuleForPacket] after the lookups, the same text in both
    classifiers: from [matched = intersectListsRules(sources, destinations)]
    to the last call of [getRuleWithPrevMax].  [rc] already holds the
    extensions of the packet. *)
Definition selectRule (c : candidates) (rc : ClassRule) (l4t : Z)
  : result (RulePtr * ClassRule) :=
  let returnRule := emptyRule in
  matched ← intersectListsRules (sources c) (destinations c);
  mMatched ← matchL4Type (maskMatched rc) matched l4t (extensions rc);
  mSad ← matchL4Type (maskSad rc) (sourceAnyDestinationMatches c) l4t
           (extensions rc);
  mDas ← matchL4Type (maskDas rc) (destinationAnySourceRules c) l4t
           (extensions rc);
  mLf ← matchL4Type (maskLf rc) (l4OnlyRules c) l4t (extensions rc);
  mIntf ← matchL4Type (maskIntf rc) (interfaceIncomingRules c) l4t
            (extensions rc);
  let max := -1 in
  '(max, returnRule) ← getRuleWithPrevMax returnRule mMatched matched max;
  '(max, returnRule) ← getRuleWithPrevMax returnRule mSad
                         (sourceAnyDestinationMatches c) max;
  '(max, returnRule) ← getRuleWithPrevMax returnRule mDas
                         (destinationAnySourceRules c) max;
  '(max, returnRule) ← getRuleWithPrevMax returnRule mIntf
                         (interfaceIncomingRules c) max;
  '(_, returnRule) ← getRuleWithPrevMax returnRule mLf (l4OnlyRules c) max;
  Ok (returnRule,
      {| extensions := extensions rc;
         maskMatched := mMatched; maskSad := mSad; maskDas := mDas;
         maskLf := mLf; maskIntf := mIntf |}).

(** Full classification against the index. *)
Definition fullMatch (mp : MapRules) (rc : ClassRule) (rp : rpkt.RtrPkt)
  : result (RulePtr * ClassRule) :=
  selectRule (lookupCandidates mp rp) rc (rpkt.L4Type rp).

Module CachelessClassRule.

Definition GetRuleForPacket (mp : MapRules) (rc : ClassRule) (rp : rpkt.RtrPkt)
  : result (RulePtr * ClassRule) :=
  fullMatch mp (appendExtensions rc rp) rp.

End CachelessClassRule.

Module RegularClassRule.

Definition entryOf (rp : rpkt.RtrPkt) : cacheEntry :=
  {| srcAddress := rpkt.SrcIA rp; dstAddress := rpkt.DstIA rp;
     intf_ := uint64 (rpkt.IfID rp); l4type := rpkt.L4Type rp |}.

(** Whether [GetRuleForPacket] returns from the cache: the cached pointer
    is not nil and its rule passes [matchRuleL4ExtensionType]. *)
Definition cacheHit (cached : RulePtr) (extensions : list common.ExtnType)
  : bool :=
  match cached with
  | nilPtr => false
  | ptrTo _ r => matchRuleL4ExtensionType r extensions
  end.

Definition GetRuleForPacket (mp : MapRules) (crCache : ClassRuleCache.t)
    (rc : ClassRule) (rp : rpkt.RtrPkt)
  : result (RulePtr * ClassRule * ClassRuleCache.t) :=
  let rc := appendExtensions rc rp in
  let entry := entryOf rp in
  let returnRule := ClassRuleCache.Get crCache entry in
  if cacheHit returnRule (extensions rc) then Ok (returnRule, rc, crCache)
  else
    '(returnRule, rc) ← fullMatch mp rc rp;
    Ok (returnRule, rc, ClassRuleCache.Put crCache entry returnRule).

End RegularClassRule.

(** *** Conversion of the configured rules *)

(** Go's [error] values that the conversion can return: those made by
    [common.NewBasicError(msg, nil, key, val)] and those handed back by a
    collaborator. *)
Inductive error : Set :=
  | BasicError (msg : string) (key : string) (val : Z)
  | ForeignError (descr : string).

(** A Go result pair [(A, error)]: the value when the error is nil. *)
Inductive fallible (A : Type) : Type :=
  | Value (a : A)
  | Failure (err : error).

Arguments Value {A} a.
Arguments Failure {A} err.

(** [strings.Split(s, sep)] for a non-empty [sep]: [s] is cut at every
    occurrence of [sep], found from left to right without overlap.
    [skip] counts the characters of an occurrence still to be passed over,
    [cur] holds the piece being read, last character first. *)
Fixpoint splitFrom (sep : string) (s : string) (skip : nat) (cur : string)
  : list string :=
  match s with
  | EmptyString => [String.rev cur]
  | String c rest =>
      match skip with
      | S n => splitFrom sep rest n cur
      | O =>
          if String.prefix sep s then
            String.rev cur :: splitFrom sep rest (String.length sep - 1) ""
          else splitFrom sep rest 0 (String c cur)
      end
  end.

Definition Split (s sep : string) : list string := splitFrom sep s 0 "".

(** [matchMode(matchModeField)] when it is one of the declared values. *)
Definition matchMode_of_code (code : Z) : option matchMode :=
  match code with
  | 0 => Some EXACT
  | 1 => Some ISDONLY
  | 2 => Some ASONLY
  | 3 => Some RANGE
  | 4 => Some ANY
  | 5 => Some INTF
  | _ => None
  end.

Section Conversion.

(** [addr.IAFromString] and [strconv.ParseInt(s, 0, 64)] are collaborators;
    the conversion is stated for any behaviour of theirs.  [ParseInt]
    returns a number also when it returns an error. *)
Variable IAFromString : string → fallible addr.IA.
Variable ParseInt : string → Z * option error.

Definition getMatchRuleTypeFromRule (cr : conf.ExternalClassRule)
    (matchModeField : Z) (matchRuleField : string) : fallible matchRule :=
  match matchMode_of_code matchModeField with
  | Some ((EXACT | ASONLY | ISDONLY | ANY) as mode) =>
      match IAFromString matchRuleField with
      | Failure err => Failure err
      | Value IA =>
          Value {| IA := IA; lowLim := addr.zero; upLim := addr.zero;
                   intf := 0; matchMode_ := mode |}
      end
  | Some RANGE =>
      match Split matchRuleField "||" with
      | [part0; part1] =>
          match IAFromString part0 with
          | Failure err => Failure err
          | Value lowLim =>
              match IAFromString part1 with
              | Failure err => Failure err
              | Value upLim =>
                  Value {| IA := addr.zero; lowLim := lowLim; upLim := upLim;
                           intf := 0; matchMode_ := RANGE |}
              end
          end
      | _ => Failure (BasicError "Invalid Class" "raw" matchModeField)
      end
  | Some INTF =>
      let '(intf, _) := ParseInt matchRuleField in
      Value {| IA := addr.zero; intf := uint64 intf;
               lowLim := addr.zero; upLim := addr.zero; matchMode_ := INTF |}
  | None =>
      Failure (BasicError "Invalid matchMode declared" "matchMode"
                 matchModeField)
  end.

Definition ConvClassRuleToInternal (cr : conf.ExternalClassRule)
  : fallible InternalClassRule :=
  match getMatchRuleTypeFromRule cr (conf.SourceMatchMode cr)
          (conf.SourceAs cr) with
  | Failure err => Failure err
  | Value sourceMatch =>
      match getMatchRuleTypeFromRule cr (conf.DestinationMatchMode cr)
              (conf.DestinationAs cr) with
      | Failure err => Failure err
      | Value destinationMatch =>
          let l4t :=
            map (λ l4pt, {| baseProtocol := uint8 (conf.BaseProtocol l4pt);
                            extension := conf.Extension l4pt |})
                (conf.L4Type cr) in
          Value {| Name := conf.Name cr;
                   Priority := conf.Priority cr;
                   SourceAs := sourceMatch;
                   DestinationAs := destinationMatch;
                   L4Type := l4t;
                   QueueNumber := conf.QueueNumber cr |}
      end
  end.

End Conversion.

End Rules.

(** ** Packet queues *)

Module Queues.

(** Modelled from the spec: the declaration of [conf.PoliceAction] is not
    part of the sources at hand; the design document lists its members as
    PASS, DROP, DROPNOTIFY and MARK. *)
Inductive PoliceAction : Set :=
  | PASS
  | DROP
  | DROPNOTIFY
  | MARK.

(** One entry of [PacketQueue.Profile] ([conf.ActionProfile]). *)
Record ActionProfile : Set := {
  FillLevel : Z;
  Prob : Z;
  Action : PoliceAction;
}.

(** The queue descriptor [PacketQueue]; only the fields the queue code
    reads are kept. *)
Record PacketQueue : Set := {
  ID : Z;
  MaxLength : Z;
  PoliceRate : Z;
  Profile : list ActionProfile;
}.

(** A queued packet handle ([*QPkt]); the queues never look inside. *)
Definition QPkt : Set := Z.

(** *** [float64] arithmetic of [GetFillLevel] *)

(** Go's [float64(n)] for an [int] [n]: rounding to nearest even. *)
Definition float64_of_int (n : Z) : float :=
  match n with
  | Z0 => PrimFloat.zero
  | _ => SF2Prim (binary_normalize prec emax n 0 false)
  end.

(** Go's [int(f)] for a [float64] [f]: truncation toward zero; for NaN and
    the infinities the amd64 conversion yields the least [int64]. *)
Definition int_of_float64 (f : float) : Z :=
  match Prim2SF f with
  | S754_zero _ => 0
  | S754_finite s m e =>
      let v := if 0 <=? e then Z.pos m * 2 ^ e else Z.pos m / 2 ^ (- e) in
      if s then - v else v
  | S754_infinity _ | S754_nan => - 2 ^ 63
  end.

(** [int(float64(len) / float64(MaxLength) * 100)] *)
Definition fillLevel (len maxLength : Z) : Z :=
  int_of_float64
    (PrimFloat.mul
       (PrimFloat.div (float64_of_int len) (float64_of_int maxLength))
       (float64_of_int 100)).

(** Go's [int] has 64 bits here: the value of an [int] expression is its
    mathematical value wrapped into the range from [-2^63] to [2^63 - 1]. *)
Definition wrapInt (x : Z) : Z := (x + 2 ^ 63) mod 2 ^ 64 - 2 ^ 63.

(** *** The random source

    [rand.Intn(n)] reads the process-wide generator.  The generator is a
    stream of draws and a position in it; every call consumes one draw and
    reduces it to the range from 0 to [n - 1]. *)
Record Rand : Type := {
  draws : nat → Z;
  pos : nat;
}.

Definition Intn (n : Z) (r : Rand) : Z * Rand :=
  (draws r (pos r) mod n, {| draws := draws r; pos := S (pos r) |}).

(** The loop of [CheckAction], shared verbatim by both queue variants:
    [for j := len(Profile) - 1; j >= 0; j-- { ... }; return conf.PASS].
    [revProfile] is the profile from its last entry to its first. *)
Fixpoint scanProfile (level : Z) (revProfile : list ActionProfile) (r : Rand)
  : PoliceAction * Rand :=
  match revProfile with
  | [] => (PASS, r)
  | e :: rest =>
      if FillLevel e <=? level then
        let '(x, r') := Intn 100 r in
        if x <? Prob e then (Action e, r') else scanProfile level rest r'
      else scanProfile level rest r
  end.

(** *** [ChannelPacketQueue] *)
Module Channel.

(** A buffered Go channel of [*QPkt]: its capacity and its content, oldest
    element first. *)
Record chan : Set := {
  cap : Z;
  buf : list QPkt;
}.

Record ChannelPacketQueue : Set := {
  pktQue : PacketQueue;
  queue : chan;
}.

(** The greatest size that [make] accepts for a channel of pointers: the
    runtime's [makechan] refuses a buffer of more than
    [maxAlloc - hchanSize] bytes, which on amd64 is [2^48 - 96], at eight
    bytes an element.  A machine with less memory than that ends the
    program at a smaller size; the statements below take a queue that
    [InitQueue] has returned and do not depend on the limit. *)
Definition maxChanSize : Z := (2 ^ 48 - 96) / 8.

(** [make(chan *QPkt, size)]: a panic for a negative size and for a size
    out of range ([None]), else an empty channel with [size] slots. *)
Definition makeChan (size : Z) : option chan :=
  if (size <? 0) || (maxChanSize <? size) then None
  else Some {| cap := size; buf := [] |}.

(** [InitQueue]: the size [pq.pktQue.MaxLength+1] is an [int] sum and
    wraps around.  The token bucket and the PID controller that the
    function sets up as well are not read by the queue operations. *)
Definition InitQueue (que : PacketQueue) : option ChannelPacketQueue :=
  queue ← makeChan (wrapInt (MaxLength que + 1));
  Some {| pktQue := que; queue := queue |}.

Definition GetLength (pq : ChannelPacketQueue) : Z :=
  Z.of_nat (length (buf (queue pq))).

Definition GetCapacity (pq : ChannelPacketQueue) : Z :=
  MaxLength (pktQue pq).

Definition GetFillLevel (pq : ChannelPacketQueue) : Z :=
  fillLevel (GetLength pq) (MaxLength (pktQue pq)).

(** [pq.queue <- rp]; a send on a full channel blocks, which for a single
    thread of control means it never returns: [None]. *)
Definition Enqueue (pq : ChannelPacketQueue) (rp : QPkt)
  : option ChannelPacketQueue :=
  if GetLength pq <? cap (queue pq) then
    Some {| pktQue := pktQue pq;
            queue := {| cap := cap (queue pq);
                        buf := buf (queue pq) ++ [rp] |} |}
  else None.

Definition canEnqueue (pq : ChannelPacketQueue) : bool :=
  GetLength pq <? MaxLength (pktQue pq).

(** [select { case pkt = <-pq.queue: default: pkt = nil }] *)
Definition Pop (pq : ChannelPacketQueue) : option QPkt * ChannelPacketQueue :=
  match buf (queue pq) with
  | [] => (None, pq)
  | p :: rest =>
      (Some p, {| pktQue := pktQue pq;
                  queue := {| cap := cap (queue pq); buf := rest |} |})
  end.

(** The loop of [PopMultiple], [for i := 0; i < number; i++ { pkts[i] =
    <-pq.queue }], with [n] receives to go: a receive from an empty channel
    blocks, which for a single thread of control means that the call never
    returns ([None]). *)
Fixpoint receive (n : nat) (buf : list QPkt) : option (list QPkt * list QPkt) :=
  match n with
  | O => Some ([], buf)
  | S n' =>
      match buf with
      | [] => None
      | p :: rest => '(pkts, buf') ← receive n' rest; Some (p :: pkts, buf')
      end
  end.

(** What a call of [PopMultiple] comes to: it returns the packets and
    leaves the queue, it blocks in a receive, or [make] panics. *)
Inductive popOutcome : Set :=
  | Returns (pkts : list QPkt) (pq : ChannelPacketQueue)
  | Blocks
  | MakePanics.

(** [PopMultiple]: [make([]*QPkt, number)] panics for a negative [number];
    then [number] receives fill the slice. *)
Definition PopMultiple (pq : ChannelPacketQueue) (number : Z) : popOutcome :=
  if number <? 0 then MakePanics
  else
    match receive (Z.to_nat number) (buf (queue pq)) with
    | Some (pkts, buf') =>
        Returns pkts {| pktQue := pktQue pq;
                        queue := {| cap := cap (queue pq); buf := buf' |} |}
    | None => Blocks
    end.

Definition CheckAction (pq : ChannelPacketQueue) (r : Rand)
  : PoliceAction * Rand :=
  if MaxLength (pktQue pq) <=? GetLength pq then (DROPNOTIFY, r)
  else scanProfile (GetFillLevel pq) (rev (Profile (pktQue pq))) r.

End Channel.

(** *** [PacketBufQueue] *)
Module Buf.

(** Modelled from the spec: [ringbuf.Ring] of [go/lib/ringbuf] is not part
    of the sources at hand.  The design document describes the queue as a
    bounded FIFO of packet handles with capacity [maxLength]; the ring is
    that: a capacity fixed by [ringbuf.New] and the entries written and not
    yet read, oldest first.  [Readable] is their number. *)
Record Ring : Set := {
  size : Z;
  entries : list QPkt;
}.

Definition Readable (rb : Ring) : Z := Z.of_nat (length (entries rb)).

Record PacketBufQueue : Set := {
  pktQue : PacketQueue;
  bufQueue : Ring;
}.

Definition GetLength (pq : PacketBufQueue) : Z := Readable (bufQueue pq).

Definition GetCapacity (pq : PacketBufQueue) : Z := MaxLength (pktQue pq).

Definition GetFillLevel (pq : PacketBufQueue) : Z :=
  fillLevel (GetLength pq) (MaxLength (pktQue pq)).

Definition CheckAction (pq : PacketBufQueue) (r : Rand)
  : PoliceAction * Rand :=
  scanProfile (GetFillLevel pq) (rev (Profile (pktQue pq))) r.

End Buf.

End Queues.


(** ** Statements about the packet queues *)

Module QueueSpec.
Import Queues.

(** The admission step of the dispatcher: [CheckAction], and [Enqueue] only
    when the verdict is [PASS]; and the drain step [Pop]. *)
Inductive op : Set :=
  | Admit (p : QPkt)
  | Drain.

Definition step (st : Channel.ChannelPacketQueue * Rand) (o : op)
  : option (Channel.ChannelPacketQueue * Rand) :=
  let '(pq, r) := st in
  match o with
  | Admit p =>
      let '(a, r') := Channel.CheckAction pq r in
      match a with
      | PASS => pq' ← Channel.Enqueue pq p; Some (pq', r')
      | _ => Some (pq, r')
      end
  | Drain => Some ((Channel.Pop pq).2, r)
  end.

Fixpoint run (st : Channel.ChannelPacketQueue * Rand) (ops : list op)
  : option (Channel.ChannelPacketQueue * Rand) :=
  match ops with
  | [] => Some st
  | o :: rest => st' ← step st o; run st' rest
  end.

(** The invariant carried along a run: the descriptor is the configured
    one, the channel has one slot more than [MaxLength], and the content
    fits in [MaxLength]. *)
Definition queue_inv (que : PacketQueue) (pq : Channel.ChannelPacketQueue)
  : Prop :=
  Channel.pktQue pq = que ∧
  Channel.cap (Channel.queue pq) = MaxLength que + 1 ∧
  0 ≤ Channel.GetLength pq ≤ MaxLength que.

(** Workers that interleave.  Every worker calls [CheckAction] and, when
    the verdict is [PASS], [Enqueue]; between the two calls other workers
    may run.  An event is one call; [passes] counts the workers that hold
    a [PASS] verdict and have not enqueued yet, so that a [Send] is an
    enqueue after an admission check that returned [PASS].  A [Send]
    without such a verdict is not a schedule of the workers, and a [Send]
    on a full channel blocks until a later receive: neither reaches a state
    ([None]). *)
Inductive event : Set :=
  | Check
  | Send (p : QPkt)
  | Receive.

Record shared : Type := {
  sharedQueue : Channel.ChannelPacketQueue;
  sharedRand : Rand;
  passes : nat;
}.

Definition stepEvent (s : shared) (e : event) : option shared :=
  match e with
  | Check =>
      let '(a, r') := Channel.CheckAction (sharedQueue s) (sharedRand s) in
      Some {| sharedQueue := sharedQueue s; sharedRand := r';
              passes := match a with
                        | PASS => S (passes s)
                        | _ => passes s
                        end |}
  | Send p =>
      match passes s with
      | O => None
      | S n =>
          pq' ← Channel.Enqueue (sharedQueue s) p;
          Some {| sharedQueue := pq'; sharedRand := sharedRand s;
                  passes := n |}
      end
  | Receive =>
      Some {| sharedQueue := (Channel.Pop (sharedQueue s)).2;
              sharedRand := sharedRand s; passes := passes s |}
  end.

Fixpoint runEvents (s : shared) (evs : list event) : option shared :=
  match evs with
  | [] => Some s
  | e :: rest => s' ← stepEvent s e; runEvents s' rest
  end.

(** The invariant of interleaved workers: the descriptor is the configured
    one and the content fits the [MaxLength + 1] slots of the channel. *)
Definition shared_inv (que : PacketQueue) (pq : Channel.ChannelPacketQueue)
  : Prop :=
  Channel.pktQue pq = que ∧
  Channel.cap (Channel.queue pq) = MaxLength que + 1 ∧
  0 ≤ Channel.GetLength pq ≤ MaxLength que + 1.

Definition sampleQueue : PacketQueue :=
  {| ID := 1; MaxLength := 2; PoliceRate := 0;
     Profile := [ {| FillLevel := 50; Prob := 30; Action := DROP |} ] |}.

Definition sampleRand : Rand := {| draws := λ n, 40 + Z.of_nat n; pos := 0 |}.

(** A descriptor of capacity one without a fill profile, and both queue
    variants holding one packet. *)
Definition fullQueue : PacketQueue :=
  {| ID := 0; MaxLength := 1; PoliceRate := 0; Profile := [] |}.

(** A descriptor with a negative [MaxLength]. *)
Definition negativeQueue : PacketQueue :=
  {| ID := 0; MaxLength := -1; PoliceRate := 0; Profile := [] |}.

Definition fullChannel : Channel.ChannelPacketQueue :=
  {| Channel.pktQue := fullQueue;
     Channel.queue := {| Channel.cap := 2; Channel.buf := [42] |} |}.

(** The channel queue of [fullQueue] after two workers have enqueued. *)
Definition fullChannel2 : Channel.ChannelPacketQueue :=
  {| Channel.pktQue := fullQueue;
     Channel.queue := {| Channel.cap := 2; Channel.buf := [1; 2] |} |}.

Definition fullBuf : Buf.PacketBufQueue :=
  {| Buf.pktQue := fullQueue;
     Buf.bufQueue := {| Buf.size := 1; Buf.entries := [42] |} |}.

(** A run that keeps the packets admitted and the packets popped, each in
    the order of the events. *)
Record trace : Type := {
  now : Channel.ChannelPacketQueue;
  rnd : Rand;
  admitted : list QPkt;
  popped : list QPkt;
}.

Definition stepTraced (t : trace) (o : op) : option trace :=
  match o with
  | Admit p =>
      let '(a, r') := Channel.CheckAction (now t) (rnd t) in
      match a with
      | PASS =>
          pq' ← Channel.Enqueue (now t) p;
          Some {| now := pq'; rnd := r'; admitted := admitted t ++ [p];
                  popped := popped t |}
      | _ => Some {| now := now t; rnd := r'; admitted := admitted t;
                     popped := popped t |}
      end
  | Drain =>
      match Channel.Pop (now t) with
      | (Some p, pq') =>
          Some {| now := pq'; rnd := rnd t; admitted := admitted t;
                  popped := popped t ++ [p] |}
      | (None, pq') =>
          Some {| now := pq'; rnd := rnd t; admitted := admitted t;
                  popped := popped t |}
      end
  end.

Fixpoint runTraced (t : trace) (ops : list op) : option trace :=
  match ops with
  | [] => Some t
  | o :: rest => t' ← stepTraced t o; runTraced t' rest
  end.

(** The entries of the profile that the scan of [CheckAction] can fire at
    the fill level [level]. *)
Definition eligible (level : Z) (e : ActionProfile) : Prop :=
  FillLevel e ≤ level ∧ 0 < Prob e.

Definition twoStepProfile : PacketQueue :=
  {| ID := 2; MaxLength := 4; PoliceRate := 0;
     Profile := [ {| FillLevel := 0; Prob := 0; Action := MARK |};
                  {| FillLevel := 50; Prob := 100; Action := DROP |} ] |}.

End QueueSpec.

(** ** Statements about the classifier *)

Module RulesSpec.
Import Rules.

(** The reading of the design document, section 4.2.1: a rule matches the
    packet [(l4, exts)] iff at least one [pm] in its [L4Type] has
    [pm.baseProtocol == l4] and either [pm.extension == -1] or some [e] in
    [exts] has [e.class == pm.baseProtocol] and [e.type == pm.extension]. *)
Definition entryMatches (l4 : Z) (exts : list common.ExtnType)
    (pm : ProtocolMatchType) : Prop :=
  baseProtocol pm = l4 ∧
  (extension pm = -1 ∨
   ∃ e, e ∈ exts ∧ common.Class_ e = baseProtocol pm
                 ∧ common.Type_ e = extension pm).

Definition ruleMatches (rule : InternalClassRule) (l4 : Z)
    (exts : list common.ExtnType) : Prop :=
  ∃ pm, pm ∈ L4Type rule ∧ entryMatches l4 exts pm.

(** What the extension test of the code asks of an entry: the wildcard, or
    an extension of the entry's class whose type is the entry's extension
    cut to eight bits. *)
Definition entryHasExtension (exts : list common.ExtnType)
    (pm : ProtocolMatchType) : Prop :=
  extension pm = -1 ∨
  ∃ e, e ∈ exts ∧ common.Type_ e = uint8 (extension pm)
                 ∧ common.Class_ e = baseProtocol pm.

(** A rule with a TCP entry asking for extension 5 and a UDP wildcard
    entry. *)
Definition twoEntryRule : InternalClassRule :=
  {| Name := "tcp-ext5-or-udp"; Priority := 1;
     SourceAs := zeroMatchRule; DestinationAs := zeroMatchRule;
     L4Type := [ {| baseProtocol := 6; extension := 5 |};
                 {| baseProtocol := 17; extension := -1 |} ];
     QueueNumber := 1 |}.

(** The rules that the source and the destination buckets share, by
    address, in the order in which [intersectListsRules] meets them. *)
Definition matchedPairs (a b : list RulePtr * list RulePtr * list RulePtr)
  : list RulePtr :=
  let '(a0, a1, a2) := a in
  let '(b0, b1, b2) := b in
  al ← [a0; a1; a2]; bm ← [b0; b1; b2]; ai ← al; bj ← bm;
  if ptr_eqb ai bj then [ai] else [].

(** Writing the elements of [new] to [matches[k]], [matches[k+1]], ... one
    after the other. *)
Fixpoint pushAll (st : list RulePtr * nat) (new : list RulePtr)
  : result (list RulePtr * nat) :=
  match new with
  | [] => Ok st
  | x :: rest =>
      st' ← (if decide (st.2 < length st.1)%nat
             then Ok (<[st.2 := x]> st.1, S st.2)
             else Panic IndexOutOfRange);
      pushAll st' rest
  end.

(** An exact rule from [1-1] to [2-2] for TCP, and eleven of them. *)
Definition exactRule (priority : Z) : InternalClassRule :=
  {| Name := "exact"; Priority := priority;
     SourceAs := {| IA := addr.mkIA 1 1; lowLim := addr.zero;
                    upLim := addr.zero; intf := 0; matchMode_ := EXACT |};
     DestinationAs := {| IA := addr.mkIA 2 2; lowLim := addr.zero;
                         upLim := addr.zero; intf := 0; matchMode_ := EXACT |};
     L4Type := [ {| baseProtocol := 6; extension := -1 |} ];
     QueueNumber := 1 |}.

Definition elevenRules : list InternalClassRule :=
  exactRule <$> seqZ 1 11.

Definition tcpPacket (src dst : addr.IA) : rpkt.RtrPkt :=
  {| rpkt.SrcIA := src; rpkt.DstIA := dst; rpkt.IfID := 1;
     rpkt.L4Type := 6; rpkt.HBHExt := []; rpkt.E2EExt := [] |}.

(** Whether [matchL4Type] sets the mask for the pointer [p]. *)
Definition accepted (l4t : Z) (exts : list common.ExtnType) (p : RulePtr)
  : bool :=
  match p with
  | nilPtr => false
  | ptrTo _ r => acceptsL4 r l4t exts
  end.


(** The candidates that [getRuleWithPrevMax] looks at: those before the
    first one that the L4 filter rejects. *)
Fixpoint scanned (l4t : Z) (exts : list common.ExtnType) (lst : list RulePtr)
  : list RulePtr :=
  match lst with
  | [] => []
  | p :: rest =>
      if accepted l4t exts p then p :: scanned l4t exts rest else []
  end.







(** The candidates of all five groups. *)
Definition allCandidates (c : candidates) : list RulePtr :=
  matchedPairs (sources c) (destinations c)
  ++ sourceAnyDestinationMatches c
  ++ destinationAnySourceRules c
  ++ interfaceIncomingRules c
  ++ l4OnlyRules c.

(** What classification may return: the default rule, or one of the
    candidates of the packet, of priority above [-1]. *)
Definition defaultOrNonNegative (c : candidates) (ret : RulePtr) : Prop :=
  ret = emptyRule ∨
  (ret ∈ allCandidates c ∧ ∃ a r, ret = ptrTo a r ∧ -1 < Priority r).

(** The extension types that a packet contributes to the scratch slice. *)
Definition extensionsOf (rp : rpkt.RtrPkt) : list common.ExtnType :=
  rpkt.HBHExt rp ++ rpkt.E2EExt rp.

(** A classifier serving the packets [rps] one after the other. *)
Fixpoint runCacheless (mp : MapRules) (rc : ClassRule) (rps : list rpkt.RtrPkt)
  : result (list RulePtr * ClassRule) :=
  match rps with
  | [] => Ok ([], rc)
  | rp :: rest =>
      '(ret, rc1) ← CachelessClassRule.GetRuleForPacket mp rc rp;
      '(rets, rc2) ← runCacheless mp rc1 rest;
      Ok (ret :: rets, rc2)
  end.

Fixpoint runRegular (mp : MapRules) (crCache : ClassRuleCache.t)
    (rc : ClassRule) (rps : list rpkt.RtrPkt)
  : result (list RulePtr * ClassRule * ClassRuleCache.t) :=
  match rps with
  | [] => Ok ([], rc, crCache)
  | rp :: rest =>
      '(ret, rc1, crCache1) ← RegularClassRule.GetRuleForPacket mp crCache rc rp;
      '(rets, rc2, crCache2) ← runRegular mp crCache1 rc1 rest;
      Ok (ret :: rets, rc2, crCache2)
  end.

(** All five masks of the classifier have length [n]. *)
Definition masksOfLength (n : nat) (rc : ClassRule) : Prop :=
  length (maskMatched rc) = n ∧ length (maskSad rc) = n ∧
  length (maskDas rc) = n ∧ length (maskLf rc) = n ∧
  length (maskIntf rc) = n.

(** A rule for any source and any destination. *)
Definition anyRule (name : string) (priority : Z)
    (l4 : list ProtocolMatchType) : InternalClassRule :=
  {| Name := name; Priority := priority;
     SourceAs := {| IA := addr.zero; lowLim := addr.zero; upLim := addr.zero;
                    intf := 0; matchMode_ := ANY |};
     DestinationAs := {| IA := addr.zero; lowLim := addr.zero;
                         upLim := addr.zero; intf := 0; matchMode_ := ANY |};
     L4Type := l4; QueueNumber := 1 |}.

Definition tcpAny : list ProtocolMatchType :=
  [ {| baseProtocol := 6; extension := -1 |} ].


(** TCP carrying the extension of class 6 and type 7. *)
Definition tcpExt7 : list ProtocolMatchType :=
  [ {| baseProtocol := 6; extension := 7 |} ].

Definition ext7 : common.ExtnType :=
  {| common.Class_ := 6; common.Type_ := 7 |}.

Definition tcpPacketExt7 (src dst : addr.IA) : rpkt.RtrPkt :=
  {| rpkt.SrcIA := src; rpkt.DstIA := dst; rpkt.IfID := 1;
     rpkt.L4Type := 6; rpkt.HBHExt := [ext7]; rpkt.E2EExt := [] |}.

(** The index of a rule list whose [RANGE] loops end; the empty index
    otherwise, which the examples below never meet. *)
Definition indexOf (crs : list InternalClassRule) : MapRules :=
  default (mkMapRules crs ∅ ∅ ∅ ∅ ∅ ∅ ∅ ∅ [] ∅) (RulesToMap crs).



(** Rule sets for the examples. *)
Definition negativeOnly : list InternalClassRule :=
  [ anyRule "tcp-negative" (-5) tcpAny ].


Definition threeTcp : list InternalClassRule :=
  [ anyRule "tcp-low" 2 tcpAny; exactRule 7; anyRule "tcp-high" 5 tcpAny ].

(** Every cached rule is the default rule or a candidate above [-1] of the
    packets with that key. *)
Definition cacheSound (mp : MapRules) (crCache : ClassRuleCache.t) : Prop :=
  ∀ rp r, crCache !! RegularClassRule.entryOf rp = Some r →
          defaultOrNonNegative (lookupCandidates mp rp) r.

(** Rule sets and packets for the examples on extensions and the cache. *)
Definition ext7Only : list InternalClassRule :=
  [ anyRule "tcp-ext7" 1 tcpExt7 ].

Definition tcpAndExt7 : list InternalClassRule :=
  [ anyRule "tcp" 1 tcpAny; anyRule "tcp-ext7" 5 tcpExt7 ].

Definition plainPacket : rpkt.RtrPkt :=
  tcpPacket (addr.mkIA 1 1) (addr.mkIA 2 2).

Definition ext7Packet : rpkt.RtrPkt :=
  tcpPacketExt7 (addr.mkIA 1 1) (addr.mkIA 2 2).

(** The state of a cached classifier with masks of length [n] whose
    extension list starts with [base]: every cached rule is what full
    classification returns for the packets of its key under some extension
    list [exts0] between [base] and the current list. *)
Definition cacheProvenance (mp : MapRules) (n : nat)
    (base : list common.ExtnType) (rc : ClassRule)
    (crCache : ClassRuleCache.t) : Prop :=
  masksOfLength n rc ∧
  base `prefix_of` extensions rc ∧
  ∀ entry r, crCache !! entry = Some r →
    ∃ exts0, base `prefix_of` exts0 ∧ exts0 `prefix_of` extensions rc ∧
      ∀ rp rc0, RegularClassRule.entryOf rp = entry →
        extensions rc0 = exts0 → masksOfLength n rc0 →
        ∃ rc0', fullMatch mp rc0 rp = Ok (r, rc0').

(** The pointers [&crs[k]], numbered from [k] on, to the rules that
    satisfy [P], in the order of the rule list. *)
Fixpoint pointersWhere (P : InternalClassRule → bool) (k : nat)
    (crs : list InternalClassRule) : list RulePtr :=
  match crs with
  | [] => []
  | cr :: rest =>
      (if P cr then [ptrTo (elemAddr k) cr] else [])
      ++ pointersWhere P (S k) rest
  end.

(** Source [ANY], destination not [ANY] and naming [a]. *)
Definition anySourceTo (a : addr.IA) (cr : InternalClassRule) : bool :=
  bool_decide (matchMode_ (SourceAs cr) = ANY ∧
               matchMode_ (DestinationAs cr) ≠ ANY ∧
               IA (DestinationAs cr) = a).

(** Destination [ANY], source not [ANY] and naming [a]. *)
Definition anyDestinationFrom (a : addr.IA) (cr : InternalClassRule) : bool :=
  bool_decide (matchMode_ (DestinationAs cr) = ANY ∧
               matchMode_ (SourceAs cr) ≠ ANY ∧
               IA (SourceAs cr) = a).

(** A rule from any source to exactly [2-2], and one from exactly [1-1] to
    any destination. *)
Definition anyToExact : InternalClassRule :=
  {| Name := "ANY - Exact"; Priority := 6;
     SourceAs := {| IA := addr.zero; lowLim := addr.zero; upLim := addr.zero;
                    intf := 0; matchMode_ := ANY |};
     DestinationAs := {| IA := addr.mkIA 2 2; lowLim := addr.zero;
                         upLim := addr.zero; intf := 0; matchMode_ := EXACT |};
     L4Type := tcpAny; QueueNumber := 6 |}.

Definition exactToAny : InternalClassRule :=
  {| Name := "Exact - ANY"; Priority := 5;
     SourceAs := {| IA := addr.mkIA 1 1; lowLim := addr.zero;
                    upLim := addr.zero; intf := 0; matchMode_ := EXACT |};
     DestinationAs := {| IA := addr.zero; lowLim := addr.zero;
                         upLim := addr.zero; intf := 0; matchMode_ := ANY |};
     L4Type := tcpAny; QueueNumber := 5 |}.

(** An external rule that matches on the ingress interface with a source
    field that is not a number. *)
Definition badIntfRule : conf.ExternalClassRule :=
  {| conf.Name := "bad-intf"; conf.Priority := 1;
     conf.SourceAs := "abc"; conf.SourceMatchMode := 5;
     conf.DestinationAs := "xyz"; conf.DestinationMatchMode := 5;
     conf.L4Type := [ {| conf.BaseProtocol := 6; conf.Extension := -1 |} ];
     conf.QueueNumber := 1 |}.

(** The classifier state after a fresh classifier with two masks entries
    has classified [plainPacket] against [tcpAndExt7]. *)
Definition afterPlainPacket : ClassRule :=
  {| maskMatched := [false; false];
     maskSad := [false; false];
     maskDas := [false; false];
     maskLf := [true; false];
     maskIntf := [false; false];
     extensions := replicate 255 common.zeroExtn |}.

(** The classifier state after [afterPlainPacket] has fully matched
    [ext7Packet] against [tcpAndExt7]. *)
Definition afterExt7Packet : ClassRule :=
  {| maskMatched := [false; false];
     maskSad := [false; false];
     maskDas := [false; false];
     maskLf := [true; true];
     maskIntf := [false; false];
     extensions := replicate 255 common.zeroExtn ++ [ext7] |}.

(** *** What the tables of the index answer *)

(** [a] lies in the rectangle that the two loops of the [RANGE] case
    enumerate between [low] and [up]. *)
Definition inRange (low up a : addr.IA) : bool :=
  bool_decide (uint16 (addr.I low) ≤ addr.I a ≤ uint16 (addr.I up) ∧
               uint64 (addr.A low) ≤ addr.A a ≤ uint64 (addr.A up)).

(** The predicate is [EXACT] and names [a], or is a [RANGE] around [a]. *)
Definition matchesCell (m : matchRule) (a : addr.IA) : bool :=
  match matchMode_ m with
  | EXACT => bool_decide (IA m = a)
  | RANGE => inRange (lowLim m) (upLim m) a
  | _ => false
  end.

(** The predicate is [ASONLY] and names the AS [as_]. *)
Definition matchesAS (m : matchRule) (as_ : Z) : bool :=
  match matchMode_ m with
  | ASONLY => bool_decide (addr.A (IA m) = as_)
  | _ => false
  end.

(** The predicate is [ISDONLY] and names the ISD [isd]. *)
Definition matchesISD (m : matchRule) (isd : Z) : bool :=
  match matchMode_ m with
  | ISDONLY => bool_decide (addr.I (IA m) = isd)
  | _ => false
  end.

(** The predicate is [INTF] and names the interface [ifid]. *)
Definition matchesIntf (m : matchRule) (ifid : Z) : bool :=
  match matchMode_ m with
  | INTF => bool_decide (intf m = ifid)
  | _ => false
  end.

Definition bothAny (cr : InternalClassRule) : bool :=
  bool_decide (matchMode_ (SourceAs cr) = ANY ∧
               matchMode_ (DestinationAs cr) = ANY).

(** A [RANGE] between [low] and [up] whose loops never end: the loop over
    the ISD is entered and its upper limit is the greatest [uint16], or the
    loop over the AS is entered and its upper limit is the greatest
    [uint64]. *)
Definition rangeLoops (low up : addr.IA) : Prop :=
  uint16 (addr.I low) ≤ uint16 (addr.I up) ∧
  (uint16 (addr.I up) = 2 ^ 16 - 1 ∨
   (uint64 (addr.A low) ≤ uint64 (addr.A up) ∧
    uint64 (addr.A up) = 2 ^ 64 - 1)).

Definition hasEndlessRange (cr : InternalClassRule) : Prop :=
  (matchMode_ (SourceAs cr) = RANGE ∧
   rangeLoops (lowLim (SourceAs cr)) (upLim (SourceAs cr))) ∨
  (matchMode_ (DestinationAs cr) = RANGE ∧
   rangeLoops (lowLim (DestinationAs cr)) (upLim (DestinationAs cr))).

(** The predicate [m] answers for the address [a] through one of the three
    buckets that are intersected: exact or range, AS only, ISD only. *)
Definition sideMatches (m : matchRule) (a : addr.IA) : bool :=
  matchesCell m a || matchesAS m (addr.A a) || matchesISD m (addr.I a).

(** The rule is a candidate for the packet in one of the five groups. *)
Definition ruleSelects (cr : InternalClassRule) (rp : rpkt.RtrPkt) : Prop :=
  (sideMatches (SourceAs cr) (rpkt.SrcIA rp) = true ∧
   sideMatches (DestinationAs cr) (rpkt.DstIA rp) = true) ∨
  anyDestinationFrom (rpkt.SrcIA rp) cr = true ∨
  anySourceTo (rpkt.DstIA rp) cr = true ∨
  matchesIntf (SourceAs cr) (uint64 (rpkt.IfID rp)) = true ∨
  bothAny cr = true.

(** Rule sets for the examples on the index. *)
Definition rangeRule : InternalClassRule :=
  {| Name := "RANGE - ISDONLY"; Priority := 4;
     SourceAs := {| IA := addr.zero; lowLim := addr.mkIA 1 10;
                    upLim := addr.mkIA 2 12; intf := 0;
                    matchMode_ := RANGE |};
     DestinationAs := {| IA := addr.mkIA 7 0; lowLim := addr.zero;
                         upLim := addr.zero; intf := 0;
                         matchMode_ := ISDONLY |};
     L4Type := tcpAny; QueueNumber := 4 |}.

Definition intfRule : InternalClassRule :=
  {| Name := "INTF - ASONLY"; Priority := 9;
     SourceAs := {| IA := addr.zero; lowLim := addr.zero; upLim := addr.zero;
                    intf := 77; matchMode_ := INTF |};
     DestinationAs := {| IA := addr.mkIA 0 5; lowLim := addr.zero;
                         upLim := addr.zero; intf := 0;
                         matchMode_ := ASONLY |};
     L4Type := tcpAny; QueueNumber := 9 |}.

Definition mixedRules : list InternalClassRule :=
  [ rangeRule; intfRule; exactRule 3; anyRule "any" 0 tcpAny ].

(** The five masks of [rc2] are as long as those of [rc1]. *)
Definition sameMaskLengths (rc1 rc2 : ClassRule) : Prop :=
  length (maskMatched rc2) = length (maskMatched rc1) ∧
  length (maskSad rc2) = length (maskSad rc1) ∧
  length (maskDas rc2) = length (maskDas rc1) ∧
  length (maskLf rc2) = length (maskLf rc1) ∧
  length (maskIntf rc2) = length (maskIntf rc1).




(** The rules of the list that answer for the packet's source and for its
    destination, in the order of the list. *)
Definition matchingBothSides (crs : list InternalClassRule)
    (rp : rpkt.RtrPkt) : list InternalClassRule :=
  filter (λ cr, sideMatches (SourceAs cr) (rpkt.SrcIA rp) &&
                sideMatches (DestinationAs cr) (rpkt.DstIA rp) = true) crs.

(** A parser of identifiers that accepts ["1-1"] and ["2-2"] only, for the
    examples on the conversion. *)
Definition toyIAFromString (s : string) : fallible addr.IA :=
  if String.eqb s "1-1" then Value (addr.mkIA 1 1)
  else if String.eqb s "2-2" then Value (addr.mkIA 2 2)
  else Failure (ForeignError "invalid ISD-AS").

(** A parser of numbers that accepts ["77"] only. *)
Definition toyParseInt (s : string) : Z * option error :=
  if String.eqb s "77" then (77, None)
  else (0, Some (ForeignError "invalid syntax")).

Definition rangeExternal : conf.ExternalClassRule :=
  {| conf.Name := "range"; conf.Priority := 4;
     conf.SourceAs := "1-1||2-2"; conf.SourceMatchMode := 3;
     conf.DestinationAs := "77"; conf.DestinationMatchMode := 5;
     conf.L4Type := [ {| conf.BaseProtocol := 262; conf.Extension := -1 |} ];
     conf.QueueNumber := 4 |}.

End RulesSpec.

(** ** Proofs *)

Lemma bind_Ok {A B : Type} (m : result A) (f : A → result B) (b : B) :
  m ≫= f = Ok b ↔ ∃ a, m = Ok a ∧ f a = Ok b.
Proof.
  destruct m as [a|w]; simpl; split.
  - intros H. by exists a.
  - by intros (a' & [= <-] & H).
  - done.
  - by intros (a' & ? & _).
Qed.

Module QueueProps.
Import Queues QueueSpec.

Lemma wrapInt_small x : - 2 ^ 63 ≤ x < 2 ^ 63 → wrapInt x = x.
Proof. intros Hx. unfold wrapInt. rewrite Z.mod_small; lia. Qed.

Lemma InitQueue_Some que pq :
  Channel.InitQueue que = Some pq →
  Channel.pktQue pq = que ∧
  Channel.cap (Channel.queue pq) = wrapInt (MaxLength que + 1) ∧
  0 ≤ wrapInt (MaxLength que + 1) ∧
  Channel.buf (Channel.queue pq) = [].
Proof.
  unfold Channel.InitQueue, Channel.makeChan.
  destruct (Z.ltb_spec (wrapInt (MaxLength que + 1)) 0); [done|].
  destruct (_ <? _); simpl; [done|]. by intros [= <-].
Qed.

Lemma InitQueue_cap que pq :
  0 ≤ MaxLength que < 2 ^ 63 → Channel.InitQueue que = Some pq →
  Channel.pktQue pq = que ∧
  Channel.cap (Channel.queue pq) = MaxLength que + 1 ∧
  Channel.buf (Channel.queue pq) = [].
Proof.
  intros Hmax (Hque & Hcap & Hpos & Hbuf)%InitQueue_Some.
  split_and!; [done| |done]. rewrite Hcap.
  destruct (decide (MaxLength que + 1 < 2 ^ 63)) as [Hlt|Hge].
  - apply wrapInt_small. lia.
  - assert (MaxLength que + 1 = 2 ^ 63) as Heq by lia.
    rewrite Heq in Hpos. vm_compute in Hpos. by destruct Hpos.
Qed.

Lemma InitQueue_inv que pq :
  0 ≤ MaxLength que < 2 ^ 63 →
  Channel.InitQueue que = Some pq → queue_inv que pq.
Proof.
  intros Hmax (Hque & Hcap & Hbuf)%InitQueue_cap; [|done].
  unfold queue_inv, Channel.GetLength. rewrite Hbuf. simpl.
  split_and!; [done|done|lia|lia].
Qed.

Lemma CheckAction_PASS_room pq r r' :
  Channel.CheckAction pq r = (PASS, r') →
  Channel.GetLength pq < MaxLength (Channel.pktQue pq).
Proof.
  unfold Channel.CheckAction.
  destruct (Z.leb_spec (MaxLength (Channel.pktQue pq)) (Channel.GetLength pq));
    [discriminate | done].
Qed.

Lemma step_inv que st o :
  queue_inv que st.1 → ∃ st', step st o = Some st' ∧ queue_inv que st'.1.
Proof.
  destruct st as [pq r]. intros (Hque & Hcap & Hlen); simpl in *.
  destruct o as [p|]; simpl.
  - destruct (Channel.CheckAction pq r) as [a r'] eqn:Hchk.
    destruct a; try (eexists; split; [reflexivity|done]).
    apply CheckAction_PASS_room in Hchk. rewrite Hque in Hchk.
    unfold Channel.Enqueue. rewrite Hcap.
    destruct (Z.ltb_spec (Channel.GetLength pq) (MaxLength que + 1)); [|lia].
    simpl. eexists; split; [reflexivity|].
    unfold queue_inv, Channel.GetLength in *; simpl.
    rewrite length_app; simpl. split_and!; [done|done|lia|lia].
  - eexists; split; [reflexivity|].
    unfold Channel.Pop, queue_inv, Channel.GetLength in *.
    destruct (Channel.buf (Channel.queue pq)) as [|p rest] eqn:Hbuf; simpl.
    + rewrite Hbuf. simpl. split_and!; [done|done|lia|lia].
    + simpl in Hlen. split_and!; [done|done|lia|lia].
Qed.

Lemma run_inv que ops : ∀ st,
  queue_inv que st.1 → ∃ st', run st ops = Some st' ∧ queue_inv que st'.1.
Proof.
  induction ops as [|o rest IH]; intros st Hinv; simpl.
  - by exists st.
  - destruct (step_inv que st o Hinv) as (st1 & -> & Hinv1); simpl.
    by apply IH.
Qed.

Lemma stepEvent_inv que s e s' :
  stepEvent s e = Some s' →
  shared_inv que (sharedQueue s) → shared_inv que (sharedQueue s').
Proof.
  intros Hstep (Hque & Hcap & Hlen). destruct e as [|p|]; simpl in Hstep.
  - destruct (Channel.CheckAction _ _) as [a r'].
    by injection Hstep as <-.
  - destruct (passes s) as [|n]; [done|].
    unfold Channel.Enqueue in Hstep. rewrite Hcap in Hstep.
    destruct (Z.ltb_spec (Channel.GetLength (sharedQueue s))
                (MaxLength que + 1)); [|done].
    injection Hstep as <-.
    unfold shared_inv, Channel.GetLength in *; simpl.
    rewrite length_app; simpl. split_and!; [done|done|lia|lia].
  - injection Hstep as <-. simpl.
    unfold Channel.Pop, shared_inv, Channel.GetLength in *.
    destruct (Channel.buf (Channel.queue (sharedQueue s)))
      as [|p rest] eqn:Hbuf; simpl.
    + rewrite Hbuf. simpl. split_and!; [done|done|lia|lia].
    + simpl in Hlen. split_and!; [done|done|lia|lia].
Qed.

Lemma runEvents_inv que evs : ∀ s s',
  runEvents s evs = Some s' →
  shared_inv que (sharedQueue s) → shared_inv que (sharedQueue s').
Proof.
  induction evs as [|e rest IH]; intros s s'; simpl.
  - by intros [= <-].
  - destruct (stepEvent s e) as [s1|] eqn:Hstep; simpl; [|done].
    intros Hrun Hinv. eapply IH; [done|]. by eapply stepEvent_inv.
Qed.

(** C8, as amended.  For a channel queue that [InitQueue] has returned for
    a descriptor whose [MaxLength] is a non-negative [int]:
    when every enqueue directly follows its own admission check that
    returned [PASS], every sequence of such admissions and of pops runs to
    completion and reaches a state with [0 ≤ GetLength ≤ GetCapacity], where
    [GetCapacity] is the configured [MaxLength];
    when the checks and the enqueues of several workers interleave, each
    enqueue still after a check of its own that returned [PASS], every
    state reached has [0 ≤ GetLength ≤ GetCapacity + 1], the number of slots
    of the channel. *)
Theorem queue_length_within_capacity (que : PacketQueue)
    (pq0 : Channel.ChannelPacketQueue) (r : Rand) :
  Channel.InitQueue que = Some pq0 →
  0 ≤ MaxLength que < 2 ^ 63 →
  (∀ ops, ∃ pq r',
     run (pq0, r) ops = Some (pq, r') ∧
     Channel.GetCapacity pq = MaxLength que ∧
     0 ≤ Channel.GetLength pq ≤ Channel.GetCapacity pq) ∧
  (∀ evs s,
     runEvents {| sharedQueue := pq0; sharedRand := r; passes := 0 |} evs
       = Some s →
     Channel.GetCapacity (sharedQueue s) = MaxLength que ∧
     0 ≤ Channel.GetLength (sharedQueue s)
       ≤ Channel.GetCapacity (sharedQueue s) + 1).
Proof.
  intros Hinit Hmax. split.
  - intros ops.
    destruct (run_inv que ops (pq0, r)) as ([pq r'] & Hrun & Hq & _ & Hlen).
    { by apply InitQueue_inv. }
    exists pq, r'. unfold Channel.GetCapacity. simpl in *.
    rewrite Hq. split_and!; (done || lia).
  - intros evs s Hrun.
    destruct (InitQueue_inv que pq0 Hmax Hinit) as (Hque & Hcap & Hlen).
    apply (runEvents_inv que) in Hrun as (Hq & _ & Hlen').
    + unfold Channel.GetCapacity. rewrite Hq. split; [done|lia].
    + simpl. split_and!; [done|done|lia|lia].
Qed.

Lemma queue_length_within_capacity_witness :
  (∃ pq r',
     run ({| Channel.pktQue := sampleQueue;
             Channel.queue := {| Channel.cap := 3; Channel.buf := [] |} |},
          sampleRand) [Admit 7; Admit 8; Admit 9; Drain; Admit 10]
       = Some (pq, r') ∧
     Channel.GetCapacity pq = MaxLength sampleQueue ∧
     0 ≤ Channel.GetLength pq ≤ Channel.GetCapacity pq) ∧
  (Channel.GetCapacity fullChannel2 = MaxLength fullQueue ∧
   0 ≤ Channel.GetLength fullChannel2 ≤ Channel.GetCapacity fullChannel2 + 1).
Proof.
  split.
  - apply (queue_length_within_capacity sampleQueue
             {| Channel.pktQue := sampleQueue;
                Channel.queue := {| Channel.cap := 3; Channel.buf := [] |} |}
             sampleRand).
    + reflexivity.
    + simpl. lia.
  - apply (queue_length_within_capacity fullQueue
             {| Channel.pktQue := fullQueue;
                Channel.queue := {| Channel.cap := 2; Channel.buf := [] |} |}
             sampleRand eq_refl)
      with (evs := [Check; Check; Send 1; Send 2])
           (s := {| sharedQueue := fullChannel2; sharedRand := sampleRand;
                    passes := 0 |}).
    + simpl. lia.
    + reflexivity.
Defined.

(** C8, as it was stated, fails in two ways.  Two workers that both check
    a queue of [MaxLength] 1 while it is empty both get [PASS], and after
    both have enqueued the queue holds two packets.  And a descriptor with
    [MaxLength] -1 is accepted by [InitQueue]: the empty queue it returns
    has length 0 and capacity -1. *)
Lemma queue_length_exceeds_capacity :
  (Channel.InitQueue fullQueue =
     Some {| Channel.pktQue := fullQueue;
             Channel.queue := {| Channel.cap := 2; Channel.buf := [] |} |} ∧
   runEvents {| sharedQueue :=
                  {| Channel.pktQue := fullQueue;
                     Channel.queue := {| Channel.cap := 2;
                                         Channel.buf := [] |} |};
                sharedRand := sampleRand; passes := 0 |}
     [Check; Check; Send 1; Send 2]
     = Some {| sharedQueue := fullChannel2; sharedRand := sampleRand;
               passes := 0 |} ∧
   Channel.GetCapacity fullChannel2 < Channel.GetLength fullChannel2) ∧
  (Channel.InitQueue negativeQueue =
     Some {| Channel.pktQue := negativeQueue;
             Channel.queue := {| Channel.cap := 0; Channel.buf := [] |} |} ∧
   run ({| Channel.pktQue := negativeQueue;
           Channel.queue := {| Channel.cap := 0; Channel.buf := [] |} |},
        sampleRand) []
     = Some ({| Channel.pktQue := negativeQueue;
                Channel.queue := {| Channel.cap := 0; Channel.buf := [] |} |},
             sampleRand) ∧
   Channel.GetCapacity
     {| Channel.pktQue := negativeQueue;
        Channel.queue := {| Channel.cap := 0; Channel.buf := [] |} |}
   < Channel.GetLength
       {| Channel.pktQue := negativeQueue;
          Channel.queue := {| Channel.cap := 0; Channel.buf := [] |} |}).
Proof. split_and!; (reflexivity || (vm_compute; reflexivity)). Qed.

(** Below capacity the two variants decide alike: the same descriptor, the
    same length and the same random draws give the same verdict. *)
Lemma CheckAction_agree_below_capacity
    (cq : Channel.ChannelPacketQueue) (bq : Buf.PacketBufQueue) (r : Rand) :
  Channel.pktQue cq = Buf.pktQue bq →
  Channel.GetLength cq = Buf.GetLength bq →
  Channel.GetLength cq < MaxLength (Channel.pktQue cq) →
  Channel.CheckAction cq r = Buf.CheckAction bq r.
Proof.
  intros Hque Hlen Hroom.
  unfold Channel.CheckAction, Buf.CheckAction,
    Channel.GetFillLevel, Buf.GetFillLevel.
  destruct (Z.leb_spec (MaxLength (Channel.pktQue cq)) (Channel.GetLength cq));
    [lia|].
  by rewrite Hque, Hlen.
Qed.

(** C5. The two variants are not interchangeable at capacity: with the same
    descriptor, both holding [MaxLength] packets, the channel queue refuses
    with [DROPNOTIFY] while the ring-buffer queue, which has no capacity
    test, scans the profile and answers [PASS]. *)
Theorem CheckAction_differs_at_capacity (r : Rand) :
  Channel.pktQue fullChannel = Buf.pktQue fullBuf ∧
  Channel.GetLength fullChannel = Buf.GetLength fullBuf ∧
  MaxLength fullQueue ≤ Buf.GetLength fullBuf ∧
  Channel.CheckAction fullChannel r = (DROPNOTIFY, r) ∧
  Buf.CheckAction fullBuf r = (PASS, r).
Proof. by repeat split. Qed.

(** *** More on the channel queue *)

Lemma stepTraced_fifo t o t' :
  stepTraced t o = Some t' →
  popped t ++ Channel.buf (Channel.queue (now t)) = admitted t →
  popped t' ++ Channel.buf (Channel.queue (now t')) = admitted t'.
Proof.
  destruct o as [p|]; simpl.
  - destruct (Channel.CheckAction (now t) (rnd t)) as [a r'].
    destruct a; try (by intros [= <-]).
    unfold Channel.Enqueue. destruct (_ <? _); simpl; [|done].
    intros [= <-] <-. simpl. by rewrite (assoc (++)).
  - unfold Channel.Pop.
    destruct (Channel.buf (Channel.queue (now t))) as [|p rest] eqn:Hbuf.
    + intros [= <-]. simpl. by rewrite Hbuf.
    + intros [= <-] <-. simpl. by rewrite <- (assoc (++)).
Qed.

Lemma runTraced_fifo ops : ∀ t t',
  runTraced t ops = Some t' →
  popped t ++ Channel.buf (Channel.queue (now t)) = admitted t →
  popped t' ++ Channel.buf (Channel.queue (now t')) = admitted t'.
Proof.
  induction ops as [|o rest IH]; intros t t'; simpl.
  - by intros [= <-].
  - destruct (stepTraced t o) as [t1|] eqn:Hstep; simpl; [|done].
    intros Hrun Hinv. eapply IH; [done|]. by eapply stepTraced_fifo.
Qed.

(** First in, first out.  However admissions and pops are interleaved,
    the packets popped so far followed by the packets still in the channel
    are the packets enqueued so far, in the order of their enqueueing:
    nothing is lost, duplicated or overtaken. *)
Theorem channel_queue_fifo (que : PacketQueue)
    (pq0 : Channel.ChannelPacketQueue) (r : Rand) (ops : list op)
    (t : trace) :
  Channel.InitQueue que = Some pq0 →
  runTraced {| now := pq0; rnd := r; admitted := []; popped := [] |} ops
    = Some t →
  popped t ++ Channel.buf (Channel.queue (now t)) = admitted t.
Proof.
  intros Hinit Hrun. eapply runTraced_fifo; [done|]. simpl.
  by apply InitQueue_Some in Hinit as (_ & _ & _ & ->).
Qed.

Lemma channel_queue_fifo_witness :
  [7] ++ [8; 10] = [7; 8; 10].
Proof.
  apply (channel_queue_fifo sampleQueue
           {| Channel.pktQue := sampleQueue;
              Channel.queue := {| Channel.cap := 3; Channel.buf := [] |} |}
           sampleRand [Admit 7; Admit 8; Admit 9; Drain; Admit 10]
           {| now := {| Channel.pktQue := sampleQueue;
                        Channel.queue := {| Channel.cap := 3;
                                            Channel.buf := [8; 10] |} |};
              rnd := {| draws := draws sampleRand; pos := 2 |};
              admitted := [7; 8; 10]; popped := [7] |}).
  - reflexivity.
  - vm_compute. reflexivity.
Defined.

Lemma receive_spec (n : nat) (buf : list QPkt) :
  Channel.receive n buf =
  if decide (n ≤ length buf)%nat then Some (take n buf, drop n buf) else None.
Proof.
  revert buf. induction n as [|n IH]; intros buf.
  - simpl. by rewrite drop_0.
  - destruct buf as [|p rest].
    + by rewrite decide_False by (simpl; lia).
    + cbn [Channel.receive length]. rewrite IH.
      destruct (decide (n ≤ length rest)%nat).
      * by rewrite decide_True by lia.
      * by rewrite decide_False by lia.
Qed.

(** [PopMultiple] panics for a negative number; for a number up to the
    content of the channel it returns that many packets from the front, in
    order, and leaves the others in the channel; for a greater number it
    blocks. *)
Theorem PopMultiple_outcome (pq : Channel.ChannelPacketQueue) (number : Z) :
  (number < 0 → Channel.PopMultiple pq number = Channel.MakePanics) ∧
  (0 ≤ number ≤ Channel.GetLength pq →
   Channel.PopMultiple pq number =
   Channel.Returns
     (take (Z.to_nat number) (Channel.buf (Channel.queue pq)))
     {| Channel.pktQue := Channel.pktQue pq;
        Channel.queue :=
          {| Channel.cap := Channel.cap (Channel.queue pq);
             Channel.buf := drop (Z.to_nat number)
                              (Channel.buf (Channel.queue pq)) |} |}) ∧
  (Channel.GetLength pq < number →
   Channel.PopMultiple pq number = Channel.Blocks).
Proof.
  unfold Channel.PopMultiple, Channel.GetLength. split_and!.
  - intros Hneg. by destruct (Z.ltb_spec number 0); [|lia].
  - intros [Hpos Hlen]. destruct (Z.ltb_spec number 0); [lia|].
    rewrite receive_spec. by rewrite decide_True by lia.
  - intros Hlen. destruct (Z.ltb_spec number 0); [lia|].
    rewrite receive_spec. by rewrite decide_False by lia.
Qed.

Lemma PopMultiple_outcome_witness :
  Channel.PopMultiple
    {| Channel.pktQue := sampleQueue;
       Channel.queue := {| Channel.cap := 3; Channel.buf := [8; 10] |} |} 1
  = Channel.Returns [8]
      {| Channel.pktQue := sampleQueue;
         Channel.queue := {| Channel.cap := 3; Channel.buf := [10] |} |}.
Proof.
  destruct (PopMultiple_outcome
              {| Channel.pktQue := sampleQueue;
                 Channel.queue := {| Channel.cap := 3;
                                     Channel.buf := [8; 10] |} |} 1)
    as (_ & Hsome & _).
  apply Hsome. unfold Channel.GetLength. simpl. lia.
Defined.

Lemma elem_of_rev {A : Type} (x : A) (l : list A) : x ∈ rev l ↔ x ∈ l.
Proof. rewrite !list_elem_of_In. symmetry. apply in_rev. Qed.

Lemma scanProfile_outcome level prof : ∀ r a r',
  scanProfile level prof r = (a, r') →
  draws r' = draws r ∧
  (pos r ≤ pos r' ≤ pos r + length prof)%nat ∧
  ((a = PASS ∧ ∀ e, e ∈ prof → FillLevel e ≤ level → Prob e < 100) ∨
   ∃ e, e ∈ prof ∧ a = Action e ∧ eligible level e).
Proof.
  induction prof as [|e rest IH]; intros r a r'; simpl.
  - intros [= <- <-]. split_and!; [done|lia|lia|].
    left. split; [done|]. by intros e ?%elem_of_nil.
  - destruct (Z.leb_spec (FillLevel e) level) as [Hlevel|Hlevel].
    + pose proof (Z.mod_pos_bound (draws r (pos r)) 100) as Hdraw.
      destruct (Z.ltb_spec (draws r (pos r) mod 100) (Prob e)) as [Hfire|Hno].
      * intros [= <- <-]. simpl. split_and!; [done|lia|lia|].
        right. exists e. split_and!; [left|done|]. split; lia.
      * intros (Hd & Hp & Hres)%IH. simpl in *. split_and!; [done|lia|lia|].
        destruct Hres as [[-> Hall]|(e' & He' & -> & Hel)].
        -- left. split; [done|]. intros e' [->|He']%elem_of_cons Hl; [lia|].
           by apply Hall.
        -- right. exists e'. split_and!; [by right|done..].
    + intros (Hd & Hp & Hres)%IH. split_and!; [done|lia|lia|].
      destruct Hres as [[-> Hall]|(e' & He' & -> & Hel)].
      * left. split; [done|]. intros e' [->|He']%elem_of_cons Hl; [lia|].
        by apply Hall.
      * right. exists e'. split_and!; [by right|done..].
Qed.

(** What [CheckAction] of the channel queue can answer.  At capacity it is
    [DROPNOTIFY] without a random draw.  Below capacity there is room to
    enqueue, at most one draw is made per profile entry, and the verdict is
    the action of a profile entry whose fill level is reached and whose
    probability is positive, or else [PASS], and [PASS] only if no entry
    whose fill level is reached has probability 100 or more. *)
Theorem CheckAction_outcome (pq : Channel.ChannelPacketQueue) (r : Rand)
    (a : PoliceAction) (r' : Rand) :
  Channel.CheckAction pq r = (a, r') →
  let level := Channel.GetFillLevel pq in
  let prof := Profile (Channel.pktQue pq) in
  (MaxLength (Channel.pktQue pq) ≤ Channel.GetLength pq ∧
   a = DROPNOTIFY ∧ r' = r) ∨
  (Channel.canEnqueue pq = true ∧
   draws r' = draws r ∧ (pos r ≤ pos r' ≤ pos r + length prof)%nat ∧
   ((a = PASS ∧ ∀ e, e ∈ prof → FillLevel e ≤ level → Prob e < 100) ∨
    ∃ e, e ∈ prof ∧ a = Action e ∧ eligible level e)).
Proof.
  unfold Channel.CheckAction, Channel.canEnqueue.
  destruct (Z.leb_spec (MaxLength (Channel.pktQue pq)) (Channel.GetLength pq))
    as [Hfull|Hroom].
  - intros [= <- <-]. by left.
  - intros (Hd & Hp & Hres)%scanProfile_outcome. right.
    rewrite length_rev in Hp.
    split_and!; [by apply Z.ltb_lt|done|lia|lia|].
    destruct Hres as [[-> Hall]|(e & He & -> & Hel)].
    + left. split; [done|]. intros e He. apply Hall. by rewrite elem_of_rev.
    + right. exists e. rewrite elem_of_rev in He. by split_and!.
Qed.

Lemma CheckAction_outcome_witness :
  let pq := {| Channel.pktQue := twoStepProfile;
               Channel.queue := {| Channel.cap := 5;
                                   Channel.buf := [1; 2] |} |} in
  let r' := {| draws := draws sampleRand; pos := 1 |} in
  (MaxLength twoStepProfile ≤ Channel.GetLength pq ∧
   DROP = DROPNOTIFY ∧ r' = sampleRand) ∨
  (Channel.canEnqueue pq = true ∧
   draws r' = draws sampleRand ∧
   (pos sampleRand ≤ pos r' ≤ pos sampleRand
                                + length (Profile twoStepProfile))%nat ∧
   ((DROP = PASS ∧
     ∀ e, e ∈ Profile twoStepProfile →
          FillLevel e ≤ Channel.GetFillLevel pq → Prob e < 100) ∨
    ∃ e, e ∈ Profile twoStepProfile ∧ DROP = Action e ∧
         eligible (Channel.GetFillLevel pq) e)).
Proof.
  apply (CheckAction_outcome
           {| Channel.pktQue := twoStepProfile;
              Channel.queue := {| Channel.cap := 5;
                                  Channel.buf := [1; 2] |} |}
           sampleRand DROP {| draws := draws sampleRand; pos := 1 |}).
  vm_compute. reflexivity.
Defined.


(** What [CheckAction] of the ring-buffer queue can answer, at any length
    of the queue: the action of a profile entry whose fill level is reached
    and whose probability is positive, or else [PASS]; so [DROPNOTIFY] only
    if a profile entry carries that action.  At most one draw is made per
    profile entry. *)
Theorem Buf_CheckAction_outcome (pq : Buf.PacketBufQueue) (r : Rand)
    (a : PoliceAction) (r' : Rand) :
  Buf.CheckAction pq r = (a, r') →
  let level := Buf.GetFillLevel pq in
  let prof := Profile (Buf.pktQue pq) in
  draws r' = draws r ∧ (pos r ≤ pos r' ≤ pos r + length prof)%nat ∧
  ((a = PASS ∧ ∀ e, e ∈ prof → FillLevel e ≤ level → Prob e < 100) ∨
   ∃ e, e ∈ prof ∧ a = Action e ∧ eligible level e) ∧
  (a = DROPNOTIFY → ∃ e, e ∈ prof ∧ Action e = DROPNOTIFY).
Proof.
  unfold Buf.CheckAction.
  intros (Hd & Hp & Hres)%scanProfile_outcome. rewrite length_rev in Hp.
  assert ((a = PASS ∧ ∀ e, e ∈ Profile (Buf.pktQue pq) →
                           FillLevel e ≤ Buf.GetFillLevel pq → Prob e < 100) ∨
          ∃ e, e ∈ Profile (Buf.pktQue pq) ∧ a = Action e ∧
               eligible (Buf.GetFillLevel pq) e) as Hres'.
  { destruct Hres as [[-> Hall]|(e & He & -> & Hel)].
    - left. split; [done|]. intros e He. apply Hall. by rewrite elem_of_rev.
    - right. exists e. rewrite elem_of_rev in He. by split_and!. }
  split_and!; [done|lia|lia|done|].
  intros ->. destruct Hres' as [[? _]|(e & He & Ha & _)]; [done|].
  by exists e.
Qed.

Lemma Buf_CheckAction_outcome_witness :
  let pq := {| Buf.pktQue := twoStepProfile;
               Buf.bufQueue := {| Buf.size := 4;
                                  Buf.entries := [1; 2; 3; 4] |} |} in
  (DROP = PASS ∧
   ∀ e, e ∈ Profile twoStepProfile →
        FillLevel e ≤ Buf.GetFillLevel pq → Prob e < 100) ∨
  ∃ e, e ∈ Profile twoStepProfile ∧ DROP = Action e ∧
       eligible (Buf.GetFillLevel pq) e.
Proof.
  apply (Buf_CheckAction_outcome
           {| Buf.pktQue := twoStepProfile;
              Buf.bufQueue := {| Buf.size := 4;
                                 Buf.entries := [1; 2; 3; 4] |} |}
           sampleRand DROP {| draws := draws sampleRand; pos := 1 |}).
  vm_compute. reflexivity.
Defined.

End QueueProps.

Module RulesProps.
Import Rules RulesSpec.

Lemma matchExtension_true pm exts :
  matchExtension pm exts = true ↔
  ∃ e, e ∈ exts ∧ common.Type_ e = uint8 (extension pm)
                 ∧ common.Class_ e = baseProtocol pm.
Proof.
  induction exts as [|e rest IH]; simpl.
  - split; [done|]. intros (e & He & _). by apply elem_of_nil in He.
  - destruct (Z.eqb_spec (uint8 (extension pm)) (common.Type_ e)) as [Ht|Ht];
      destruct (Z.eqb_spec (baseProtocol pm) (common.Class_ e)) as [Hc|Hc];
      simpl.
    + split; [|done]. intros _. exists e. split; [left|done].
    + rewrite IH. split; intros (e' & He' & Ht' & Hc').
      * exists e'. split; [by right|done].
      * apply elem_of_cons in He' as [->|He']; [congruence|eauto].
    + rewrite IH. split; intros (e' & He' & Ht' & Hc').
      * exists e'. split; [by right|done].
      * apply elem_of_cons in He' as [->|He']; [congruence|eauto].
    + rewrite IH. split; intros (e' & He' & Ht' & Hc').
      * exists e'. split; [by right|done].
      * apply elem_of_cons in He' as [->|He']; [congruence|eauto].
Qed.

Lemma matchAnyEntry_true l4 exts :
  matchAnyEntry l4 exts = true ↔ ∃ pm, pm ∈ l4 ∧ entryHasExtension exts pm.
Proof.
  induction l4 as [|pm rest IH]; simpl.
  - split; [done|]. intros (pm & Hpm & _). by apply elem_of_nil in Hpm.
  - destruct (Z.eqb_spec (extension pm) (-1)) as [Hw|Hw].
    { split; [|done]. intros _. exists pm. split; [left|by left]. }
    destruct (matchExtension pm exts) eqn:Hext.
    { split; [|done]. intros _. exists pm. split; [left|right].
      by apply matchExtension_true. }
    rewrite IH. split; intros (pm' & Hpm' & Hhas).
    + exists pm'. split; [by right|done].
    + apply elem_of_cons in Hpm' as [->|Hpm']; [|eauto].
      destruct Hhas as [?|Hhas]; [done|].
      apply matchExtension_true in Hhas. congruence.
Qed.

Lemma matchBaseProtocol_true rule l4 l4t exts :
  matchBaseProtocol rule l4 l4t exts = true ↔
  (∃ pm, pm ∈ l4 ∧ baseProtocol pm = l4t) ∧
  matchRuleL4ExtensionType rule exts = true.
Proof.
  induction l4 as [|pm rest IH]; simpl.
  - split; [done|]. intros [(pm & Hpm & _) _]. by apply elem_of_nil in Hpm.
  - destruct (Z.eqb_spec (baseProtocol pm) l4t) as [Hb|Hb].
    + destruct (matchRuleL4ExtensionType rule exts) eqn:Hext.
      * split; [|done]. intros _. split; [|done]. exists pm. split; [left|done].
      * rewrite IH. split; intros [_ ?]; done.
    + rewrite IH. split; intros [(pm' & Hpm' & Hb') Hext]; (split; [|done]).
      * exists pm'. split; [by right|done].
      * apply elem_of_cons in Hpm' as [->|Hpm']; [done|eauto].
Qed.

(** What [matchL4Type] tests of a rule: some entry carries the packet's L4
    protocol, and some entry, the same or another, passes the extension
    test. *)
Lemma acceptsL4_true rule l4t exts :
  acceptsL4 rule l4t exts = true ↔
  (∃ pm, pm ∈ L4Type rule ∧ baseProtocol pm = l4t) ∧
  (∃ pm', pm' ∈ L4Type rule ∧ entryHasExtension exts pm').
Proof.
  unfold acceptsL4. rewrite matchBaseProtocol_true.
  unfold matchRuleL4ExtensionType. by rewrite matchAnyEntry_true.
Qed.

(** C1, as the design document states it, does not hold: the rule
    [twoEntryRule] accepts a TCP packet without extensions, through the
    protocol of its first entry and the wildcard of its second, although no
    single entry matches that packet. *)
Lemma acceptsL4_not_entrywise :
  ¬ (∀ rule l4 exts, acceptsL4 rule l4 exts = true ↔ ruleMatches rule l4 exts).
Proof.
  intros H.
  assert (acceptsL4 twoEntryRule 6 [] = true) as Hacc by reflexivity.
  apply H in Hacc as (pm & Hpm & Hb & Hext).
  simpl in Hpm. apply elem_of_cons in Hpm as [->|Hpm].
  - destruct Hext as [Hw|(e & He & _)]; [done|by apply elem_of_nil in He].
  - apply list_elem_of_singleton in Hpm as ->. done.
Qed.

(** C1, amended.  The rule's L4 disjunction accepts the packet [(l4, exts)]
    iff some entry of [rule.L4Type] has [baseProtocol == l4] and some entry
    of [rule.L4Type], not necessarily the same, has [extension == -1] or
    meets an extension of [exts] whose class is the entry's [baseProtocol]
    and whose type is the entry's [extension] cut to eight bits.  A rule
    with an empty [L4Type] accepts no packet. *)
Theorem acceptsL4_iff (rule : InternalClassRule) (l4 : Z)
    (exts : list common.ExtnType) :
  (acceptsL4 rule l4 exts = true ↔
     (∃ pm, pm ∈ L4Type rule ∧ baseProtocol pm = l4) ∧
     (∃ pm', pm' ∈ L4Type rule ∧
        (extension pm' = -1 ∨
         ∃ e, e ∈ exts ∧ common.Class_ e = baseProtocol pm'
                       ∧ common.Type_ e = uint8 (extension pm')))) ∧
  (L4Type rule = [] → acceptsL4 rule l4 exts = false).
Proof.
  split.
  - rewrite acceptsL4_true. unfold entryHasExtension.
    split; intros [Hb (pm' & Hpm' & Hext)]; (split; [done|]);
      exists pm'; (split; [done|]);
      (destruct Hext as [?|(e & ? & ? & ?)]; [by left|right; eauto]).
  - unfold acceptsL4. by intros ->.
Qed.

(** *** [intersectListsRules] *)

Lemma pushAll_app st new1 new2 :
  pushAll st (new1 ++ new2) = st' ← pushAll st new1; pushAll st' new2.
Proof.
  revert st. induction new1 as [|x rest IH]; intros st; simpl; [done|].
  destruct (decide (st.2 < length st.1)%nat); simpl; [apply IH|done].
Qed.

Lemma forEach_pushAll {X : Type} (xs : list X)
    (body : list RulePtr * nat → X → result (list RulePtr * nat))
    (g : X → list RulePtr) :
  (∀ st x, body st x = pushAll st (g x)) →
  ∀ st, forEach xs body st = pushAll st (xs ≫= g).
Proof.
  intros Hbody. induction xs as [|x rest IH]; intros st; simpl; [done|].
  rewrite pushAll_app, Hbody.
  destruct (pushAll st (g x)) as [st'|w]; simpl; [apply IH|done].
Qed.

Lemma intersectStep_pushAll st ai bj :
  intersectStep st ai bj = pushAll st (if ptr_eqb ai bj then [ai] else []).
Proof.
  destruct st as [matches k]. unfold intersectStep.
  destruct (ptr_eqb ai bj); simpl; [|done].
  by destruct (decide (k < length matches)%nat).
Qed.

Lemma pushAll_fresh (new pre : list RulePtr) (n : nat) :
  pushAll (pre ++ replicate n nilPtr, length pre) new =
  if decide (length new ≤ n)%nat
  then Ok (pre ++ new ++ replicate (n - length new) nilPtr,
           (length pre + length new)%nat)
  else Panic IndexOutOfRange.
Proof.
  revert pre n. induction new as [|x rest IH]; intros pre n; simpl.
  - by rewrite Nat.sub_0_r, Nat.add_0_r.
  - rewrite length_app, length_replicate.
    destruct n as [|n]; simpl.
    + by destruct (decide _); [lia|].
    + destruct (decide (length pre < _)%nat); [|lia]. simpl.
      rewrite insert_app_r_alt by lia. rewrite Nat.sub_diag. simpl.
      replace (S (length pre)) with (length (pre ++ [x]))
        by (rewrite length_app; simpl; lia).
      rewrite (cons_middle x pre), (assoc (++)). rewrite IH.
      destruct (decide (length rest ≤ n)%nat).
      * rewrite decide_True by lia.
        rewrite <- (assoc (++)), length_app. simpl. do 2 f_equal. lia.
      * by rewrite decide_False by lia.
Qed.

(** [intersectListsRules] in closed form: the shared rules followed by nil
    up to length 10, and a panic when more than 10 pairs match. *)
Lemma intersectListsRules_closed a b :
  intersectListsRules a b =
  if decide (length (matchedPairs a b) ≤ 10)%nat
  then Ok (matchedPairs a b
             ++ replicate (10 - length (matchedPairs a b)) nilPtr)
  else Panic IndexOutOfRange.
Proof.
  destruct a as [[a0 a1] a2], b as [[b0 b1] b2].
  unfold intersectListsRules, matchedPairs.
  rewrite (forEach_pushAll [a0; a1; a2] _
             (λ al, bm ← [b0; b1; b2]; ai ← al; bj ← bm;
                    if ptr_eqb ai bj then [ai] else [])).
  - rewrite (pushAll_fresh _ [] 10).
    by destruct (decide _).
  - intros st1 al.
    apply (forEach_pushAll [b0; b1; b2] _
             (λ bm, ai ← al; bj ← bm; if ptr_eqb ai bj then [ai] else [])).
    intros st2 bm.
    apply (forEach_pushAll al _
             (λ ai, bj ← bm; if ptr_eqb ai bj then [ai] else [])).
    intros st3 ai.
    apply (forEach_pushAll bm _ (λ bj, if ptr_eqb ai bj then [ai] else [])).
    intros st4 bj. apply intersectStep_pushAll.
Qed.

Lemma elem_of_matchedPairs a b p :
  p ∈ matchedPairs a b ↔
  ∃ al bm bj, al ∈ [a.1.1; a.1.2; a.2] ∧ bm ∈ [b.1.1; b.1.2; b.2] ∧
              p ∈ al ∧ bj ∈ bm ∧ ptr_eqb p bj = true.
Proof.
  destruct a as [[a0 a1] a2], b as [[b0 b1] b2].
  unfold matchedPairs. cbn [fst snd]. cbv beta iota.
  rewrite list_elem_of_bind. split.
  - intros (al & Hp & Hal). apply list_elem_of_bind in Hp as (bm & Hp & Hbm).
    apply list_elem_of_bind in Hp as (ai & Hp & Hai).
    apply list_elem_of_bind in Hp as (bj & Hp & Hbj).
    destruct (ptr_eqb ai bj) eqn:Heq; [|by apply elem_of_nil in Hp].
    apply list_elem_of_singleton in Hp as ->. by exists al, bm, bj.
  - intros (al & bm & bj & Hal & Hbm & Hp & Hbj & Heq).
    exists al. split; [|done]. apply list_elem_of_bind. exists bm. split; [|done].
    apply list_elem_of_bind. exists p. split; [|done].
    apply list_elem_of_bind. exists bj. split; [|done].
    rewrite Heq. by apply list_elem_of_singleton.
Qed.

(** Up to 10 matching pairs, the result holds exactly the rules that occur,
    by address, in a source bucket and in a destination bucket. *)
Lemma intersectListsRules_sound a b matches p :
  intersectListsRules a b = Ok matches →
  p ≠ nilPtr →
  (p ∈ matches ↔
   ∃ al bm bj, al ∈ [a.1.1; a.1.2; a.2] ∧ bm ∈ [b.1.1; b.1.2; b.2] ∧
               p ∈ al ∧ bj ∈ bm ∧ ptr_eqb p bj = true).
Proof.
  rewrite intersectListsRules_closed.
  destruct (decide _); [|done]. intros [= <-] Hnil.
  rewrite <- elem_of_matchedPairs, elem_of_app, elem_of_replicate.
  split; [|by left]. by intros [?|[-> _]].
Qed.

(** C4.  Eleven rules that all name the same exact source and the same
    exact destination are indexed in one source bucket and one destination
    bucket; for a packet between these two, [intersectListsRules] finds
    eleven shared rules, writes past the end of its ten-element result and
    panics, and so does the classification of that packet. *)
Theorem intersectListsRules_eleven_panics :
  let mp := indexOf elevenRules in
  let rp := tcpPacket (addr.mkIA 1 1) (addr.mkIA 2 2) in
  let c := lookupCandidates mp rp in
  RulesToMap elevenRules = Some mp ∧
  length (matchedPairs (sources c) (destinations c)) = 11%nat ∧
  intersectListsRules (sources c) (destinations c) = Panic IndexOutOfRange ∧
  CachelessClassRule.GetRuleForPacket mp (Init 11) rp = Panic IndexOutOfRange.
Proof. vm_compute. by split_and!. Qed.


(** *** [matchL4Type] followed by [getRuleWithPrevMax] *)

Lemma matchL4Type_from_frame lst : ∀ mask i l4t exts m,
  matchL4Type_from mask i lst l4t exts = Ok m →
  length m = length mask ∧ ∀ j, (j < i)%nat → m !! j = mask !! j.
Proof.
  induction lst as [|p rest IH]; intros mask i l4t exts m; simpl.
  - by intros [= <-].
  - destruct p as [|a r]; [by intros [= <-]|].
    destruct (acceptsL4 r l4t exts).
    + destruct (decide (i < length mask)%nat); [|done].
      intros Hm. apply IH in Hm as [Hlen Hm].
      rewrite length_insert in Hlen. split; [done|].
      intros j Hj. rewrite Hm by lia. apply list_lookup_insert_ne. lia.
    + intros Hm. apply IH in Hm as [Hlen Hm]. split; [done|].
      intros j Hj. apply Hm. lia.
Qed.






(** *** What the selection can return *)


Lemma scanned_accepted l4t exts lst p :
  p ∈ scanned l4t exts lst → p ∈ lst ∧ accepted l4t exts p = true.
Proof.
  induction lst as [|q rest IH]; simpl; [by intros ?%elem_of_nil|].
  destruct (accepted l4t exts q) eqn:Hq; [|by intros ?%elem_of_nil].
  intros [->|Hp]%elem_of_cons.
  - split; [left|done].
  - destruct (IH Hp). split; [by right|done].
Qed.




(** Without any assumption on the masks: whatever [getRuleWithPrevMax]
    returns is the rule it was given or a rule of the list above the
    previous maximum. *)
Lemma getRuleWithPrevMax_from_sound lst : ∀ returnRule mask i prevMax max ret,
  getRuleWithPrevMax_from returnRule mask i lst prevMax = Ok (max, ret) →
  prevMax ≤ max ∧
  (ret = returnRule ∨
   (ret ∈ lst ∧ ∃ a r, ret = ptrTo a r ∧ prevMax < Priority r)).
Proof.
  induction lst as [|p rest IH]; intros ret0 mask i max0 max ret; simpl.
  - intros [= <- <-]. split; [lia|by left].
  - destruct (mask !! i) as [[|]|]; [|intros [= <- <-]; split; [lia|by left]|done].
    destruct p as [|a r]; [done|].
    destruct (Z.ltb_spec max0 (Priority r)) as [Hlt|Hge].
    + intros [Hmono Hsel]%IH. split; [lia|]. right.
      destruct Hsel as [->|(Hin & a' & r' & -> & Hlt')].
      * split; [left|]. by exists a, r.
      * split; [by right|]. exists a', r'. split; [done|lia].
    + intros [Hmono Hsel]%IH. split; [done|].
      destruct Hsel as [->|(Hin & Hrest)]; [by left|right].
      split; [by right|done].
Qed.

Lemma matchL4Type_length mask lst l4t exts m :
  matchL4Type mask lst l4t exts = Ok m → length m = length mask.
Proof.
  unfold matchL4Type. intros [-> _]%matchL4Type_from_frame.
  apply length_replicate.
Qed.

(** [selectRule] returns the default rule or a candidate above [-1], and
    leaves the extensions and the lengths of the masks as they were. *)
Lemma selectRule_sound c rc l4t ret rc' :
  selectRule c rc l4t = Ok (ret, rc') →
  defaultOrNonNegative c ret ∧
  extensions rc' = extensions rc ∧
  ∀ n, masksOfLength n rc → masksOfLength n rc'.
Proof.
  unfold selectRule. intros H.
  apply bind_Ok in H as (matched & Hmatched & H).
  apply bind_Ok in H as (m1 & Hm1 & H).
  apply bind_Ok in H as (m2 & Hm2 & H).
  apply bind_Ok in H as (m3 & Hm3 & H).
  apply bind_Ok in H as (m4 & Hm4 & H).
  apply bind_Ok in H as (m5 & Hm5 & H).
  apply bind_Ok in H as ([max1 ret1] & Hg1 & H).
  apply bind_Ok in H as ([max2 ret2] & Hg2 & H).
  apply bind_Ok in H as ([max3 ret3] & Hg3 & H).
  apply bind_Ok in H as ([max4 ret4] & Hg4 & H).
  apply bind_Ok in H as ([max5 ret5] & Hg5 & H).
  injection H as <- <-.
  apply matchL4Type_length in Hm1, Hm2, Hm3, Hm4, Hm5.
  split; [|split; [done|]].
  - rewrite intersectListsRules_closed in Hmatched.
    destruct (decide _); [|done]. injection Hmatched as <-.
    apply getRuleWithPrevMax_from_sound in Hg1 as [Hle1 Hs1].
    apply getRuleWithPrevMax_from_sound in Hg2 as [Hle2 Hs2].
    apply getRuleWithPrevMax_from_sound in Hg3 as [Hle3 Hs3].
    apply getRuleWithPrevMax_from_sound in Hg4 as [Hle4 Hs4].
    apply getRuleWithPrevMax_from_sound in Hg5 as [Hle5 Hs5].
    unfold defaultOrNonNegative, allCandidates. rewrite !elem_of_app.
    destruct Hs5 as [->|(Hin & a & r & -> & Hlt)];
      [|right; split; [tauto|exists a, r; split; [done|lia]]].
    destruct Hs4 as [->|(Hin & a & r & -> & Hlt)];
      [|right; split; [tauto|exists a, r; split; [done|lia]]].
    destruct Hs3 as [->|(Hin & a & r & -> & Hlt)];
      [|right; split; [tauto|exists a, r; split; [done|lia]]].
    destruct Hs2 as [->|(Hin & a & r & -> & Hlt)];
      [|right; split; [tauto|exists a, r; split; [done|lia]]].
    destruct Hs1 as [->|(Hin & a & r & -> & Hlt)]; [by left|].
    right. split; [|exists a, r; split; [done|lia]].
    left. apply elem_of_app in Hin as [Hin|Hin]; [done|].
    by apply elem_of_replicate_inv in Hin.
  - intros n (H1 & H2 & H3 & H4 & H5). unfold masksOfLength. simpl.
    split_and!; congruence.
Qed.

Lemma fullMatch_sound mp rc rp ret rc' :
  fullMatch mp rc rp = Ok (ret, rc') →
  defaultOrNonNegative (lookupCandidates mp rp) ret ∧
  extensions rc' = extensions rc ∧
  ∀ n, masksOfLength n rc → masksOfLength n rc'.
Proof. apply selectRule_sound. Qed.

(** *** The rule of greatest priority *)







(** *** Negative priorities *)

(** The candidates depend on the packet through its cache key only. *)
Lemma lookupCandidates_entryOf mp rp rp' :
  RegularClassRule.entryOf rp = RegularClassRule.entryOf rp' →
  lookupCandidates mp rp = lookupCandidates mp rp'.
Proof.
  unfold RegularClassRule.entryOf, lookupCandidates.
  intros [= Hs Hd _ Hi]. by rewrite Hs, Hd, Hi.
Qed.

Lemma cacheHit_Some crCache entry exts :
  RegularClassRule.cacheHit (ClassRuleCache.Get crCache entry) exts = true →
  crCache !! entry = Some (ClassRuleCache.Get crCache entry).
Proof.
  unfold ClassRuleCache.Get. by destruct (crCache !! entry).
Qed.

Lemma Regular_step_sound mp crCache rc rp ret rc' crCache' :
  cacheSound mp crCache →
  RegularClassRule.GetRuleForPacket mp crCache rc rp = Ok (ret, rc', crCache') →
  defaultOrNonNegative (lookupCandidates mp rp) ret ∧ cacheSound mp crCache'.
Proof.
  intros Hsound. unfold RegularClassRule.GetRuleForPacket.
  destruct (RegularClassRule.cacheHit _ _) eqn:Hhit.
  - intros [= <- <- <-]. split; [|done].
    apply cacheHit_Some in Hhit. by apply Hsound.
  - intros H. apply bind_Ok in H as ([ret1 rc1] & Hfull & H).
    injection H as <- <- <-.
    apply fullMatch_sound in Hfull as (Hret & _). split; [done|].
    intros rp' r. unfold ClassRuleCache.Put.
    destruct (decide (RegularClassRule.entryOf rp
                      = RegularClassRule.entryOf rp')) as [Heq|Hne].
    + rewrite Heq, lookup_insert_eq. intros [= <-].
      by rewrite <- (lookupCandidates_entryOf mp rp rp').
    + rewrite lookup_insert_ne by done. apply Hsound.
Qed.

Lemma runRegular_sound mp rps : ∀ crCache rc rets rc' crCache',
  cacheSound mp crCache →
  runRegular mp crCache rc rps = Ok (rets, rc', crCache') →
  Forall2 (λ rp ret, defaultOrNonNegative (lookupCandidates mp rp) ret)
    rps rets.
Proof.
  induction rps as [|rp rest IH]; intros crCache rc rets rc' crCache' Hsound;
    simpl.
  - intros [= <- <- <-]. constructor.
  - intros H. apply bind_Ok in H as ([[ret rc1] crCache1] & Hstep & H).
    apply bind_Ok in H as ([[rets1 rc2] crCache2] & Hrun & H).
    injection H as <- <- <-.
    apply Regular_step_sound in Hstep as [Hret Hsound1]; [|done].
    constructor; [done|]. by eapply IH.
Qed.

(** C9.  Whatever the rule set and the packet, the rule that the cacheless
    classifier returns, and each rule that the cached classifier returns
    when it serves a sequence of packets from a fresh cache, is the default
    rule or a candidate rule of the packet with priority strictly greater
    than [-1]; and when the only matching rule has priority [-5], the default
    rule is returned. *)
Theorem classification_skips_negative_priority (mp : MapRules) :
  (∀ rc rp ret rc',
     CachelessClassRule.GetRuleForPacket mp rc rp = Ok (ret, rc') →
     defaultOrNonNegative (lookupCandidates mp rp) ret) ∧
  (∀ n rps rets rc' crCache',
     runRegular mp ClassRuleCache.Init (Init n) rps = Ok (rets, rc', crCache') →
     Forall2 (λ rp ret, defaultOrNonNegative (lookupCandidates mp rp) ret)
       rps rets) ∧
  (∃ rc',
     CachelessClassRule.GetRuleForPacket (indexOf negativeOnly) (Init 1)
       (tcpPacket (addr.mkIA 1 1) (addr.mkIA 2 2)) = Ok (emptyRule, rc')).
Proof.
  split_and!.
  - intros rc rp ret rc' H. by apply fullMatch_sound in H as [? _].
  - intros n rps rets rc' crCache'. apply runRegular_sound.
    intros rp r. unfold ClassRuleCache.Init. by rewrite lookup_empty.
  - eexists. vm_compute. reflexivity.
Qed.

Lemma classification_skips_negative_priority_witness :
  let mp := indexOf threeTcp in
  let rp := tcpPacket (addr.mkIA 1 1) (addr.mkIA 2 2) in
  defaultOrNonNegative (lookupCandidates mp rp)
    (ptrTo (elemAddr 1) (exactRule 7)) ∧
  Forall2 (λ rp ret, defaultOrNonNegative (lookupCandidates mp rp) ret)
    [rp; rp]
    [ptrTo (elemAddr 1) (exactRule 7); ptrTo (elemAddr 1) (exactRule 7)].
Proof.
  destruct (classification_skips_negative_priority (indexOf threeTcp))
    as (Hcacheless & Hregular & _).
  split.
  - eapply (Hcacheless (Init 10)). vm_compute. reflexivity.
  - eapply (Hregular 10%nat). vm_compute. reflexivity.
Defined.

(** *** The extension scratch slice *)

Lemma runCacheless_extensions mp rps : ∀ rc rets rc',
  runCacheless mp rc rps = Ok (rets, rc') →
  extensions rc' = extensions rc ++ (rps ≫= extensionsOf).
Proof.
  induction rps as [|rp rest IH]; intros rc rets rc'; csimpl.
  - intros [= <- <-]. by rewrite app_nil_r.
  - intros H. apply bind_Ok in H as ([ret rc1] & Hstep & H).
    apply bind_Ok in H as ([rets1 rc2] & Hrun & H). injection H as <- <-.
    apply fullMatch_sound in Hstep as (_ & Hext & _).
    rewrite (IH _ _ _ Hrun), Hext. unfold extensionsOf. simpl.
    by rewrite <- !(assoc (++)).
Qed.

Lemma Regular_step_extensions mp crCache rc rp ret rc' crCache' :
  RegularClassRule.GetRuleForPacket mp crCache rc rp = Ok (ret, rc', crCache') →
  extensions rc' = extensions rc ++ extensionsOf rp ∧
  ∀ n, masksOfLength n rc → masksOfLength n rc'.
Proof.
  unfold RegularClassRule.GetRuleForPacket.
  destruct (RegularClassRule.cacheHit _ _).
  - by intros [= <- <- <-].
  - intros H. apply bind_Ok in H as ([ret1 rc1] & Hfull & H).
    injection H as <- <- <-.
    by apply fullMatch_sound in Hfull as (_ & -> & Hmasks).
Qed.

Lemma runRegular_extensions mp rps : ∀ crCache rc rets rc' crCache',
  runRegular mp crCache rc rps = Ok (rets, rc', crCache') →
  extensions rc' = extensions rc ++ (rps ≫= extensionsOf).
Proof.
  induction rps as [|rp rest IH]; intros crCache rc rets rc' crCache'; csimpl.
  - intros [= <- <- <-]. by rewrite app_nil_r.
  - intros H. apply bind_Ok in H as ([[ret rc1] crCache1] & Hstep & H).
    apply bind_Ok in H as ([[rets1 rc2] crCache2] & Hrun & H).
    injection H as <- <- <-.
    apply Regular_step_extensions in Hstep as [Hext _].
    rewrite (IH _ _ _ _ _ Hrun), Hext. by rewrite (assoc (++)).
Qed.

(** C10.  A classifier is initialised with 255 zero-valued extension
    entries; after it has classified the packets [rps], its extension list
    is these 255 entries followed by the extensions of all the packets in
    order, and the classification of a further packet [rp] is full matching
    against that list extended by the extensions of [rp].  This holds for
    the cacheless and for the cached classifier.  The result can depend on
    earlier packets: a TCP packet without extensions gets the default rule
    from a fresh classifier, and the rule that asks for extension 7 once a
    packet carrying that extension has been classified before it. *)
Theorem extensions_accumulate (mp : MapRules) (n : nat)
    (rps : list rpkt.RtrPkt) :
  extensions (Init n) = replicate 255 common.zeroExtn ∧
  (∀ rets rc' rp,
     runCacheless mp (Init n) rps = Ok (rets, rc') →
     extensions rc' = replicate 255 common.zeroExtn ++ (rps ≫= extensionsOf) ∧
     extensions (appendExtensions rc' rp) =
       replicate 255 common.zeroExtn ++ ((rps ++ [rp]) ≫= extensionsOf) ∧
     CachelessClassRule.GetRuleForPacket mp rc' rp =
       selectRule (lookupCandidates mp rp) (appendExtensions rc' rp)
         (rpkt.L4Type rp)) ∧
  (∀ rets rc' crCache',
     runRegular mp ClassRuleCache.Init (Init n) rps
       = Ok (rets, rc', crCache') →
     extensions rc' = replicate 255 common.zeroExtn ++ (rps ≫= extensionsOf)) ∧
  (∃ rc1 rc2,
     runCacheless (indexOf ext7Only) (Init 1) [plainPacket]
       = Ok ([emptyRule], rc1) ∧
     runCacheless (indexOf ext7Only) (Init 1) [ext7Packet; plainPacket]
       = Ok ([ptrTo (elemAddr 0) (anyRule "tcp-ext7" 1 tcpExt7);
              ptrTo (elemAddr 0) (anyRule "tcp-ext7" 1 tcpExt7)], rc2)).
Proof.
  split_and!.
  - done.
  - intros rets rc' rp Hrun. apply runCacheless_extensions in Hrun.
    change (extensions (Init n)) with (replicate 255 common.zeroExtn) in Hrun.
    split_and!; [done| |done].
    change (extensions (appendExtensions rc' rp))
      with (extensions rc' ++ extensionsOf rp).
    rewrite Hrun, bind_app, <- (assoc (++)). do 2 f_equal.
    csimpl. by rewrite app_nil_r.
  - intros rets rc' crCache' Hrun. by apply runRegular_extensions in Hrun.
  - eexists _, _. split; vm_compute; reflexivity.
Qed.

Lemma extensions_accumulate_witness :
  let mp := indexOf ext7Only in
  ∃ rets rc',
    runCacheless mp (Init 1) [ext7Packet; plainPacket] = Ok (rets, rc') ∧
    extensions rc' = replicate 255 common.zeroExtn ++ [ext7] ∧
    runRegular mp ClassRuleCache.Init (Init 1) [ext7Packet; plainPacket]
      = Ok (rets, rc', {[ RegularClassRule.entryOf plainPacket := 
                           ptrTo (elemAddr 0) (anyRule "tcp-ext7" 1 tcpExt7) ]}).
Proof.
  destruct (extensions_accumulate (indexOf ext7Only) 1
              [ext7Packet; plainPacket]) as (_ & Hcacheless & Hregular & _).
  eexists _, _. split; [vm_compute; reflexivity|]. split.
  - eapply (Hregular _ _ _). vm_compute. reflexivity.
  - vm_compute. reflexivity.
Defined.

(** *** The cache *)

(** [selectRule] reads of the classifier only the extension list and the
    lengths of the masks. *)
Lemma selectRule_congr c rc rc0 l4t n :
  extensions rc0 = extensions rc →
  masksOfLength n rc → masksOfLength n rc0 →
  selectRule c rc0 l4t = selectRule c rc l4t.
Proof.
  intros Hext (H1 & H2 & H3 & H4 & H5) (H1' & H2' & H3' & H4' & H5').
  unfold selectRule, matchL4Type.
  by rewrite Hext, H1, H2, H3, H4, H5, H1', H2', H3', H4', H5'.
Qed.

Lemma fullMatch_congr mp rc rc0 rp rp0 n :
  RegularClassRule.entryOf rp0 = RegularClassRule.entryOf rp →
  extensions rc0 = extensions rc →
  masksOfLength n rc → masksOfLength n rc0 →
  fullMatch mp rc0 rp0 = fullMatch mp rc rp.
Proof.
  intros Hentry Hext Hn Hn0. unfold fullMatch.
  rewrite (lookupCandidates_entryOf mp rp0 rp Hentry).
  assert (rpkt.L4Type rp0 = rpkt.L4Type rp) as ->.
  { unfold RegularClassRule.entryOf in Hentry. by injection Hentry. }
  by eapply selectRule_congr.
Qed.

Lemma appendExtensions_masks n rc rp :
  masksOfLength n rc → masksOfLength n (appendExtensions rc rp).
Proof. done. Qed.

Lemma Regular_step_provenance mp n base crCache rc rp ret rc' crCache' :
  cacheProvenance mp n base rc crCache →
  RegularClassRule.GetRuleForPacket mp crCache rc rp = Ok (ret, rc', crCache') →
  cacheProvenance mp n base rc' crCache'.
Proof.
  intros (Hmasks & Hbase & Hprov) Hstep.
  destruct (Regular_step_extensions _ _ _ _ _ _ _ Hstep) as [Hext Hlen].
  split; [by apply Hlen|]. split.
  { rewrite Hext. by apply prefix_app_r. }
  revert Hstep. unfold RegularClassRule.GetRuleForPacket.
  destruct (RegularClassRule.cacheHit _ _).
  - intros [= <- <- <-] entry r Hr.
    destruct (Hprov entry r Hr) as (exts0 & Hb & Hpre & Hfull).
    exists exts0. split_and!; [done| |done].
    simpl. by apply prefix_app_r.
  - intros H. apply bind_Ok in H as ([ret1 rc1] & Hfull & H).
    injection H as <- <- <-. intros entry r. unfold ClassRuleCache.Put.
    destruct (decide (RegularClassRule.entryOf rp = entry)) as [<-|Hne].
    + rewrite lookup_insert_eq. intros [= <-].
      exists (extensions (appendExtensions rc rp)). split_and!.
      * simpl. by apply prefix_app_r.
      * by rewrite Hext.
      * intros rp0 rc0 Hentry Hext0 Hn0. exists rc1.
        rewrite <- Hfull. eapply fullMatch_congr; [done|done| |done].
        by apply appendExtensions_masks.
    + rewrite lookup_insert_ne by done. intros Hr.
      destruct (Hprov entry r Hr) as (exts0 & Hb & Hpre & Hfull0).
      exists exts0. split_and!; [done| |done].
      rewrite Hext. by apply prefix_app_r.
Qed.

Lemma runRegular_provenance mp n base rps : ∀ crCache rc rets rc' crCache',
  cacheProvenance mp n base rc crCache →
  runRegular mp crCache rc rps = Ok (rets, rc', crCache') →
  cacheProvenance mp n base rc' crCache'.
Proof.
  induction rps as [|rp rest IH]; intros crCache rc rets rc' crCache' Hprov;
    simpl.
  - by intros [= <- <- <-].
  - intros H. apply bind_Ok in H as ([[ret rc1] crCache1] & Hstep & H).
    apply bind_Ok in H as ([[rets1 rc2] crCache2] & Hrun & H).
    injection H as <- <- <-.
    eapply IH; [|done]. by eapply Regular_step_provenance.
Qed.

Lemma Init_provenance mp n :
  cacheProvenance mp n (extensions (Init n)) (Init n) ClassRuleCache.Init.
Proof.
  split_and!.
  - unfold masksOfLength, Init. simpl. by rewrite !length_replicate.
  - done.
  - intros entry r. unfold ClassRuleCache.Init. by rewrite lookup_empty.
Qed.

Lemma bind_nil_all {A B : Type} (f : A → list B) (l : list A) :
  (∀ x, x ∈ l → f x = []) → l ≫= f = [].
Proof.
  induction l as [|x rest IH]; intros Hnil; csimpl; [done|].
  rewrite (Hnil x) by left. simpl. apply IH. intros y Hy. apply Hnil. by right.
Qed.

(** C3, as the design document states it, does not hold: after a TCP
    packet without extensions was classified to the rule ["tcp"], a packet
    with the same key that carries extension 7 hits the cache and gets
    ["tcp"] again, while full classification of it returns the rule
    ["tcp-ext7"] of higher priority. *)
Lemma cache_hit_not_full_classification :
  let mp := indexOf tcpAndExt7 in
  ∃ rets rc crCache rc',
    runRegular mp ClassRuleCache.Init (Init 2) [plainPacket]
      = Ok (rets, rc, crCache) ∧
    RegularClassRule.entryOf ext7Packet = RegularClassRule.entryOf plainPacket ∧
    RegularClassRule.cacheHit
      (ClassRuleCache.Get crCache (RegularClassRule.entryOf ext7Packet))
      (extensions (appendExtensions rc ext7Packet)) = true ∧
    RegularClassRule.GetRuleForPacket mp crCache rc ext7Packet
      = Ok (ptrTo (elemAddr 0) (anyRule "tcp" 1 tcpAny),
            appendExtensions rc ext7Packet, crCache) ∧
    fullMatch mp (appendExtensions rc ext7Packet) ext7Packet
      = Ok (ptrTo (elemAddr 1) (anyRule "tcp-ext7" 5 tcpExt7), rc') ∧
    ptr_eqb (ptrTo (elemAddr 0) (anyRule "tcp" 1 tcpAny))
            (ptrTo (elemAddr 1) (anyRule "tcp-ext7" 5 tcpExt7)) = false.
Proof.
  exists [ptrTo (elemAddr 0) (anyRule "tcp" 1 tcpAny)], afterPlainPacket,
    {[ RegularClassRule.entryOf plainPacket :=
         ptrTo (elemAddr 0) (anyRule "tcp" 1 tcpAny) ]}, afterExt7Packet.
  split_and!; vm_compute; reflexivity.
Qed.

(** C3, amended.  In every state that a cached classifier with masks of
    length [n] reaches from a fresh cache: if the cache holds a rule for the
    packet's key and that rule passes the extension re-check, the
    classification returns that very pointer and leaves the cache as it is;
    the pointer is the one that full classification against the index
    returns for every packet with this key under some earlier extension
    list, which is a prefix of the current one; and it is the one that full
    classification of the packet at hand returns, provided that neither this
    packet nor any packet classified before it carries an extension. *)
Theorem cache_hit_returns_stored_rule (mp : MapRules) (n : nat)
    (rps : list rpkt.RtrPkt) (rets : list RulePtr) (rc : ClassRule)
    (crCache : ClassRuleCache.t) (rp : rpkt.RtrPkt) :
  let rc1 := appendExtensions rc rp in
  let cached := ClassRuleCache.Get crCache (RegularClassRule.entryOf rp) in
  runRegular mp ClassRuleCache.Init (Init n) rps = Ok (rets, rc, crCache) →
  RegularClassRule.cacheHit cached (extensions rc1) = true →
  RegularClassRule.GetRuleForPacket mp crCache rc rp
    = Ok (cached, rc1, crCache) ∧
  (∃ exts0, exts0 `prefix_of` extensions rc ∧
     ∀ rp0 rc0, RegularClassRule.entryOf rp0 = RegularClassRule.entryOf rp →
       extensions rc0 = exts0 → masksOfLength n rc0 →
       ∃ rc0', fullMatch mp rc0 rp0 = Ok (cached, rc0')) ∧
  ((∀ p, p ∈ rps ++ [rp] → extensionsOf p = []) →
   ∃ rc', fullMatch mp rc1 rp = Ok (cached, rc')).
Proof.
  intros rc1 cached Hrun Hhit.
  pose proof (runRegular_provenance _ _ _ _ _ _ _ _ _
                (Init_provenance mp n) Hrun) as (Hmasks & Hbase & Hprov).
  pose proof (cacheHit_Some _ _ _ Hhit) as Hcached. fold cached in Hcached.
  destruct (Hprov _ _ Hcached) as (exts0 & Hb & Hpre & Hfull).
  split_and!.
  - unfold RegularClassRule.GetRuleForPacket. fold rc1 cached.
    by rewrite Hhit.
  - exists exts0. split; [done|]. intros rp0 rc0 Hentry. by apply Hfull.
  - intros Hnone. apply (Hfull rp rc1); [done| |by apply appendExtensions_masks].
    apply runRegular_extensions in Hrun.
    assert (extensions rc1 = extensions (Init n)) as Heq.
    { unfold rc1. change (extensions (appendExtensions rc rp))
        with (extensions rc ++ extensionsOf rp).
      rewrite Hrun, (Hnone rp), bind_nil_all, !app_nil_r; [done| |].
      - intros p Hp. apply Hnone. apply elem_of_app. by left.
      - apply elem_of_app. right. by apply list_elem_of_singleton. }
    rewrite Heq. apply (anti_symm prefix); [done|].
    etrans; [exact Hpre|]. rewrite Hrun. rewrite bind_nil_all, app_nil_r; [done|].
    intros p Hp. apply Hnone. apply elem_of_app. by left.
Qed.

Lemma cache_hit_returns_stored_rule_witness :
  let mp := indexOf tcpAndExt7 in
  let tcp := ptrTo (elemAddr 0) (anyRule "tcp" 1 tcpAny) in
  ∃ rets rc crCache,
    runRegular mp ClassRuleCache.Init (Init 2) [plainPacket]
      = Ok (rets, rc, crCache) ∧
    RegularClassRule.GetRuleForPacket mp crCache rc plainPacket
      = Ok (tcp, appendExtensions rc plainPacket, crCache) ∧
    ∃ rc', fullMatch mp (appendExtensions rc plainPacket) plainPacket
             = Ok (tcp, rc').
Proof.
  assert (runRegular (indexOf tcpAndExt7) ClassRuleCache.Init (Init 2)
            [plainPacket]
          = Ok ([ptrTo (elemAddr 0) (anyRule "tcp" 1 tcpAny)],
                afterPlainPacket,
                {[ RegularClassRule.entryOf plainPacket :=
                     ptrTo (elemAddr 0) (anyRule "tcp" 1 tcpAny) ]}))
    as Hrun by (vm_compute; reflexivity).
  exists [ptrTo (elemAddr 0) (anyRule "tcp" 1 tcpAny)], afterPlainPacket,
    {[ RegularClassRule.entryOf plainPacket :=
         ptrTo (elemAddr 0) (anyRule "tcp" 1 tcpAny) ]}.
  split; [exact Hrun|].
  destruct (cache_hit_returns_stored_rule _ _ _ _ _ _ plainPacket Hrun)
    as (Hret & _ & Hfull).
  - vm_compute. reflexivity.
  - split; [exact Hret|]. apply Hfull.
    intros p Hp. by repeat (apply elem_of_cons in Hp as [->|Hp]; [done|]);
      apply elem_of_nil in Hp.
Defined.

(** *** The tables of the rules with one side [ANY] *)

Lemma at_key_append_at `{Countable K} (m : gmap K (list RulePtr)) key key' p :
  at_key (append_at m key p) key' =
  at_key m key' ++ (if decide (key = key') then [p] else []).
Proof.
  unfold at_key, append_at. destruct (decide (key = key')) as [->|Hne].
  - by rewrite lookup_insert_eq.
  - rewrite lookup_insert_ne by done. by rewrite app_nil_r.
Qed.

Lemma indexSource_any_tables k cr mp mp' a :
  indexSource k cr mp = Some mp' →
  at_key (DestinationAnySourceRules mp') a =
    at_key (DestinationAnySourceRules mp) a
    ++ (if anySourceTo a cr then [ptrTo (elemAddr k) cr] else []) ∧
  SourceAnyDestinationRules mp' = SourceAnyDestinationRules mp.
Proof.
  unfold indexSource, anySourceTo.
  destruct (matchMode_ (SourceAs cr)) eqn:Hmode; simpl;
    try (intros [= <-]; simpl; split; [|done];
         rewrite ?bool_decide_eq_false_2 by (intros (? & _); congruence);
         by rewrite app_nil_r).
  - destruct (rangeCells _ _); simpl; [|done].
    intros [= <-]; simpl; split; [|done].
    rewrite ?bool_decide_eq_false_2 by (intros (? & _); congruence).
    by rewrite app_nil_r.
  - destruct (decide (matchMode_ (DestinationAs cr) ≠ ANY)) as [Hdst|Hdst];
      intros [= <-]; simpl; (split; [|done]).
    + rewrite at_key_append_at. f_equal.
      destruct (decide (IA (DestinationAs cr) = a)).
      * by rewrite bool_decide_eq_true_2.
      * by rewrite bool_decide_eq_false_2 by (by intros (_ & _ & ?)).
    + rewrite bool_decide_eq_false_2 by (by intros (_ & ? & _)).
      by rewrite app_nil_r.
Qed.

Lemma indexDestination_any_tables k cr mp mp' a :
  indexDestination k cr mp = Some mp' →
  at_key (SourceAnyDestinationRules mp') a =
    at_key (SourceAnyDestinationRules mp) a
    ++ (if anyDestinationFrom a cr then [ptrTo (elemAddr k) cr] else []) ∧
  DestinationAnySourceRules mp' = DestinationAnySourceRules mp.
Proof.
  unfold indexDestination, anyDestinationFrom.
  destruct (matchMode_ (DestinationAs cr)) eqn:Hmode; simpl;
    try (intros [= <-]; simpl; split; [|done];
         rewrite ?bool_decide_eq_false_2 by (intros (? & _); congruence);
         by rewrite app_nil_r).
  - destruct (rangeCells _ _); simpl; [|done].
    intros [= <-]; simpl; split; [|done].
    rewrite ?bool_decide_eq_false_2 by (intros (? & _); congruence).
    by rewrite app_nil_r.
  - destruct (decide (matchMode_ (SourceAs cr) ≠ ANY)) as [Hsrc|Hsrc];
      intros [= <-]; simpl; (split; [|done]).
    + rewrite at_key_append_at. f_equal.
      destruct (decide (IA (SourceAs cr) = a)).
      * by rewrite bool_decide_eq_true_2.
      * by rewrite bool_decide_eq_false_2 by (by intros (_ & _ & ?)).
    + rewrite bool_decide_eq_false_2 by (by intros (_ & ? & _)).
      by rewrite app_nil_r.
Qed.

Lemma indexRules_any_tables crs : ∀ k mp mp' a,
  indexRules k crs mp = Some mp' →
  at_key (DestinationAnySourceRules mp') a =
    at_key (DestinationAnySourceRules mp) a
    ++ pointersWhere (anySourceTo a) k crs ∧
  at_key (SourceAnyDestinationRules mp') a =
    at_key (SourceAnyDestinationRules mp) a
    ++ pointersWhere (anyDestinationFrom a) k crs.
Proof.
  induction crs as [|cr rest IH]; intros k mp mp' a; simpl.
  - intros [= <-]. by rewrite !app_nil_r.
  - destruct (indexSource k cr mp) as [mp1|] eqn:Hsrc; simpl; [|done].
    destruct (indexDestination k cr mp1) as [mp2|] eqn:Hdst; simpl; [|done].
    intros [Hdas Hsad]%(IH _ _ _ a).
    destruct (indexSource_any_tables _ _ _ _ a Hsrc) as [Hdas1 Hsad1].
    destruct (indexDestination_any_tables _ _ _ _ a Hdst) as [Hsad2 Hdas2].
    rewrite Hdas, Hsad, Hdas2, Hsad2, Hdas1, Hsad1.
    by rewrite !(assoc (++)).
Qed.

(** C6, as the design document states it, does not hold: with a rule from
    any source to [2-2] and a rule from [1-1] to any destination, the
    classification of a packet from [1-1] to [2-2] reads both rules, one in
    each group, whereas [destinationAnySourceRules] at the packet's source
    and [sourceAnyDestinationRules] at the packet's destination are
    empty. *)
Lemma any_tables_not_read_crosswise :
  let mp := indexOf [anyToExact; exactToAny] in
  let c := lookupCandidates mp plainPacket in
  destinationAnySourceRules c = [ptrTo (elemAddr 0) anyToExact] ∧
  at_key (DestinationAnySourceRules mp) (rpkt.SrcIA plainPacket) = [] ∧
  sourceAnyDestinationMatches c = [ptrTo (elemAddr 1) exactToAny] ∧
  at_key (SourceAnyDestinationRules mp) (rpkt.DstIA plainPacket) = [].
Proof. vm_compute. by split_and!. Qed.

(** C6, amended.  For a rule [cr] with source mode [ANY] and destination
    mode not [ANY], index building appends [&crs[k]] to
    [DestinationAnySourceRules] under the key [cr.DestinationAs.IA].
    Classification reads its destination-any group as
    [DestinationAnySourceRules] at the packet's destination address, which
    holds the rules with source [ANY] whose destination names that address;
    and reads its source-any group as [SourceAnyDestinationRules] at the
    packet's source address, which holds the rules with destination [ANY]
    whose source names that address. *)
Theorem any_tables_read_as_indexed (crs : list InternalClassRule)
    (mp : MapRules) (rp : rpkt.RtrPkt) :
  RulesToMap crs = Some mp →
  (∀ k cr mp0,
     matchMode_ (SourceAs cr) = ANY →
     matchMode_ (DestinationAs cr) ≠ ANY →
     indexSource k cr mp0 =
     Some (set_DestinationAnySourceRules
             (append_at (DestinationAnySourceRules mp0)
                (IA (DestinationAs cr)) (ptrTo (elemAddr k) cr)) mp0)) ∧
  destinationAnySourceRules (lookupCandidates mp rp)
    = at_key (DestinationAnySourceRules mp) (rpkt.DstIA rp) ∧
  destinationAnySourceRules (lookupCandidates mp rp)
    = pointersWhere (anySourceTo (rpkt.DstIA rp)) 0 crs ∧
  sourceAnyDestinationMatches (lookupCandidates mp rp)
    = at_key (SourceAnyDestinationRules mp) (rpkt.SrcIA rp) ∧
  sourceAnyDestinationMatches (lookupCandidates mp rp)
    = pointersWhere (anyDestinationFrom (rpkt.SrcIA rp)) 0 crs.
Proof.
  intros Hbuild. split_and!; [|done| |done|].
  - intros k cr mp0 Hsrc Hdst. unfold indexSource. rewrite Hsrc.
    by rewrite decide_True.
  - destruct (indexRules_any_tables _ _ _ _ (rpkt.DstIA rp) Hbuild) as [H _].
    change (destinationAnySourceRules (lookupCandidates mp rp))
      with (at_key (DestinationAnySourceRules mp) (rpkt.DstIA rp)).
    rewrite H. unfold at_key at 1. simpl. by rewrite lookup_empty.
  - destruct (indexRules_any_tables _ _ _ _ (rpkt.SrcIA rp) Hbuild) as [_ H].
    change (sourceAnyDestinationMatches (lookupCandidates mp rp))
      with (at_key (SourceAnyDestinationRules mp) (rpkt.SrcIA rp)).
    rewrite H. unfold at_key at 1. simpl. by rewrite lookup_empty.
Qed.

Lemma any_tables_read_as_indexed_witness :
  let mp := indexOf [anyToExact; exactToAny] in
  destinationAnySourceRules (lookupCandidates mp plainPacket)
    = pointersWhere (anySourceTo (addr.mkIA 2 2)) 0 [anyToExact; exactToAny] ∧
  sourceAnyDestinationMatches (lookupCandidates mp plainPacket)
    = pointersWhere (anyDestinationFrom (addr.mkIA 1 1)) 0
        [anyToExact; exactToAny].
Proof.
  destruct (any_tables_read_as_indexed [anyToExact; exactToAny]
              (indexOf [anyToExact; exactToAny]) plainPacket)
    as (_ & _ & Hdas & _ & Hsad).
  - vm_compute. reflexivity.
  - split; [exact Hdas|exact Hsad].
Defined.

(** *** Conversion of the configured rules *)

(** In the modes that name one identifier, a field that [addr.IAFromString]
    rejects fails the conversion with the parser's error. *)
Lemma getMatchRuleTypeFromRule_bad_identifier IAFromString ParseInt cr
    (code : Z) field err :
  code ∈ [0; 1; 2; 4] →
  IAFromString field = Failure err →
  getMatchRuleTypeFromRule IAFromString ParseInt cr code field = Failure err.
Proof.
  intros Hcode Hbad. unfold getMatchRuleTypeFromRule.
  repeat (apply elem_of_cons in Hcode as [->|Hcode]; [by simpl; rewrite Hbad|]).
  by apply elem_of_nil in Hcode.
Qed.

(** A mode code outside 0..5 fails the conversion. *)
Lemma getMatchRuleTypeFromRule_bad_mode IAFromString ParseInt cr
    (code : Z) field :
  matchMode_of_code code = None →
  getMatchRuleTypeFromRule IAFromString ParseInt cr code field =
  Failure (BasicError "Invalid matchMode declared" "matchMode" code).
Proof. intros Hcode. unfold getMatchRuleTypeFromRule. by rewrite Hcode. Qed.

(** C7.  In mode [INTF] the conversion of a match field never fails: the
    error of [strconv.ParseInt] is dropped and the number it hands back,
    converted to [uint64], becomes the interface of the rule.  So whatever
    the two parsers do, the external rule [badIntfRule], whose fields
    ["abc"] and ["xyz"] are no numbers, is converted to an internal rule
    without an error. *)
Theorem intf_parse_error_dropped (IAFromString : string → fallible addr.IA)
    (ParseInt : string → Z * option error) :
  (∀ cr field,
     getMatchRuleTypeFromRule IAFromString ParseInt cr 5 field =
     Value {| IA := addr.zero; lowLim := addr.zero; upLim := addr.zero;
              intf := uint64 (ParseInt field).1; matchMode_ := INTF |}) ∧
  ∃ rule,
    ConvClassRuleToInternal IAFromString ParseInt badIntfRule = Value rule ∧
    intf (SourceAs rule) = uint64 (ParseInt "abc").1 ∧
    matchMode_ (SourceAs rule) = INTF.
Proof.
  assert (∀ cr field,
     getMatchRuleTypeFromRule IAFromString ParseInt cr 5 field =
     Value {| IA := addr.zero; lowLim := addr.zero; upLim := addr.zero;
              intf := uint64 (ParseInt field).1; matchMode_ := INTF |}) as Hintf.
  { intros cr field. unfold getMatchRuleTypeFromRule. simpl.
    by destruct (ParseInt field). }
  split; [done|].
  unfold ConvClassRuleToInternal. simpl. rewrite !Hintf.
  eexists. by split_and!.
Qed.

(** *** The tables of the index *)

Lemma elem_of_pointersWhere P crs : ∀ k p,
  p ∈ pointersWhere P k crs ↔
  ∃ j cr, p = ptrTo (elemAddr (k + j)) cr ∧ crs !! j = Some cr ∧ P cr = true.
Proof.
  induction crs as [|c rest IH]; intros k p; simpl.
  - split; [by intros ?%elem_of_nil|]. by intros (j & cr & _ & ? & _).
  - rewrite elem_of_app, IH. split.
    + intros [Hhead|(j & cr & -> & Hj & HP)].
      * destruct (P c) eqn:HP; [|by apply elem_of_nil in Hhead].
        apply list_elem_of_singleton in Hhead as ->.
        exists 0%nat, c. by rewrite Nat.add_0_r.
      * exists (S j), cr. split_and!; [|done..]. do 2 f_equal. lia.
    + intros ([|j] & cr & -> & Hj & HP); simpl in Hj.
      * injection Hj as <-. left. rewrite HP, Nat.add_0_r.
        by apply list_elem_of_singleton.
      * right. exists j, cr. split_and!; [|done..]. do 2 f_equal. lia.
Qed.

Lemma foldl_append_at `{Countable K} (cells : list K) p :
  ∀ (m : gmap K (list RulePtr)) key,
  NoDup cells →
  at_key (foldl (λ m c, append_at m c p) m cells) key =
  at_key m key ++ (if decide (key ∈ cells) then [p] else []).
Proof.
  induction cells as [|c rest IH]; intros m key Hnodup.
  - simpl. by rewrite app_nil_r.
  - apply NoDup_cons in Hnodup as [Hc Hrest].
    cbn [foldl]. rewrite IH by done. rewrite at_key_append_at.
    destruct (decide (c = key)) as [->|Hne].
    + rewrite (decide_False (P := key ∈ rest)) by done.
      rewrite (decide_True (P := key ∈ key :: rest)) by left.
      by rewrite app_nil_r.
    + rewrite app_nil_r. destruct (decide (key ∈ rest)) as [Hin|Hout].
      * by rewrite (decide_True (P := key ∈ c :: rest)) by (by right).
      * rewrite (decide_False (P := key ∈ c :: rest)); [done|].
        by intros [?|?]%elem_of_cons.
Qed.

Lemma rangeCells_spec low up cells :
  rangeCells low up = Some cells →
  NoDup cells ∧ ∀ a, a ∈ cells ↔ inRange low up a = true.
Proof.
  unfold rangeCells, inRange.
  destruct (Z.ltb_spec (uint16 (addr.I up)) (uint16 (addr.I low))).
  { intros [= <-]. split; [constructor|]. intros a.
    rewrite bool_decide_eq_true. split; [by intros ?%elem_of_nil|lia]. }
  destruct (Z.eqb_spec (uint16 (addr.I up)) (2 ^ 16 - 1)); [done|].
  destruct (Z.ltb_spec (uint64 (addr.A up)) (uint64 (addr.A low))).
  { intros [= <-]. split; [constructor|]. intros a.
    rewrite bool_decide_eq_true. split; [by intros ?%elem_of_nil|lia]. }
  destruct (Z.eqb_spec (uint64 (addr.A up)) (2 ^ 64 - 1)); [done|].
  intros [= <-]. split.
  - apply NoDup_bind; [| |apply NoDup_seqZ].
    + intros i1 i2 a _ _ (j1 & Ha1 & _)%list_elem_of_bind
        (j2 & Ha2 & _)%list_elem_of_bind.
      apply list_elem_of_singleton in Ha1, Ha2. congruence.
    + intros i _. apply NoDup_bind; [| |apply NoDup_seqZ].
      * intros j1 j2 a _ _ Ha1%list_elem_of_singleton
          Ha2%list_elem_of_singleton. congruence.
      * intros j _. apply NoDup_singleton.
  - intros [ai aa]. rewrite bool_decide_eq_true. simpl. split.
    + intros (i & (j & Ha & Hj)%list_elem_of_bind & Hi)%list_elem_of_bind.
      apply list_elem_of_singleton in Ha. injection Ha as -> ->.
      apply elem_of_seqZ in Hi, Hj. lia.
    + intros [Hi Hj]. apply list_elem_of_bind. exists ai. split.
      * apply list_elem_of_bind. exists aa. split.
        -- by apply list_elem_of_singleton.
        -- apply elem_of_seqZ. lia.
      * apply elem_of_seqZ. lia.
Qed.

(** The pointer that one turn of the loop of [RulesToMap] appends to a
    table when the rule satisfies [b]. *)
Local Abbreviation sel b k cr := (if b then [ptrTo (elemAddr k) cr] else []).

Ltac table_trivial :=
  try done; try (by rewrite app_nil_r);
  try (let a := fresh "a" in intros a; by rewrite app_nil_r).

Lemma indexSource_tables k cr mp mp' :
  indexSource k cr mp = Some mp' →
  (∀ a, at_key (SourceRules mp') a =
        at_key (SourceRules mp) a ++ sel (matchesCell (SourceAs cr) a) k cr) ∧
  (∀ a, at_key (ASOnlySourceRules mp') a =
        at_key (ASOnlySourceRules mp) a
        ++ sel (matchesAS (SourceAs cr) a) k cr) ∧
  (∀ a, at_key (ISDOnlySourceRules mp') a =
        at_key (ISDOnlySourceRules mp) a
        ++ sel (matchesISD (SourceAs cr) a) k cr) ∧
  (∀ a, at_key (InterfaceIncomingRules mp') a =
        at_key (InterfaceIncomingRules mp) a
        ++ sel (matchesIntf (SourceAs cr) a) k cr) ∧
  L4OnlyRules mp' = L4OnlyRules mp ++ sel (bothAny cr) k cr ∧
  DestinationRules mp' = DestinationRules mp ∧
  ASOnlyDestRules mp' = ASOnlyDestRules mp ∧
  ISDOnlyDestRules mp' = ISDOnlyDestRules mp ∧
  RulesList mp' = RulesList mp.
Proof.
  unfold indexSource, matchesCell, matchesAS, matchesISD, matchesIntf, bothAny.
  destruct (matchMode_ (SourceAs cr)) eqn:Hmode; simpl.
  - intros [= <-]; simpl. split_and!; table_trivial.
    intros a. rewrite at_key_append_at. f_equal.
    destruct (decide (IA (SourceAs cr) = a)).
    + by rewrite bool_decide_eq_true_2.
    + by rewrite bool_decide_eq_false_2.
  - intros [= <-]; simpl. split_and!; table_trivial.
    intros a. rewrite at_key_append_at. f_equal.
    destruct (decide (addr.I (IA (SourceAs cr)) = a)).
    + by rewrite bool_decide_eq_true_2.
    + by rewrite bool_decide_eq_false_2.
  - intros [= <-]; simpl. split_and!; table_trivial.
    intros a. rewrite at_key_append_at. f_equal.
    destruct (decide (addr.A (IA (SourceAs cr)) = a)).
    + by rewrite bool_decide_eq_true_2.
    + by rewrite bool_decide_eq_false_2.
  - destruct (rangeCells _ _) as [cells|] eqn:Hcells; simpl; [|done].
    intros [= <-]; simpl. split_and!; table_trivial.
    intros a. apply rangeCells_spec in Hcells as [Hnodup Hin].
    rewrite foldl_append_at by done. f_equal.
    destruct (decide (a ∈ cells)) as [Ha|Ha].
    + apply Hin in Ha. by rewrite Ha.
    + destruct (inRange _ _ a) eqn:Hr; [|done]. by apply Hin in Hr.
  - destruct (decide (matchMode_ (DestinationAs cr) ≠ ANY)) as [Hdst|Hdst];
      intros [= <-]; simpl.
    + split_and!; table_trivial.
      rewrite bool_decide_eq_false_2 by (by intros [_ ?]).
      by rewrite app_nil_r.
    + split_and!; table_trivial.
      rewrite bool_decide_eq_true_2; [done|].
      split; [done|].
      by destruct (decide (matchMode_ (DestinationAs cr) = ANY)).
  - intros [= <-]; simpl. split_and!; table_trivial.
    intros a. rewrite at_key_append_at. f_equal.
    destruct (decide (intf (SourceAs cr) = a)).
    + by rewrite bool_decide_eq_true_2.
    + by rewrite bool_decide_eq_false_2.
Qed.

Lemma indexDestination_tables k cr mp mp' :
  indexDestination k cr mp = Some mp' →
  (∀ a, at_key (DestinationRules mp') a =
        at_key (DestinationRules mp) a
        ++ sel (matchesCell (DestinationAs cr) a) k cr) ∧
  (∀ a, at_key (ASOnlyDestRules mp') a =
        at_key (ASOnlyDestRules mp) a
        ++ sel (matchesAS (DestinationAs cr) a) k cr) ∧
  (∀ a, at_key (ISDOnlyDestRules mp') a =
        at_key (ISDOnlyDestRules mp) a
        ++ sel (matchesISD (DestinationAs cr) a) k cr) ∧
  SourceRules mp' = SourceRules mp ∧
  ASOnlySourceRules mp' = ASOnlySourceRules mp ∧
  ISDOnlySourceRules mp' = ISDOnlySourceRules mp ∧
  InterfaceIncomingRules mp' = InterfaceIncomingRules mp ∧
  L4OnlyRules mp' = L4OnlyRules mp ∧
  RulesList mp' = RulesList mp.
Proof.
  unfold indexDestination, matchesCell, matchesAS, matchesISD.
  destruct (matchMode_ (DestinationAs cr)) eqn:Hmode; simpl.
  - intros [= <-]; simpl. split_and!; table_trivial.
    intros a. rewrite at_key_append_at. f_equal.
    destruct (decide (IA (DestinationAs cr) = a)).
    + by rewrite bool_decide_eq_true_2.
    + by rewrite bool_decide_eq_false_2.
  - intros [= <-]; simpl. split_and!; table_trivial.
    intros a. rewrite at_key_append_at. f_equal.
    destruct (decide (addr.I (IA (DestinationAs cr)) = a)).
    + by rewrite bool_decide_eq_true_2.
    + by rewrite bool_decide_eq_false_2.
  - intros [= <-]; simpl. split_and!; table_trivial.
    intros a. rewrite at_key_append_at. f_equal.
    destruct (decide (addr.A (IA (DestinationAs cr)) = a)).
    + by rewrite bool_decide_eq_true_2.
    + by rewrite bool_decide_eq_false_2.
  - destruct (rangeCells _ _) as [cells|] eqn:Hcells; simpl; [|done].
    intros [= <-]; simpl. split_and!; table_trivial.
    intros a. apply rangeCells_spec in Hcells as [Hnodup Hin].
    rewrite foldl_append_at by done. f_equal.
    destruct (decide (a ∈ cells)) as [Ha|Ha].
    + apply Hin in Ha. by rewrite Ha.
    + destruct (inRange _ _ a) eqn:Hr; [|done]. by apply Hin in Hr.
  - destruct (decide (matchMode_ (SourceAs cr) ≠ ANY));
      intros [= <-]; simpl; split_and!; table_trivial.
  - intros [= <-]; simpl. split_and!; table_trivial.
Qed.

Lemma pointersWhere_false k crs :
  pointersWhere (λ _, false) k crs = [].
Proof. revert k. induction crs as [|cr rest IH]; intros k; simpl; auto. Qed.

(** The content of every table after the loop of [RulesToMap] has run
    over [crs] from index [k]. *)
Lemma indexRules_tables crs : ∀ k mp mp',
  indexRules k crs mp = Some mp' →
  (∀ a, at_key (SourceRules mp') a =
        at_key (SourceRules mp) a
        ++ pointersWhere (λ cr, matchesCell (SourceAs cr) a) k crs) ∧
  (∀ a, at_key (DestinationRules mp') a =
        at_key (DestinationRules mp) a
        ++ pointersWhere (λ cr, matchesCell (DestinationAs cr) a) k crs) ∧
  (∀ a, at_key (ASOnlySourceRules mp') a =
        at_key (ASOnlySourceRules mp) a
        ++ pointersWhere (λ cr, matchesAS (SourceAs cr) a) k crs) ∧
  (∀ a, at_key (ASOnlyDestRules mp') a =
        at_key (ASOnlyDestRules mp) a
        ++ pointersWhere (λ cr, matchesAS (DestinationAs cr) a) k crs) ∧
  (∀ a, at_key (ISDOnlySourceRules mp') a =
        at_key (ISDOnlySourceRules mp) a
        ++ pointersWhere (λ cr, matchesISD (SourceAs cr) a) k crs) ∧
  (∀ a, at_key (ISDOnlyDestRules mp') a =
        at_key (ISDOnlyDestRules mp) a
        ++ pointersWhere (λ cr, matchesISD (DestinationAs cr) a) k crs) ∧
  (∀ a, at_key (InterfaceIncomingRules mp') a =
        at_key (InterfaceIncomingRules mp) a
        ++ pointersWhere (λ cr, matchesIntf (SourceAs cr) a) k crs) ∧
  L4OnlyRules mp' = L4OnlyRules mp ++ pointersWhere bothAny k crs ∧
  RulesList mp' = RulesList mp.
Proof.
  induction crs as [|cr rest IH]; intros k mp mp'; simpl.
  - intros [= <-]. split_and!; table_trivial.
  - destruct (indexSource k cr mp) as [mp1|] eqn:Hsrc; simpl; [|done].
    destruct (indexDestination k cr mp1) as [mp2|] eqn:Hdst; simpl; [|done].
    intros (H1 & H2 & H3 & H4 & H5 & H6 & H7 & H8 & H9)%IH.
    destruct (indexSource_tables _ _ _ _ Hsrc)
      as (S1 & S2 & S3 & S4 & S5 & S6 & S7 & S8 & S9).
    destruct (indexDestination_tables _ _ _ _ Hdst)
      as (D1 & D2 & D3 & D4 & D5 & D6 & D7 & D8 & D9).
    split_and!.
    + intros a. by rewrite H1, D4, S1, (assoc (++)).
    + intros a. by rewrite H2, D1, S6, (assoc (++)).
    + intros a. by rewrite H3, D5, S2, (assoc (++)).
    + intros a. by rewrite H4, D2, S7, (assoc (++)).
    + intros a. by rewrite H5, D6, S3, (assoc (++)).
    + intros a. by rewrite H6, D3, S8, (assoc (++)).
    + intros a. by rewrite H7, D7, S4, (assoc (++)).
    + by rewrite H8, D8, S5, (assoc (++)).
    + by rewrite H9, D9, S9.
Qed.

Lemma at_key_empty `{Countable K} (key : K) :
  at_key (∅ : gmap K (list RulePtr)) key = [].
Proof. unfold at_key. by rewrite lookup_empty. Qed.

Lemma RulesToMap_tables crs mp :
  RulesToMap crs = Some mp →
  (∀ a, at_key (SourceRules mp) a =
        pointersWhere (λ cr, matchesCell (SourceAs cr) a) 0 crs) ∧
  (∀ a, at_key (DestinationRules mp) a =
        pointersWhere (λ cr, matchesCell (DestinationAs cr) a) 0 crs) ∧
  (∀ a, at_key (ASOnlySourceRules mp) a =
        pointersWhere (λ cr, matchesAS (SourceAs cr) a) 0 crs) ∧
  (∀ a, at_key (ASOnlyDestRules mp) a =
        pointersWhere (λ cr, matchesAS (DestinationAs cr) a) 0 crs) ∧
  (∀ a, at_key (ISDOnlySourceRules mp) a =
        pointersWhere (λ cr, matchesISD (SourceAs cr) a) 0 crs) ∧
  (∀ a, at_key (ISDOnlyDestRules mp) a =
        pointersWhere (λ cr, matchesISD (DestinationAs cr) a) 0 crs) ∧
  (∀ a, at_key (InterfaceIncomingRules mp) a =
        pointersWhere (λ cr, matchesIntf (SourceAs cr) a) 0 crs) ∧
  L4OnlyRules mp = pointersWhere bothAny 0 crs ∧
  RulesList mp = crs.
Proof.
  unfold RulesToMap.
  intros (H1 & H2 & H3 & H4 & H5 & H6 & H7 & H8 & H9)%indexRules_tables.
  simpl in *.
  split_and!; try done; intros a;
    first [rewrite H1|rewrite H2|rewrite H3|rewrite H4|rewrite H5|rewrite H6
          |rewrite H7]; by rewrite at_key_empty.
Qed.

(** The rule slices under one key of [SourceRules] and of
    [DestinationRules] hold, in the order of the rule list and once each,
    the rules whose predicate on that side is [EXACT] with this key or a
    [RANGE] whose rectangle contains it. *)
Theorem cell_tables_content (crs : list InternalClassRule) (mp : MapRules)
    (a : addr.IA) :
  RulesToMap crs = Some mp →
  at_key (SourceRules mp) a =
    pointersWhere (λ cr, matchesCell (SourceAs cr) a) 0 crs ∧
  at_key (DestinationRules mp) a =
    pointersWhere (λ cr, matchesCell (DestinationAs cr) a) 0 crs.
Proof.
  intros (H1 & H2 & _)%RulesToMap_tables. by split.
Qed.

Lemma cell_tables_content_witness :
  at_key (SourceRules (indexOf mixedRules)) (addr.mkIA 2 11)
    = [ptrTo (elemAddr 0) rangeRule] ∧
  at_key (DestinationRules (indexOf mixedRules)) (addr.mkIA 2 2)
    = [ptrTo (elemAddr 2) (exactRule 3)].
Proof.
  destruct (cell_tables_content mixedRules (indexOf mixedRules)
              (addr.mkIA 2 11)) as [Hsrc _]; [vm_compute; reflexivity|].
  destruct (cell_tables_content mixedRules (indexOf mixedRules)
              (addr.mkIA 2 2)) as [_ Hdst]; [vm_compute; reflexivity|].
  split; [exact Hsrc|exact Hdst].
Defined.

(** The tables keyed by AS and by ISD hold, in the order of the rule list
    and once each, the rules whose predicate on that side is [ASONLY] with
    that AS, respectively [ISDONLY] with that ISD. *)
Theorem as_isd_tables_content (crs : list InternalClassRule) (mp : MapRules)
    (as_ isd : Z) :
  RulesToMap crs = Some mp →
  at_key (ASOnlySourceRules mp) as_ =
    pointersWhere (λ cr, matchesAS (SourceAs cr) as_) 0 crs ∧
  at_key (ASOnlyDestRules mp) as_ =
    pointersWhere (λ cr, matchesAS (DestinationAs cr) as_) 0 crs ∧
  at_key (ISDOnlySourceRules mp) isd =
    pointersWhere (λ cr, matchesISD (SourceAs cr) isd) 0 crs ∧
  at_key (ISDOnlyDestRules mp) isd =
    pointersWhere (λ cr, matchesISD (DestinationAs cr) isd) 0 crs.
Proof.
  intros (_ & _ & H3 & H4 & H5 & H6 & _)%RulesToMap_tables. by split_and!.
Qed.

Lemma as_isd_tables_content_witness :
  at_key (ASOnlyDestRules (indexOf mixedRules)) 5
    = [ptrTo (elemAddr 1) intfRule] ∧
  at_key (ISDOnlyDestRules (indexOf mixedRules)) 7
    = [ptrTo (elemAddr 0) rangeRule].
Proof.
  destruct (as_isd_tables_content mixedRules (indexOf mixedRules) 5 7)
    as (_ & Has & _ & Hisd); [vm_compute; reflexivity|].
  split; [exact Has|exact Hisd].
Defined.

(** A rule with source mode [INTF] is listed under its interface whatever
    its destination predicate says, and [L4OnlyRules] holds exactly the
    rules whose source and destination are both [ANY]; a destination of
    mode [INTF] puts the rule in no table. *)
Theorem intf_and_l4only_content (crs : list InternalClassRule) (mp : MapRules)
    (ifid : Z) :
  RulesToMap crs = Some mp →
  at_key (InterfaceIncomingRules mp) ifid =
    pointersWhere (λ cr, matchesIntf (SourceAs cr) ifid) 0 crs ∧
  L4OnlyRules mp = pointersWhere bothAny 0 crs ∧
  RulesList mp = crs ∧
  ∀ k cr mp0, matchMode_ (DestinationAs cr) = INTF →
              indexDestination k cr mp0 = Some mp0.
Proof.
  intros (_ & _ & _ & _ & _ & _ & H7 & H8 & H9)%RulesToMap_tables.
  split_and!; [done..|].
  intros k cr mp0 Hmode. unfold indexDestination. by rewrite Hmode.
Qed.

Lemma intf_and_l4only_content_witness :
  at_key (InterfaceIncomingRules (indexOf mixedRules)) 77
    = [ptrTo (elemAddr 1) intfRule] ∧
  L4OnlyRules (indexOf mixedRules)
    = [ptrTo (elemAddr 3) (anyRule "any" 0 tcpAny)].
Proof.
  destruct (intf_and_l4only_content mixedRules (indexOf mixedRules) 77)
    as (Hintf & Hl4 & _); [vm_compute; reflexivity|].
  split; [exact Hintf|exact Hl4].
Defined.

Lemma rangeCells_None low up :
  rangeCells low up = None ↔ rangeLoops low up.
Proof.
  unfold rangeCells, rangeLoops.
  destruct (Z.ltb_spec (uint16 (addr.I up)) (uint16 (addr.I low)));
    [split; [done|lia]|].
  destruct (Z.eqb_spec (uint16 (addr.I up)) (2 ^ 16 - 1)); [split; [|done]; lia|].
  destruct (Z.ltb_spec (uint64 (addr.A up)) (uint64 (addr.A low)));
    [split; [done|lia]|].
  destruct (Z.eqb_spec (uint64 (addr.A up)) (2 ^ 64 - 1)); split; try done; lia.
Qed.

Lemma indexSource_None k cr mp :
  indexSource k cr mp = None ↔
  matchMode_ (SourceAs cr) = RANGE ∧
  rangeLoops (lowLim (SourceAs cr)) (upLim (SourceAs cr)).
Proof.
  rewrite <- rangeCells_None. unfold indexSource.
  destruct (matchMode_ (SourceAs cr)); simpl;
    try (split; [done|by intros [? _]]).
  - destruct (rangeCells _ _); simpl; split; try done. by intros [_ ?].
  - destruct (decide _); split; try done; by intros [? _].
Qed.

Lemma indexDestination_None k cr mp :
  indexDestination k cr mp = None ↔
  matchMode_ (DestinationAs cr) = RANGE ∧
  rangeLoops (lowLim (DestinationAs cr)) (upLim (DestinationAs cr)).
Proof.
  rewrite <- rangeCells_None. unfold indexDestination.
  destruct (matchMode_ (DestinationAs cr)); simpl;
    try (split; [done|by intros [? _]]).
  - destruct (rangeCells _ _); simpl; split; try done. by intros [_ ?].
  - destruct (decide _); split; try done; by intros [? _].
Qed.

Lemma indexRules_None crs : ∀ k mp,
  indexRules k crs mp = None ↔ ∃ cr, cr ∈ crs ∧ hasEndlessRange cr.
Proof.
  induction crs as [|cr rest IH]; intros k mp; simpl.
  - split; [done|]. by intros (cr & ?%elem_of_nil & _).
  - destruct (indexSource k cr mp) as [mp1|] eqn:Hsrc; simpl.
    + destruct (indexDestination k cr mp1) as [mp2|] eqn:Hdst; simpl.
      * rewrite IH. split.
        -- intros (cr' & Hin & Hloop). exists cr'. split; [by right|done].
        -- intros (cr' & [->|Hin]%elem_of_cons & Hloop); [|eauto].
           destruct Hloop as [Hloop|Hloop].
           ++ apply (indexSource_None k _ mp) in Hloop. congruence.
           ++ apply (indexDestination_None k _ mp1) in Hloop. congruence.
      * split; [|done]. intros _. exists cr. split; [left|].
        right. by apply (indexDestination_None k _ mp1).
    + split; [|done]. intros _. exists cr. split; [left|].
      left. by apply (indexSource_None k _ mp).
Qed.

(** [RulesToMap] fails to return exactly when some rule has a [RANGE]
    predicate whose loops never end: the range is not empty and its upper
    ISD is 65535, or its upper AS is [2^64 - 1]. *)
Theorem RulesToMap_endless_range (crs : list InternalClassRule) :
  RulesToMap crs = None ↔ ∃ cr, cr ∈ crs ∧ hasEndlessRange cr.
Proof. apply indexRules_None. Qed.

(** *** What classification against a built index returns *)

Lemma pointersWhere_lookup P crs p :
  p ∈ pointersWhere P 0 crs ↔
  ∃ k cr, p = ptrTo (elemAddr k) cr ∧ crs !! k = Some cr ∧ P cr = true.
Proof. by rewrite elem_of_pointersWhere. Qed.

Lemma elem_of_matchedPairs_index (crs : list InternalClassRule) (mp : MapRules)
    (rp : rpkt.RtrPkt) (p : RulePtr) :
  RulesToMap crs = Some mp →
  let c := lookupCandidates mp rp in
  p ∈ matchedPairs (sources c) (destinations c) ↔
  ∃ k cr, p = ptrTo (elemAddr k) cr ∧ crs !! k = Some cr ∧
          sideMatches (SourceAs cr) (rpkt.SrcIA rp) = true ∧
          sideMatches (DestinationAs cr) (rpkt.DstIA rp) = true.
Proof.
  intros (H1 & H2 & H3 & H4 & H5 & H6 & _)%RulesToMap_tables c.
  rewrite elem_of_matchedPairs. unfold c, lookupCandidates. simpl.
  rewrite H1, H2, H3, H4, H5, H6. unfold sideMatches. split.
  - intros (al & bm & bj & Hal & Hbm & Hp & Hbj & Heq).
    assert (∃ k cr, p = ptrTo (elemAddr k) cr ∧ crs !! k = Some cr ∧
                    sideMatches (SourceAs cr) (rpkt.SrcIA rp) = true)
      as (k & cr & -> & Hk & Hsrc).
    { unfold sideMatches.
      repeat (apply elem_of_cons in Hal as [->|Hal];
              [apply pointersWhere_lookup in Hp as (k & cr & -> & Hk & HP);
               exists k, cr; rewrite HP; split_and!; try done;
               by rewrite ?orb_true_r|]).
      by apply elem_of_nil in Hal. }
    assert (∃ k' cr', bj = ptrTo (elemAddr k') cr' ∧ crs !! k' = Some cr' ∧
                      sideMatches (DestinationAs cr') (rpkt.DstIA rp) = true)
      as (k' & cr' & -> & Hk' & Hdst).
    { unfold sideMatches.
      repeat (apply elem_of_cons in Hbm as [->|Hbm];
              [apply pointersWhere_lookup in Hbj as (k' & cr' & -> & Hk' & HP);
               exists k', cr'; rewrite HP; split_and!; try done;
               by rewrite ?orb_true_r|]).
      by apply elem_of_nil in Hbm. }
    simpl in Heq. apply bool_decide_eq_true in Heq. injection Heq as <-.
    assert (cr' = cr) as -> by congruence.
    by exists k, cr.
  - intros (k & cr & -> & Hk & Hsrc & Hdst).
    assert (∃ al, al ∈ [pointersWhere (λ cr, matchesCell (SourceAs cr)
                                         (rpkt.SrcIA rp)) 0 crs;
                        pointersWhere (λ cr, matchesAS (SourceAs cr)
                                         (addr.A (rpkt.SrcIA rp))) 0 crs;
                        pointersWhere (λ cr, matchesISD (SourceAs cr)
                                         (addr.I (rpkt.SrcIA rp))) 0 crs] ∧
                  ptrTo (elemAddr k) cr ∈ al) as (al & Hal & Hp).
    { apply orb_true_iff in Hsrc as [[Hs|Hs]%orb_true_iff|Hs].
      - eexists. split; [left|]. apply pointersWhere_lookup. eauto.
      - eexists. split; [right; left|]. apply pointersWhere_lookup. eauto.
      - eexists. split; [do 2 right; left|]. apply pointersWhere_lookup. eauto. }
    assert (∃ bm, bm ∈ [pointersWhere (λ cr, matchesCell (DestinationAs cr)
                                         (rpkt.DstIA rp)) 0 crs;
                        pointersWhere (λ cr, matchesAS (DestinationAs cr)
                                         (addr.A (rpkt.DstIA rp))) 0 crs;
                        pointersWhere (λ cr, matchesISD (DestinationAs cr)
                                         (addr.I (rpkt.DstIA rp))) 0 crs] ∧
                  ptrTo (elemAddr k) cr ∈ bm) as (bm & Hbm & Hq).
    { apply orb_true_iff in Hdst as [[Hs|Hs]%orb_true_iff|Hs].
      - eexists. split; [left|]. apply pointersWhere_lookup. eauto.
      - eexists. split; [right; left|]. apply pointersWhere_lookup. eauto.
      - eexists. split; [do 2 right; left|]. apply pointersWhere_lookup. eauto. }
    exists al, bm, (ptrTo (elemAddr k) cr). split_and!; try done.
    simpl. by apply bool_decide_eq_true.
Qed.

(** For an index built by [RulesToMap], the pointers that
    [intersectListsRules] returns for a packet, the nil padding apart, are
    exactly the pointers [&crs[k]] to the rules whose source predicate
    answers for the packet's source and whose destination predicate answers
    for its destination, each through its exact-or-range, AS-only or
    ISD-only bucket. *)
Theorem matched_group_content (crs : list InternalClassRule) (mp : MapRules)
    (rp : rpkt.RtrPkt) (matched : list RulePtr) (p : RulePtr) :
  RulesToMap crs = Some mp →
  let c := lookupCandidates mp rp in
  intersectListsRules (sources c) (destinations c) = Ok matched →
  p ≠ nilPtr →
  p ∈ matched ↔
  ∃ k cr, p = ptrTo (elemAddr k) cr ∧ crs !! k = Some cr ∧
          sideMatches (SourceAs cr) (rpkt.SrcIA rp) = true ∧
          sideMatches (DestinationAs cr) (rpkt.DstIA rp) = true.
Proof.
  intros Hbuild c Hmatched Hnil.
  rewrite (intersectListsRules_sound _ _ _ _ Hmatched Hnil).
  rewrite <- elem_of_matchedPairs.
  by apply elem_of_matchedPairs_index.
Qed.

Lemma matched_group_content_witness :
  ptrTo (elemAddr 0) rangeRule
    ∈ ptrTo (elemAddr 0) rangeRule :: replicate 9 nilPtr.
Proof.
  apply (matched_group_content mixedRules (indexOf mixedRules)
           (tcpPacket (addr.mkIA 2 11) (addr.mkIA 7 3))).
  - vm_compute. reflexivity.
  - vm_compute. reflexivity.
  - done.
  - exists 0%nat, rangeRule. by vm_compute.
Defined.

Lemma matchL4Type_from_true lst : ∀ mask i l4t exts m j,
  matchL4Type_from mask i lst l4t exts = Ok m →
  m !! j = Some true →
  mask !! j = Some true ∨
  ∃ p, (i ≤ j)%nat ∧ lst !! (j - i)%nat = Some p ∧ accepted l4t exts p = true.
Proof.
  induction lst as [|p rest IH]; intros mask i l4t exts m j; simpl.
  - intros [= <-]. by left.
  - destruct p as [|a r]; [intros [= <-]; by left|].
    destruct (acceptsL4 r l4t exts) eqn:Hacc.
    + destruct (decide (i < length mask)%nat); [|done].
      intros Hm Hj. destruct (IH _ _ _ _ _ _ Hm Hj) as [Hset|(q & Hle & Hq & Hq')].
      * destruct (decide (i = j)) as [->|Hne].
        -- right. exists (ptrTo a r). rewrite Nat.sub_diag. by split_and!.
        -- left. by rewrite list_lookup_insert_ne in Hset.
      * right. exists q. split_and!; [lia| |done].
        replace (j - i)%nat with (S (j - S i)) by lia. done.
    + intros Hm Hj. destruct (IH _ _ _ _ _ _ Hm Hj) as [Hset|(q & Hle & Hq & Hq')].
      * by left.
      * right. exists q. split_and!; [lia| |done].
        replace (j - i)%nat with (S (j - S i)) by lia. done.
Qed.

Lemma getRuleWithPrevMax_from_true lst : ∀ returnRule mask i prevMax max ret,
  getRuleWithPrevMax_from returnRule mask i lst prevMax = Ok (max, ret) →
  ret = returnRule ∨
  ∃ j, lst !! j = Some ret ∧ mask !! (i + j)%nat = Some true.
Proof.
  induction lst as [|p rest IH]; intros ret0 mask i max0 max ret; simpl.
  - intros [= <- <-]. by left.
  - destruct (mask !! i) as [[|]|] eqn:Hi; [|intros [= <- <-]; by left|done].
    destruct p as [|a r]; [done|].
    destruct (max0 <? Priority r); intros [->|(j & Hj & Hm)]%IH.
    + right. exists 0%nat. by rewrite Nat.add_0_r.
    + right. exists (S j). split; [done|]. by rewrite <- Nat.add_succ_comm.
    + by left.
    + right. exists (S j). split; [done|]. by rewrite <- Nat.add_succ_comm.
Qed.

(** One group: the rule that comes out of [getRuleWithPrevMax] on the mask
    that [matchL4Type] has left is the rule that went in or a rule of the
    group that passes the L4 filter. *)
Lemma select_group_accepted mask lst l4t exts m returnRule prevMax max ret :
  matchL4Type mask lst l4t exts = Ok m →
  getRuleWithPrevMax returnRule m lst prevMax = Ok (max, ret) →
  ret = returnRule ∨ (ret ∈ lst ∧ accepted l4t exts ret = true).
Proof.
  unfold matchL4Type, getRuleWithPrevMax. intros Hm Hsel.
  apply getRuleWithPrevMax_from_true in Hsel as [->|(j & Hj & Hmask)];
    [by left|right].
  destruct (matchL4Type_from_true _ _ _ _ _ _ _ Hm Hmask)
    as [Hold|(p & _ & Hp & Hacc)].
  - apply lookup_replicate in Hold as [? _]. done.
  - simpl in Hp. rewrite Nat.sub_0_r in Hp.
    assert (p = ret) as -> by congruence.
    split; [|done]. apply list_elem_of_lookup. eauto.
Qed.

Lemma selectRule_accepted c rc l4t ret rc' :
  selectRule c rc l4t = Ok (ret, rc') →
  ret = emptyRule ∨
  (ret ∈ allCandidates c ∧ accepted l4t (extensions rc) ret = true).
Proof.
  unfold selectRule. intros H.
  apply bind_Ok in H as (matched & Hmatched & H).
  apply bind_Ok in H as (m1 & Hm1 & H).
  apply bind_Ok in H as (m2 & Hm2 & H).
  apply bind_Ok in H as (m3 & Hm3 & H).
  apply bind_Ok in H as (m4 & Hm4 & H).
  apply bind_Ok in H as (m5 & Hm5 & H).
  apply bind_Ok in H as ([max1 ret1] & Hg1 & H).
  apply bind_Ok in H as ([max2 ret2] & Hg2 & H).
  apply bind_Ok in H as ([max3 ret3] & Hg3 & H).
  apply bind_Ok in H as ([max4 ret4] & Hg4 & H).
  apply bind_Ok in H as ([max5 ret5] & Hg5 & H).
  injection H as <- <-.
  rewrite intersectListsRules_closed in Hmatched.
  destruct (decide _); [|done]. injection Hmatched as <-.
  pose proof (select_group_accepted _ _ _ _ _ _ _ _ _ Hm1 Hg1) as Hs1.
  pose proof (select_group_accepted _ _ _ _ _ _ _ _ _ Hm2 Hg2) as Hs2.
  pose proof (select_group_accepted _ _ _ _ _ _ _ _ _ Hm3 Hg3) as Hs3.
  pose proof (select_group_accepted _ _ _ _ _ _ _ _ _ Hm5 Hg4) as Hs4.
  pose proof (select_group_accepted _ _ _ _ _ _ _ _ _ Hm4 Hg5) as Hs5.
  unfold allCandidates. rewrite !elem_of_app.
  destruct Hs5 as [->|[Hin Hacc]]; [|right; tauto].
  destruct Hs4 as [->|[Hin Hacc]]; [|right; tauto].
  destruct Hs3 as [->|[Hin Hacc]]; [|right; tauto].
  destruct Hs2 as [->|[Hin Hacc]]; [|right; tauto].
  destruct Hs1 as [->|[Hin Hacc]]; [by left|right].
  split; [|done]. left.
  apply elem_of_app in Hin as [Hin|Hin]; [done|].
  apply elem_of_replicate_inv in Hin. by subst.
Qed.

(** Soundness of classification against a built index.  Whatever the
    cacheless classifier returns for a packet is the default rule or a
    pointer [&crs[k]] into the rule list to a rule of priority at least 0
    that passes the L4 filter for the packet under the classifier's
    extension list and that the index offers for the packet: through the
    intersection of its source and destination buckets, as a rule with one
    side [ANY] keyed by the address of its other side, by its ingress
    interface, or with both sides [ANY]. *)
Theorem classification_sound (crs : list InternalClassRule) (mp : MapRules)
    (rc : ClassRule) (rp : rpkt.RtrPkt) (ret : RulePtr) (rc' : ClassRule) :
  RulesToMap crs = Some mp →
  CachelessClassRule.GetRuleForPacket mp rc rp = Ok (ret, rc') →
  ret = emptyRule ∨
  ∃ k cr, ret = ptrTo (elemAddr k) cr ∧ crs !! k = Some cr ∧
          0 ≤ Priority cr ∧
          acceptsL4 cr (rpkt.L4Type rp) (extensions rc ++ extensionsOf rp)
            = true ∧
          ruleSelects cr rp.
Proof.
  intros Hbuild Hret.
  pose proof (RulesToMap_tables _ _ Hbuild)
    as (_ & _ & _ & _ & _ & _ & Hintf & Hl4 & _).
  pose proof (indexRules_any_tables _ _ _ _ (rpkt.DstIA rp) Hbuild) as [Hdas _].
  pose proof (indexRules_any_tables _ _ _ _ (rpkt.SrcIA rp) Hbuild) as [_ Hsad].
  simpl in Hdas, Hsad. rewrite at_key_empty in Hdas, Hsad. simpl in Hdas, Hsad.
  unfold CachelessClassRule.GetRuleForPacket, fullMatch in Hret.
  pose proof (selectRule_sound _ _ _ _ _ Hret) as ([->|Hprio] & _); [by left|].
  apply selectRule_accepted in Hret as [->|[Hin Hacc]]; [by left|right].
  destruct Hprio as (_ & a & r & -> & Hprio).
  assert (∃ k, a = elemAddr k ∧ crs !! k = Some r ∧ ruleSelects r rp)
    as (k & -> & Hk & Hsel).
  { unfold allCandidates in Hin. rewrite !elem_of_app in Hin.
    destruct Hin as [Hin|[Hin|[Hin|[Hin|Hin]]]].
    - apply (elem_of_matchedPairs_index crs mp rp _ Hbuild) in Hin
        as (k & cr & [= -> ->] & Hk & Hs & Hd).
      exists k. split_and!; [done..|]. by left.
    - simpl in Hin. rewrite Hsad in Hin.
      apply pointersWhere_lookup in Hin as (k & cr & [= -> ->] & Hk & HP).
      exists k. split_and!; [done..|]. right. by left.
    - simpl in Hin. rewrite Hdas in Hin.
      apply pointersWhere_lookup in Hin as (k & cr & [= -> ->] & Hk & HP).
      exists k. split_and!; [done..|]. do 2 right. by left.
    - simpl in Hin. rewrite Hintf in Hin.
      apply pointersWhere_lookup in Hin as (k & cr & [= -> ->] & Hk & HP).
      exists k. split_and!; [done..|]. do 3 right. by left.
    - simpl in Hin. rewrite Hl4 in Hin.
      apply pointersWhere_lookup in Hin as (k & cr & [= -> ->] & Hk & HP).
      exists k. split_and!; [done..|]. by do 4 right. }
  exists k, r. split_and!; [done|done|lia|exact Hacc|done].
Qed.

Lemma classification_sound_witness :
  let rp := tcpPacket (addr.mkIA 2 11) (addr.mkIA 7 3) in
  ptrTo (elemAddr 0) rangeRule = emptyRule ∨
  ∃ k cr, ptrTo (elemAddr 0) rangeRule = ptrTo (elemAddr k) cr ∧
          mixedRules !! k = Some cr ∧ 0 ≤ Priority cr ∧
          acceptsL4 cr 6 ([] ++ extensionsOf rp) = true ∧ ruleSelects cr rp.
Proof.
  apply (classification_sound mixedRules (indexOf mixedRules)
           {| maskMatched := replicate 10 false; maskSad := [];
              maskDas := []; maskLf := [false]; maskIntf := [];
              extensions := [] |}
           (tcpPacket (addr.mkIA 2 11) (addr.mkIA 7 3))
           (ptrTo (elemAddr 0) rangeRule)
           {| maskMatched := true :: replicate 9 false; maskSad := [];
              maskDas := []; maskLf := [true]; maskIntf := [];
              extensions := [] |}).
  - vm_compute. reflexivity.
  - vm_compute. reflexivity.
Defined.

(** *** How many rules the intersection writes *)

Lemma length_filter_cons {X : Type} (f : X → bool) (x : X) (l : list X) :
  length (filter (λ y, f y = true) (x :: l)) =
  ((if f x then 1 else 0) + length (filter (λ y, f y = true) l))%nat.
Proof.
  destruct (f x) eqn:Hf.
  - by rewrite filter_cons_True.
  - rewrite filter_cons_False; [done|]. by rewrite Hf.
Qed.

Lemma same_address_count Q k x crs : ∀ k0,
  length (bj ← pointersWhere Q k0 crs;
          if ptr_eqb (ptrTo (elemAddr k) x) bj
          then [ptrTo (elemAddr k) x] else []) =
  if decide (k0 ≤ k)%nat then
    match crs !! (k - k0)%nat with
    | Some cr => if Q cr then 1%nat else 0%nat
    | None => 0%nat
    end
  else 0%nat.
Proof.
  induction crs as [|cr rest IH]; intros k0.
  - simpl. by destruct (decide _).
  - cbn [pointersWhere]. rewrite bind_app, length_app, IH.
    destruct (decide (k0 ≤ k)%nat) as [Hle|Hgt].
    + destruct (decide (k = k0)) as [->|Hne].
      * rewrite Nat.sub_diag. rewrite decide_False by lia. simpl.
        destruct (Q cr); simpl; [|done].
        by rewrite bool_decide_eq_true_2.
      * rewrite decide_True by lia.
        replace (k - k0)%nat with (S (k - S k0)) by lia. simpl.
        destruct (Q cr); simpl; [|done].
        rewrite bool_decide_eq_false_2; [done|]. intros [= ?]. lia.
    + rewrite decide_False by lia.
      destruct (Q cr); simpl; [|done].
      rewrite bool_decide_eq_false_2; [done|]. intros [= ?]. lia.
Qed.

Lemma shared_count P Q all crs1 : ∀ pre,
  all = pre ++ crs1 →
  length (ai ← pointersWhere P (length pre) crs1;
          bj ← pointersWhere Q 0 all;
          if ptr_eqb ai bj then [ai] else []) =
  length (filter (λ cr, P cr && Q cr = true) crs1).
Proof.
  induction crs1 as [|cr rest IH]; intros pre Hall; [done|].
  cbn [pointersWhere]. rewrite bind_app, length_app, length_filter_cons.
  f_equal.
  - destruct (P cr); [|done].
    rewrite bind_singleton, same_address_count, decide_True by lia.
    rewrite Hall, Nat.sub_0_r, lookup_app_r, Nat.sub_diag by lia. done.
  - specialize (IH (pre ++ [cr])).
    rewrite length_app, Nat.add_1_r in IH. apply IH.
    by rewrite <- (assoc (++)).
Qed.

Lemma sides_count (s d : addr.IA) crs :
  let P1 cr := matchesCell (SourceAs cr) s in
  let P2 cr := matchesAS (SourceAs cr) (addr.A s) in
  let P3 cr := matchesISD (SourceAs cr) (addr.I s) in
  let Q1 cr := matchesCell (DestinationAs cr) d in
  let Q2 cr := matchesAS (DestinationAs cr) (addr.A d) in
  let Q3 cr := matchesISD (DestinationAs cr) (addr.I d) in
  let n P Q := length (filter (λ cr, P cr && Q cr = true) crs) in
  (n P1 Q1 + n P1 Q2 + n P1 Q3 + (n P2 Q1 + n P2 Q2 + n P2 Q3)
   + (n P3 Q1 + n P3 Q2 + n P3 Q3))%nat =
  length (filter (λ cr, sideMatches (SourceAs cr) s &&
                        sideMatches (DestinationAs cr) d = true) crs).
Proof.
  intros P1 P2 P3 Q1 Q2 Q3 n. unfold n.
  induction crs as [|cr rest IH]; [done|].
  rewrite !length_filter_cons, <- IH.
  unfold P1, P2, P3, Q1, Q2, Q3, sideMatches, matchesCell, matchesAS,
    matchesISD.
  destruct (matchMode_ (SourceAs cr)), (matchMode_ (DestinationAs cr));
    repeat match goal with
           | |- context [bool_decide ?P] => destruct (bool_decide P)
           | |- context [inRange ?l ?u ?a] => destruct (inRange l u a)
           end; simpl; lia.
Qed.

Lemma length_matchedPairs_index (crs : list InternalClassRule)
    (mp : MapRules) (rp : rpkt.RtrPkt) :
  RulesToMap crs = Some mp →
  length (matchedPairs (sources (lookupCandidates mp rp))
            (destinations (lookupCandidates mp rp))) =
  length (matchingBothSides crs rp).
Proof.
  intros (H1 & H2 & H3 & H4 & H5 & H6 & _)%RulesToMap_tables.
  unfold lookupCandidates, matchedPairs, matchingBothSides. cbn [sources destinations].
  rewrite H1, H2, H3, H4, H5, H6.
  rewrite <- sides_count. cbv zeta.
  cbn [mbind list_bind]. 
  repeat rewrite ?length_app, ?app_nil_r.
  pose proof (λ P Q, shared_count P Q crs crs [] eq_refl) as Hcount.
  simpl in Hcount.
  rewrite !Hcount. change (length (@nil RulePtr)) with 0%nat. lia.
Qed.

(** When the intersection panics.  For an index built by [RulesToMap],
    [intersectListsRules] writes one slot for each rule of the list that
    answers for the packet's source and for its destination: with at most
    ten such rules it returns them, in the order of the buckets, followed by
    nil up to the length ten; with more than ten it panics, and so does the
    classification, whatever the state of the classifier. *)
Theorem intersection_panics_iff (crs : list InternalClassRule)
    (mp : MapRules) (rp : rpkt.RtrPkt) :
  RulesToMap crs = Some mp →
  let c := lookupCandidates mp rp in
  let n := length (matchingBothSides crs rp) in
  (intersectListsRules (sources c) (destinations c) = Panic IndexOutOfRange
   ↔ (10 < n)%nat) ∧
  ((n ≤ 10)%nat →
   ∃ found, length found = n ∧
            intersectListsRules (sources c) (destinations c) =
            Ok (found ++ replicate (10 - n) nilPtr)) ∧
  ((10 < n)%nat →
   ∀ rc, CachelessClassRule.GetRuleForPacket mp rc rp = Panic IndexOutOfRange).
Proof.
  intros Hbuild c n.
  pose proof (length_matchedPairs_index crs mp rp Hbuild) as Hlen.
  fold c in Hlen. fold n in Hlen.
  rewrite intersectListsRules_closed, Hlen. split_and!.
  - destruct (decide (n ≤ 10)%nat); split; (done || lia).
  - intros Hn. rewrite decide_True by done. by eexists.
  - intros Hn rc.
    unfold CachelessClassRule.GetRuleForPacket, fullMatch, selectRule.
    fold c. rewrite intersectListsRules_closed, Hlen.
    by rewrite decide_False by lia.
Qed.

Lemma intersection_panics_iff_witness :
  let c := lookupCandidates (indexOf elevenRules)
             (tcpPacket (addr.mkIA 1 1) (addr.mkIA 2 2)) in
  intersectListsRules (sources c) (destinations c) = Panic IndexOutOfRange
  ↔ (10 < length (matchingBothSides elevenRules
                    (tcpPacket (addr.mkIA 1 1) (addr.mkIA 2 2))))%nat.
Proof.
  apply (intersection_panics_iff elevenRules (indexOf elevenRules)
           (tcpPacket (addr.mkIA 1 1) (addr.mkIA 2 2))).
  vm_compute. reflexivity.
Defined.

(** *** Growing extension lists *)

Lemma matchAnyEntry_mono l4 exts exts' :
  (∀ e, e ∈ exts → e ∈ exts') →
  matchAnyEntry l4 exts = true → matchAnyEntry l4 exts' = true.
Proof.
  intros Hsub. rewrite !matchAnyEntry_true.
  intros (pm & Hpm & [Hw|(e & He & Ht & Hc)]); exists pm; (split; [done|]).
  - by left.
  - right. exists e. auto.
Qed.

Lemma acceptsL4_mono rule l4t exts exts' :
  (∀ e, e ∈ exts → e ∈ exts') →
  acceptsL4 rule l4t exts = true → acceptsL4 rule l4t exts' = true.
Proof.
  intros Hsub. unfold acceptsL4. rewrite !matchBaseProtocol_true.
  intros [Hb Hext]. split; [done|]. by eapply matchAnyEntry_mono.
Qed.

Lemma acceptsL4_ext rule l4t exts exts' :
  (∀ e, e ∈ exts ↔ e ∈ exts') →
  acceptsL4 rule l4t exts = acceptsL4 rule l4t exts'.
Proof.
  intros Heq. destruct (acceptsL4 rule l4t exts) eqn:H1.
  - symmetry. eapply acceptsL4_mono; [|done]. intros e. apply Heq.
  - destruct (acceptsL4 rule l4t exts') eqn:H2; [|done].
    rewrite <- H1. eapply acceptsL4_mono; [|done]. intros e. apply Heq.
Qed.

Lemma matchL4Type_from_ext lst : ∀ mask i l4t exts exts',
  (∀ r, acceptsL4 r l4t exts = acceptsL4 r l4t exts') →
  matchL4Type_from mask i lst l4t exts = matchL4Type_from mask i lst l4t exts'.
Proof.
  induction lst as [|p rest IH]; intros mask i l4t exts exts' Heq; simpl;
    [done|].
  destruct p as [|a r]; [done|]. rewrite <- Heq.
  destruct (acceptsL4 r l4t exts); [|by apply IH].
  destruct (decide _); [by apply IH|done].
Qed.

Lemma selectRule_sameMaskLengths c rc l4t ret rc' :
  selectRule c rc l4t = Ok (ret, rc') →
  sameMaskLengths rc rc' ∧ extensions rc' = extensions rc.
Proof.
  unfold selectRule. intros H.
  apply bind_Ok in H as (matched & Hmatched & H).
  apply bind_Ok in H as (m1 & Hm1 & H).
  apply bind_Ok in H as (m2 & Hm2 & H).
  apply bind_Ok in H as (m3 & Hm3 & H).
  apply bind_Ok in H as (m4 & Hm4 & H).
  apply bind_Ok in H as (m5 & Hm5 & H).
  apply bind_Ok in H as ([max1 ret1] & Hg1 & H).
  apply bind_Ok in H as ([max2 ret2] & Hg2 & H).
  apply bind_Ok in H as ([max3 ret3] & Hg3 & H).
  apply bind_Ok in H as ([max4 ret4] & Hg4 & H).
  apply bind_Ok in H as ([max5 ret5] & Hg5 & H).
  injection H as <- <-.
  apply matchL4Type_length in Hm1, Hm2, Hm3, Hm4, Hm5.
  split; [|done]. unfold sameMaskLengths. simpl. by split_and!.
Qed.

(** [selectRule] depends on the extension list only through the L4 filter
    and on the masks only through their lengths. *)
Lemma matchL4Type_ext mask mask2 lst l4t exts exts2 :
  (∀ r, acceptsL4 r l4t exts = acceptsL4 r l4t exts2) →
  length mask2 = length mask →
  matchL4Type mask2 lst l4t exts2 = matchL4Type mask lst l4t exts.
Proof.
  intros Hext Hlen. unfold matchL4Type. rewrite Hlen.
  symmetry. by apply matchL4Type_from_ext.
Qed.

Lemma selectRule_ext c rc rc2 l4t ret rc' :
  (∀ r, acceptsL4 r l4t (extensions rc) = acceptsL4 r l4t (extensions rc2)) →
  sameMaskLengths rc rc2 →
  selectRule c rc l4t = Ok (ret, rc') →
  ∃ rc2', selectRule c rc2 l4t = Ok (ret, rc2').
Proof.
  intros Hext (H1 & H2 & H3 & H4 & H5). unfold selectRule. intros H.
  apply bind_Ok in H as (matched & -> & H). simpl.
  rewrite !(matchL4Type_ext _ _ _ _ _ _ Hext) by done.
  apply bind_Ok in H as (m1 & -> & H). simpl.
  apply bind_Ok in H as (m2 & -> & H). simpl.
  apply bind_Ok in H as (m3 & -> & H). simpl.
  apply bind_Ok in H as (m4 & -> & H). simpl.
  apply bind_Ok in H as (m5 & -> & H). simpl.
  apply bind_Ok in H as ([max1 ret1] & -> & H). simpl.
  apply bind_Ok in H as ([max2 ret2] & -> & H). simpl.
  apply bind_Ok in H as ([max3 ret3] & -> & H). simpl.
  apply bind_Ok in H as ([max4 ret4] & -> & H). simpl.
  apply bind_Ok in H as ([max5 ret5] & -> & H). simpl.
  injection H as <- <-. by eexists.
Qed.

Lemma elem_of_app_twice {A} (l k : list A) x :
  x ∈ (l ++ k) ++ k ↔ x ∈ l ++ k.
Proof. rewrite !elem_of_app. tauto. Qed.

Lemma fullMatch_twice (mp : MapRules) (rc : ClassRule)
    (rp : rpkt.RtrPkt) (ret : RulePtr) (rc1 : ClassRule) :
  fullMatch mp (appendExtensions rc rp) rp = Ok (ret, rc1) →
  ∃ rc2, fullMatch mp (appendExtensions rc1 rp) rp = Ok (ret, rc2) ∧
         extensions rc2 = (extensions rc ++ extensionsOf rp) ++ extensionsOf rp.
Proof.
  unfold fullMatch. intros H1.
  destruct (selectRule_sameMaskLengths _ _ _ _ _ H1) as [Hlen Hext].
  assert (∀ r, acceptsL4 r (rpkt.L4Type rp)
                 (extensions (appendExtensions rc rp)) =
               acceptsL4 r (rpkt.L4Type rp)
                 (extensions (appendExtensions rc1 rp))) as Hacc.
  { intros r. apply acceptsL4_ext. intros e.
    change (extensions (appendExtensions rc1 rp))
      with (extensions rc1 ++ extensionsOf rp).
    rewrite Hext.
    change (extensions (appendExtensions rc rp))
      with (extensions rc ++ extensionsOf rp).
    symmetry. apply elem_of_app_twice. }
  destruct (selectRule_ext _ _ (appendExtensions rc1 rp) _ _ _ Hacc Hlen H1)
    as [rc2 H2].
  exists rc2. split; [done|].
  apply selectRule_sameMaskLengths in H2 as [_ ->].
  change (extensions (appendExtensions rc1 rp))
    with (extensions rc1 ++ extensionsOf rp).
  by rewrite Hext.
Qed.

(** Classifying the same packet twice in a row.  The second classification
    by the cacheless classifier returns the rule that the first one
    returned, although the packet's extensions have been appended to the
    scratch slice a second time. *)
Theorem cacheless_same_packet_twice (mp : MapRules) (rc : ClassRule)
    (rp : rpkt.RtrPkt) (ret : RulePtr) (rc1 : ClassRule) :
  CachelessClassRule.GetRuleForPacket mp rc rp = Ok (ret, rc1) →
  ∃ rc2, CachelessClassRule.GetRuleForPacket mp rc1 rp = Ok (ret, rc2) ∧
         extensions rc2 = (extensions rc ++ extensionsOf rp) ++ extensionsOf rp.
Proof. apply fullMatch_twice. Qed.

Lemma cacheHit_mono cached exts exts' :
  (∀ e, e ∈ exts → e ∈ exts') →
  RegularClassRule.cacheHit cached exts = true →
  RegularClassRule.cacheHit cached exts' = true.
Proof.
  destruct cached as [|a r]; [done|]. simpl.
  unfold matchRuleL4ExtensionType. apply matchAnyEntry_mono.
Qed.

Lemma cacheless_same_packet_twice_witness :
  let mp := indexOf mixedRules in
  let rp := tcpPacketExt7 (addr.mkIA 2 11) (addr.mkIA 7 3) in
  let rc := {| maskMatched := replicate 10 false; maskSad := [];
               maskDas := []; maskLf := [false]; maskIntf := [];
               extensions := [] |} in
  ∃ rc2, CachelessClassRule.GetRuleForPacket mp
           {| maskMatched := true :: replicate 9 false; maskSad := [];
              maskDas := []; maskLf := [true]; maskIntf := [];
              extensions := [ext7] |} rp
         = Ok (ptrTo (elemAddr 0) rangeRule, rc2) ∧
         extensions rc2 = (extensions rc ++ extensionsOf rp) ++ extensionsOf rp.
Proof.
  apply (cacheless_same_packet_twice (indexOf mixedRules)
           {| maskMatched := replicate 10 false; maskSad := [];
              maskDas := []; maskLf := [false]; maskIntf := [];
              extensions := [] |}
           (tcpPacketExt7 (addr.mkIA 2 11) (addr.mkIA 7 3))).
  vm_compute. reflexivity.
Defined.

(** The same for the cached classifier: whether the first classification
    was answered from the cache or by full matching, classifying the same
    packet again returns the same rule. *)
Theorem regular_same_packet_twice (mp : MapRules) (crCache : ClassRuleCache.t)
    (rc : ClassRule) (rp : rpkt.RtrPkt) (ret : RulePtr) (rc1 : ClassRule)
    (crCache1 : ClassRuleCache.t) :
  RegularClassRule.GetRuleForPacket mp crCache rc rp = Ok (ret, rc1, crCache1) →
  ∃ rc2 crCache2,
    RegularClassRule.GetRuleForPacket mp crCache1 rc1 rp
      = Ok (ret, rc2, crCache2).
Proof.
  unfold RegularClassRule.GetRuleForPacket at 1.
  destruct (RegularClassRule.cacheHit _ _) eqn:Hhit.
  - intros [= <- <- <-]. unfold RegularClassRule.GetRuleForPacket.
    erewrite cacheHit_mono; [eexists _, _; reflexivity| |exact Hhit].
    intros e He. simpl. apply elem_of_app. by left.
  - intros H. apply bind_Ok in H as ([ret1 rc1'] & Hfull & H).
    injection H as <- <- <-.
    destruct (fullMatch_twice mp rc rp _ _ Hfull) as (rc2 & Hagain & _).
    unfold RegularClassRule.GetRuleForPacket, ClassRuleCache.Put,
      ClassRuleCache.Get.
    rewrite lookup_insert_eq.
    clear Hhit.
    destruct (RegularClassRule.cacheHit ret1 _);
      [eexists _, _; reflexivity|].
    rewrite Hagain. simpl. eexists _, _; reflexivity.
Qed.

Lemma regular_same_packet_twice_witness :
  let mp := indexOf mixedRules in
  let rp := tcpPacketExt7 (addr.mkIA 2 11) (addr.mkIA 7 3) in
  ∃ rc2 crCache2,
    RegularClassRule.GetRuleForPacket mp
      {[ RegularClassRule.entryOf rp := ptrTo (elemAddr 0) rangeRule ]}
      {| maskMatched := true :: replicate 9 false; maskSad := [];
         maskDas := []; maskLf := [true]; maskIntf := [];
         extensions := [ext7] |} rp
    = Ok (ptrTo (elemAddr 0) rangeRule, rc2, crCache2).
Proof.
  apply (regular_same_packet_twice (indexOf mixedRules) ∅
           {| maskMatched := replicate 10 false; maskSad := [];
              maskDas := []; maskLf := [false]; maskIntf := [];
              extensions := [] |}
           (tcpPacketExt7 (addr.mkIA 2 11) (addr.mkIA 7 3))).
  vm_compute. reflexivity.
Defined.

(** Along a run of the cacheless classifier the L4 filter only opens: a
    rule that passes it for a protocol under the extension list before the
    run passes it under the list after the run. *)
Theorem acceptance_grows (mp : MapRules) (rc : ClassRule)
    (rps : list rpkt.RtrPkt) (rets : list RulePtr) (rc' : ClassRule)
    (rule : InternalClassRule) (l4t : Z) :
  runCacheless mp rc rps = Ok (rets, rc') →
  acceptsL4 rule l4t (extensions rc) = true →
  acceptsL4 rule l4t (extensions rc') = true.
Proof.
  intros Hrun%runCacheless_extensions. rewrite Hrun.
  apply acceptsL4_mono. intros e He. apply elem_of_app. by left.
Qed.

Lemma acceptance_grows_witness :
  acceptsL4 (anyRule "tcp" 1 tcpAny) 6 [ext7] = true.
Proof.
  apply (acceptance_grows (indexOf ext7Only)
           {| maskMatched := [false]; maskSad := []; maskDas := [];
              maskLf := [false]; maskIntf := []; extensions := [] |}
           [ext7Packet]
           [ptrTo (elemAddr 0) (anyRule "tcp-ext7" 1 tcpExt7)]
           {| maskMatched := [false]; maskSad := []; maskDas := [];
              maskLf := [true]; maskIntf := []; extensions := [ext7] |}).
  - vm_compute. reflexivity.
  - reflexivity.
Defined.

(** The 255 zero entries that [Init] puts in the scratch slice count as
    extensions of class 0 and type 0: in every state that a classifier
    reaches from [Init], a rule with an entry of base protocol 0 whose
    extension is 0 modulo 256 passes [matchRuleL4ExtensionType], whatever
    the packets carried. *)
Theorem zero_entries_satisfy_extension_zero (mp : MapRules) (n : nat)
    (rps : list rpkt.RtrPkt) (rets : list RulePtr) (rc' : ClassRule)
    (rule : InternalClassRule) (pm : ProtocolMatchType) :
  runCacheless mp (Init n) rps = Ok (rets, rc') →
  pm ∈ L4Type rule →
  baseProtocol pm = 0 →
  uint8 (extension pm) = 0 →
  matchRuleL4ExtensionType rule (extensions rc') = true.
Proof.
  intros Hrun%runCacheless_extensions Hpm Hbase Hext.
  unfold matchRuleL4ExtensionType. apply matchAnyEntry_true.
  exists pm. split; [done|]. right. exists common.zeroExtn.
  split_and!; [|by rewrite Hext|by rewrite Hbase].
  rewrite Hrun. apply elem_of_app. left.
  change (extensions (Init n)) with (replicate 255 common.zeroExtn).
  apply elem_of_replicate. split; [done|lia].
Qed.

Lemma zero_entries_satisfy_extension_zero_witness :
  matchRuleL4ExtensionType
    (anyRule "tcp-256" 3 [ {| baseProtocol := 0; extension := 256 |} ])
    (extensions (Init 0)) = true.
Proof.
  apply (zero_entries_satisfy_extension_zero (indexOf []) 0 [] [] (Init 0)
           _ {| baseProtocol := 0; extension := 256 |}).
  - reflexivity.
  - left.
  - reflexivity.
  - reflexivity.
Defined.

(** *** The cached and the cacheless classifier *)

Lemma classifiers_agree_from mp n base rps : ∀ rcC rcR crCache rets rcC',
  (∀ p, p ∈ rps → extensionsOf p = []) →
  extensions rcC = base → extensions rcR = base →
  masksOfLength n rcC →
  cacheProvenance mp n base rcR crCache →
  runCacheless mp rcC rps = Ok (rets, rcC') →
  ∃ rcR' crCache', runRegular mp crCache rcR rps = Ok (rets, rcR', crCache').
Proof.
  induction rps as [|rp rest IH];
    intros rcC rcR crCache rets rcC' Hnone HextC HextR HlenC Hprov; simpl.
  - intros [= <- <-]. by eexists _, _.
  - intros H. apply bind_Ok in H as ([ret rcC1] & Hstep & H).
    apply bind_Ok in H as ([rets1 rcC2] & Hrun & H). injection H as <- <-.
    unfold CachelessClassRule.GetRuleForPacket in Hstep.
    assert (extensionsOf rp = []) as Hrp by (apply Hnone; left).
    assert (extensions (appendExtensions rcC rp) = base) as HextC1.
    { change (extensions (appendExtensions rcC rp))
        with (extensions rcC ++ extensionsOf rp).
      by rewrite Hrp, app_nil_r. }
    assert (extensions (appendExtensions rcR rp) = base) as HextR1.
    { change (extensions (appendExtensions rcR rp))
        with (extensions rcR ++ extensionsOf rp).
      by rewrite Hrp, app_nil_r. }
    pose proof Hprov as (HlenR & Hbase & Hcache).
    assert (fullMatch mp (appendExtensions rcR rp) rp = Ok (ret, rcC1))
      as HstepR.
    { rewrite <- Hstep. eapply fullMatch_congr; [done|congruence|..].
      - by apply appendExtensions_masks.
      - by apply appendExtensions_masks. }
    assert (RegularClassRule.GetRuleForPacket mp crCache rcR rp =
            Ok (ret, appendExtensions rcR rp, crCache) ∨
            RegularClassRule.GetRuleForPacket mp crCache rcR rp =
            Ok (ret, rcC1,
                ClassRuleCache.Put crCache (RegularClassRule.entryOf rp) ret))
      as HR.
    { unfold RegularClassRule.GetRuleForPacket.
      destruct (RegularClassRule.cacheHit _ _) eqn:Hhit.
      - left. apply cacheHit_Some in Hhit.
        destruct (Hcache _ _ Hhit) as (exts0 & Hb & Hpre & Hfull).
        assert (exts0 = base) as ->.
        { apply (anti_symm prefix); [by rewrite <- HextR|done]. }
        destruct (Hfull rp (appendExtensions rcR rp)) as [rc0 Hrc0];
          [done|done|by apply appendExtensions_masks|].
        rewrite HstepR in Hrc0. by injection Hrc0 as <- _.
      - right. by rewrite HstepR. }
    apply fullMatch_sound in Hstep as (_ & HextC2 & HlenC2).
    destruct HR as [HR|HR]; rewrite HR; simpl.
    + destruct (IH rcC1 (appendExtensions rcR rp) crCache rets1 rcC2)
        as (rcR' & crCache' & ->); try done.
      * intros p Hp. apply Hnone. by right.
      * congruence.
      * by apply HlenC2, appendExtensions_masks.
      * by eapply Regular_step_provenance.
      * simpl. by eexists _, _.
    + destruct (IH rcC1 rcC1
                  (ClassRuleCache.Put crCache (RegularClassRule.entryOf rp) ret)
                  rets1 rcC2)
        as (rcR' & crCache' & ->); try done.
      * intros p Hp. apply Hnone. by right.
      * congruence.
      * congruence.
      * by apply HlenC2, appendExtensions_masks.
      * by eapply Regular_step_provenance.
      * simpl. by eexists _, _.
Qed.

(** On packets without extensions the two classifiers agree: whenever the
    cacheless classifier serves a sequence of such packets, the cached
    classifier started with a fresh cache returns the same rules for
    them. *)
Theorem classifiers_agree_without_extensions (mp : MapRules) (n : nat)
    (rps : list rpkt.RtrPkt) (rets : list RulePtr) (rc : ClassRule) :
  (∀ p, p ∈ rps → extensionsOf p = []) →
  runCacheless mp (Init n) rps = Ok (rets, rc) →
  ∃ rc' crCache',
    runRegular mp ClassRuleCache.Init (Init n) rps = Ok (rets, rc', crCache').
Proof.
  intros Hnone Hrun.
  eapply (classifiers_agree_from mp n (extensions (Init n))); try done.
  - unfold masksOfLength, Init. simpl. by rewrite !length_replicate.
  - apply Init_provenance.
Qed.

Lemma classifiers_agree_without_extensions_witness :
  let tcp := ptrTo (elemAddr 0) (anyRule "tcp" 1 tcpAny) in
  ∃ rc' crCache',
    runRegular (indexOf tcpAndExt7) ClassRuleCache.Init (Init 2)
      [plainPacket; plainPacket] = Ok ([tcp; tcp], rc', crCache').
Proof.
  apply (classifiers_agree_without_extensions (indexOf tcpAndExt7) 2
           [plainPacket; plainPacket] _ afterPlainPacket).
  - intros p Hp. by repeat (apply elem_of_cons in Hp as [->|Hp]; [done|]);
      apply elem_of_nil in Hp.
  - vm_compute. reflexivity.
Defined.

(** *** Masks that are too short *)





(** *** Ties *)








(** *** The cache after a classification *)

(** After every classification by the cached classifier the cache maps the
    packet's key to the rule returned, which is never nil, and every other
    key to what it mapped to before; a fresh cache maps every key to nil. *)
Theorem cache_after_classification (mp : MapRules)
    (crCache : ClassRuleCache.t) (rc : ClassRule) (rp : rpkt.RtrPkt)
    (ret : RulePtr) (rc' : ClassRule) (crCache' : ClassRuleCache.t) :
  RegularClassRule.GetRuleForPacket mp crCache rc rp = Ok (ret, rc', crCache') →
  ret ≠ nilPtr ∧
  ClassRuleCache.Get crCache' (RegularClassRule.entryOf rp) = ret ∧
  (∀ entry, entry ≠ RegularClassRule.entryOf rp →
            ClassRuleCache.Get crCache' entry = ClassRuleCache.Get crCache entry) ∧
  (∀ entry, ClassRuleCache.Get ClassRuleCache.Init entry = nilPtr).
Proof.
  unfold RegularClassRule.GetRuleForPacket.
  destruct (RegularClassRule.cacheHit _ _) eqn:Hhit.
  - intros [= <- <- <-]. split_and!; [|done|done|].
    + intros Hnil. by rewrite Hnil in Hhit.
    + intros entry. unfold ClassRuleCache.Get, ClassRuleCache.Init.
      by rewrite lookup_empty.
  - intros H. apply bind_Ok in H as ([ret1 rc1] & Hfull & H).
    injection H as <- <- <-.
    unfold ClassRuleCache.Get, ClassRuleCache.Put, ClassRuleCache.Init.
    split_and!.
    + apply fullMatch_sound in Hfull as ([->|(_ & a & r & -> & _)] & _); done.
    + by rewrite lookup_insert_eq.
    + intros entry Hne. by rewrite lookup_insert_ne.
    + intros entry. by rewrite lookup_empty.
Qed.

Lemma cache_after_classification_witness :
  ptrTo (elemAddr 0) rangeRule ≠ nilPtr ∧
  ClassRuleCache.Get
    {[ RegularClassRule.entryOf (tcpPacket (addr.mkIA 2 11) (addr.mkIA 7 3))
         := ptrTo (elemAddr 0) rangeRule ]}
    (RegularClassRule.entryOf (tcpPacket (addr.mkIA 2 11) (addr.mkIA 7 3)))
  = ptrTo (elemAddr 0) rangeRule.
Proof.
  destruct (cache_after_classification (indexOf mixedRules) ∅
              {| maskMatched := replicate 10 false; maskSad := [];
                 maskDas := []; maskLf := [false]; maskIntf := [];
                 extensions := [] |}
              (tcpPacket (addr.mkIA 2 11) (addr.mkIA 7 3))
              (ptrTo (elemAddr 0) rangeRule)
              {| maskMatched := true :: replicate 9 false; maskSad := [];
                 maskDas := []; maskLf := [true]; maskIntf := [];
                 extensions := [] |}
              {[ RegularClassRule.entryOf
                   (tcpPacket (addr.mkIA 2 11) (addr.mkIA 7 3))
                   := ptrTo (elemAddr 0) rangeRule ]})
    as (Hnil & Hget & _).
  - vm_compute. reflexivity.
  - split; [exact Hnil|exact Hget].
Defined.

(** *** More on the conversion *)

Lemma getMatchRuleTypeFromRule_mode IAFromString ParseInt cr code field m :
  getMatchRuleTypeFromRule IAFromString ParseInt cr code field = Value m →
  matchMode_of_code code = Some (matchMode_ m).
Proof.
  unfold getMatchRuleTypeFromRule.
  destruct (matchMode_of_code code) as [[]|]; try done.
  - destruct (IAFromString field); [|done]. by intros [= <-].
  - destruct (IAFromString field); [|done]. by intros [= <-].
  - destruct (IAFromString field); [|done]. by intros [= <-].
  - destruct (Split field "||") as [|p0 [|p1 [|]]]; try done.
    destruct (IAFromString p0); [|done].
    destruct (IAFromString p1); [|done]. by intros [= <-].
  - destruct (IAFromString field); [|done]. by intros [= <-].
  - destruct (ParseInt field). by intros [= <-].
Qed.

(** A rule that is converted keeps its name, priority and queue number;
    the match modes of the internal rule are those that the configured codes
    0 to 5 stand for; each L4 entry keeps its extension and has its base
    protocol cut to eight bits. *)
Theorem conversion_keeps_fields (IAFromString : string → fallible addr.IA)
    (ParseInt : string → Z * option error) (cr : conf.ExternalClassRule)
    (rule : InternalClassRule) :
  ConvClassRuleToInternal IAFromString ParseInt cr = Value rule →
  Name rule = conf.Name cr ∧
  Priority rule = conf.Priority cr ∧
  QueueNumber rule = conf.QueueNumber cr ∧
  matchMode_of_code (conf.SourceMatchMode cr)
    = Some (matchMode_ (SourceAs rule)) ∧
  matchMode_of_code (conf.DestinationMatchMode cr)
    = Some (matchMode_ (DestinationAs rule)) ∧
  L4Type rule =
    (λ l4pt, {| baseProtocol := conf.BaseProtocol l4pt mod 256;
                extension := conf.Extension l4pt |}) <$> conf.L4Type cr.
Proof.
  unfold ConvClassRuleToInternal.
  destruct (getMatchRuleTypeFromRule _ _ cr (conf.SourceMatchMode cr) _)
    as [src|] eqn:Hsrc; [|done].
  destruct (getMatchRuleTypeFromRule _ _ cr (conf.DestinationMatchMode cr) _)
    as [dst|] eqn:Hdst; [|done].
  intros [= <-]. simpl.
  apply getMatchRuleTypeFromRule_mode in Hsrc, Hdst. by split_and!.
Qed.

Lemma conversion_keeps_fields_witness :
  ∃ rule,
    ConvClassRuleToInternal toyIAFromString toyParseInt rangeExternal
      = Value rule ∧
    Name rule = "range" ∧ Priority rule = 4 ∧ QueueNumber rule = 4 ∧
    matchMode_ (SourceAs rule) = RANGE ∧
    matchMode_ (DestinationAs rule) = INTF ∧
    L4Type rule = [ {| baseProtocol := 6; extension := -1 |} ].
Proof.
  eexists. split; [reflexivity|].
  destruct (conversion_keeps_fields toyIAFromString toyParseInt rangeExternal
              _ eq_refl) as (Hn & Hp & Hq & Hs & Hd & Hl).
  split_and!; [exact Hn|exact Hp|exact Hq| | |exact Hl].
  - apply (inj Some). symmetry. exact Hs.
  - apply (inj Some). symmetry. exact Hd.
Defined.

(** The conversion of a rule fails exactly when the conversion of its
    source field fails, with that error, or the source converts and the
    conversion of the destination field fails, with that one. *)
Theorem conversion_fails_iff (IAFromString : string → fallible addr.IA)
    (ParseInt : string → Z * option error) (cr : conf.ExternalClassRule)
    (err : error) :
  ConvClassRuleToInternal IAFromString ParseInt cr = Failure err ↔
  getMatchRuleTypeFromRule IAFromString ParseInt cr
    (conf.SourceMatchMode cr) (conf.SourceAs cr) = Failure err ∨
  ((∃ m, getMatchRuleTypeFromRule IAFromString ParseInt cr
           (conf.SourceMatchMode cr) (conf.SourceAs cr) = Value m) ∧
   getMatchRuleTypeFromRule IAFromString ParseInt cr
     (conf.DestinationMatchMode cr) (conf.DestinationAs cr) = Failure err).
Proof.
  unfold ConvClassRuleToInternal.
  destruct (getMatchRuleTypeFromRule _ _ cr (conf.SourceMatchMode cr) _)
    as [src|e1] eqn:Hsrc.
  - destruct (getMatchRuleTypeFromRule _ _ cr (conf.DestinationMatchMode cr) _)
      as [dst|e2] eqn:Hdst.
    + split; [done|]. intros [H|[_ H]]; congruence.
    + split.
      * intros [= <-]. right. split; [by eexists|done].
      * intros [H|[_ H]]; congruence.
  - split.
    + intros [= <-]. by left.
    + intros [H|[[m H] _]]; congruence.
Qed.

(** The conversion of a match field fails in exactly these cases: the mode
    code is none of 0 to 5 (error ["Invalid matchMode declared"]); the mode
    is 0, 1, 2 or 4 and [addr.IAFromString] rejects the field (its error);
    the mode is 3 and the field, cut at ["||"], has not two pieces (error
    ["Invalid Class"]) or has two of which one is rejected (the parser's
    error, that of the first piece first).  With mode 5 it never fails. *)
Theorem match_field_fails_iff (IAFromString : string → fallible addr.IA)
    (ParseInt : string → Z * option error) (cr : conf.ExternalClassRule)
    (code : Z) (field : string) (err : error) :
  getMatchRuleTypeFromRule IAFromString ParseInt cr code field = Failure err ↔
  (¬ 0 ≤ code ≤ 5 ∧
   err = BasicError "Invalid matchMode declared" "matchMode" code) ∨
  (code ∈ [0; 1; 2; 4] ∧ IAFromString field = Failure err) ∨
  (code = 3 ∧
   ((length (Split field "||") ≠ 2%nat ∧
     err = BasicError "Invalid Class" "raw" 3) ∨
    (∃ part0 part1,
       Split field "||" = [part0; part1] ∧
       (IAFromString part0 = Failure err ∨
        ((∃ low, IAFromString part0 = Value low) ∧
         IAFromString part1 = Failure err))))).
Proof.
  assert (∀ z : Z, z ∈ [0; 1; 2; 4] ↔ z = 0 ∨ z = 1 ∨ z = 2 ∨ z = 4) as Hin.
  { intros z. rewrite !elem_of_cons, elem_of_nil. tauto. }
  rewrite Hin.
  destruct (matchMode_of_code code) as [mode|] eqn:Hmode.
  - assert (0 ≤ code ≤ 5 ∧
            mode = match code with
                   | 0 => EXACT | 1 => ISDONLY | 2 => ASONLY
                   | 3 => RANGE | 4 => ANY | _ => INTF end) as [Hcode ->].
    { unfold matchMode_of_code in Hmode.
      destruct code as [|p|p]; [by injection Hmode as <-| |done].
      destruct p as [[[p|p|]|[p|p|]|]|[[p|p|]|[p|p|]|]|]; try done;
        by injection Hmode as <-. }
    unfold getMatchRuleTypeFromRule. rewrite Hmode. clear Hmode.
    assert (code = 0 ∨ code = 1 ∨ code = 2 ∨ code = 3 ∨ code = 4 ∨ code = 5)
      as [->|[->|[->|[->|[->| ->]]]]] by lia.
    + destruct (IAFromString field) as [ia|e]; split;
        [done| |intros [= ->]; right; left; split; [lia|done]|];
        intros [[? _]|[[_ H]|[? _]]]; try lia; congruence.
    + destruct (IAFromString field) as [ia|e]; split;
        [done| |intros [= ->]; right; left; split; [lia|done]|];
        intros [[? _]|[[_ H]|[? _]]]; try lia; congruence.
    + destruct (IAFromString field) as [ia|e]; split;
        [done| |intros [= ->]; right; left; split; [lia|done]|];
        intros [[? _]|[[_ H]|[? _]]]; try lia; congruence.
    + destruct (Split field "||") as [|p0 [|p1 [|p2 ps]]] eqn:Hsplit.
      * split.
        -- intros [= <-]. right. right. split; [done|]. left. by split.
        -- intros [[? _]|[[? _]|[_ [[_ ->]|(? & ? & ? & _)]]]];
             (lia || done).
      * split.
        -- intros [= <-]. right. right. split; [done|]. left. by split.
        -- intros [[? _]|[[? _]|[_ [[_ ->]|(? & ? & ? & _)]]]];
             (lia || done).
      * destruct (IAFromString p0) as [lo|e0] eqn:H0.
        -- destruct (IAFromString p1) as [up|e1] eqn:H1.
           ++ split; [done|].
              intros [[? _]|[[? _]|[_ [[Hlen _]|(q0 & q1 & [= <- <-] & Hq)]]]];
                [lia|lia|done|].
              destruct Hq as [Hq|[_ Hq]]; congruence.
           ++ split.
              ** intros [= <-]. right. right. split; [done|]. right.
                 exists p0, p1. split; [done|]. right.
                 split; [by eexists|done].
              ** intros [[? _]|[[? _]|[_ [[Hlen _]|(q0 & q1 & [= <- <-] & Hq)]]]];
                   [lia|lia|done|].
                 destruct Hq as [Hq|[_ Hq]]; congruence.
        -- split.
           ++ intros [= <-]. right. right. split; [done|]. right.
              exists p0, p1. split; [done|]. by left.
           ++ intros [[? _]|[[? _]|[_ [[Hlen _]|(q0 & q1 & [= <- <-] & Hq)]]]];
                [lia|lia|done|].
              destruct Hq as [Hq|[[lo Hlo] Hq]]; congruence.
      * split.
        -- intros [= <-]. right. right. split; [done|]. left. by split.
        -- intros [[? _]|[[? _]|[_ [[_ ->]|(? & ? & ? & _)]]]];
             (lia || done).
    + destruct (IAFromString field) as [ia|e]; split;
        [done| |intros [= ->]; right; left; split; [lia|done]|];
        intros [[? _]|[[_ H]|[? _]]]; try lia; congruence.
    + simpl. destruct (ParseInt field). split; [done|].
      intros [[? _]|[[? _]|[? _]]]; lia.
  - rewrite (getMatchRuleTypeFromRule_bad_mode _ _ _ _ _ Hmode).
    assert (¬ 0 ≤ code ≤ 5) as Hcode.
    { intros Hcode.
      assert (code = 0 ∨ code = 1 ∨ code = 2 ∨ code = 3 ∨ code = 4 ∨ code = 5)
        as [->|[->|[->|[->|[->| ->]]]]] by lia; done. }
    split.
    + intros [= <-]. by left.
    + intros [[_ ->]|[[? _]|[-> _]]]; [done|lia|lia].
Qed.

End RulesProps.
